(** * A-star grid path finding: a shallow embedding of [main.py]

    The development follows the Python source top-down: the cell kinds, the
    search node, the statistics record, the grid with its bounds, walkability
    and neighbour queries, the two cost functions, and the search loop of
    [AStar.find_path] with its path reconstruction.

    Numbers are modelled as the interpreter has them: coordinates and
    counters are unbounded integers ([Z]); scores are IEEE 754 binary64
    values (Rocq's primitive [float], whose operations are the ones the
    Python [float] type and [math.sqrt] use).  Dictionaries and sets keyed by
    positions are [gmap] and [gset]. *)

From Stdlib Require Import ZArith List Bool Lia Floats Sorted.
From Stdlib Require Uint63.
From stdpp Require Import gmap list sorting.

Open Scope Z_scope.

(** ** Data model *)

Abbreviation Position := (Z * Z)%type.

(** [class CellType(Enum)] *)
Inductive CellType : Set :=
  | EMPTY | OBSTACLE | START | END | PATH | OPEN | CLOSED.

Definition CellType_value (c : CellType) : Z :=
  match c with
  | EMPTY => 0 | OBSTACLE => 1 | START => 2 | END => 3
  | PATH => 4 | OPEN => 5 | CLOSED => 6
  end.

(** [c != CellType.OBSTACLE] on enum members. *)
Definition is_obstacle (c : CellType) : bool :=
  match c with OBSTACLE => true | _ => false end.

(** [@dataclass(order=True) class Node]: only [f_score] takes part in
    comparisons; [parent] is a reference to another node or [None]. *)
#[warnings="-register-all"]
Inductive Node : Type := Build_Node {
  f_score : float;
  position : Position;
  g_score : float;
  h_score : float;
  parent : option Node;
  timestamp : float
}.

(** [Node.__lt__] as generated by [order=True]: the one-element tuples
    [(f_score,)] are compared. *)
Definition Node_lt (a b : Node) : bool :=
  if PrimFloat.eqb (f_score a) (f_score b) then false
  else PrimFloat.ltb (f_score a) (f_score b).

(** [class AlgorithmStats] *)
Record AlgorithmStats : Type := Build_AlgorithmStats {
  nodes_explored : Z;
  nodes_in_open : Z;
  max_open_size : Z;
  path_length : Z;
  path_cost : float;
  execution_time : float;
  iterations : Z
}.

(** [AlgorithmStats.__init__] (and [reset], which calls it). *)
Definition AlgorithmStats_init : AlgorithmStats :=
  {| nodes_explored := 0; nodes_in_open := 0; max_open_size := 0;
     path_length := 0; path_cost := 0%float; execution_time := 0%float;
     iterations := 0 |}.

(** ** Grid *)

Record Grid : Type := Build_Grid {
  width : Z;
  height : Z;
  cells : list (list CellType);
  start : option Position;
  end_ : option Position
}.

(** [Grid.__init__]: [range] of a negative number is empty. *)
Definition Grid_init (w h : Z) : Grid :=
  {| width := w; height := h;
     cells := replicate (Z.to_nat h) (replicate (Z.to_nat w) EMPTY);
     start := None; end_ := None |}.

(** The shape [Grid.__init__] establishes and [set_cell] keeps: [height]
    rows of [width] cells.  On such a grid no guarded index is out of
    range. *)
Definition wf_grid (g : Grid) : Prop :=
  length (cells g) = Z.to_nat (height g) ∧
  Forall (λ row, length row = Z.to_nat (width g)) (cells g).

Definition is_valid (g : Grid) (pos : Position) : bool :=
  let '(x, y) := pos in
  (0 <=? x) && (x <? width g) && (0 <=? y) && (y <? height g).

(** [self.cells[y][x]] for indices already checked by [is_valid].  On a
    grid that is not [wf_grid] the Python lookup raises [IndexError]; that
    case is [None] here. *)
Definition cell_at (g : Grid) (x y : Z) : option CellType :=
  row ← cells g !! Z.to_nat y; row !! Z.to_nat x.

Definition is_walkable (g : Grid) (pos : Position) : bool :=
  if negb (is_valid g pos) then false
  else
    let '(x, y) := pos in
    match cell_at g x y with
    | Some c => negb (is_obstacle c)
    | None => false
    end.

Definition directions : list (Z * Z) :=
  [ (0, -1); (0, 1); (-1, 0); (1, 0);      (* Cardinal *)
    (-1, -1); (-1, 1); (1, -1); (1, 1) ].  (* Diagonal *)

(** One round of the [for dx, dy in directions] loop of [get_neighbors];
    [continue] leaves the accumulator as it is. *)
Definition get_neighbors_step (g : Grid) (x y : Z)
    (neighbors : list Position) (d : Z * Z) : list Position :=
  let '(dx, dy) := d in
  let new_pos := (x + dx, y + dy) in
  if is_walkable g new_pos then
    if negb (dx =? 0) && negb (dy =? 0) then
      if negb (is_walkable g (x + dx, y) || is_walkable g (x, y + dy))
      then neighbors
      else neighbors ++ [new_pos]
    else neighbors ++ [new_pos]
  else neighbors.

Definition get_neighbors (g : Grid) (pos : Position) : list Position :=
  let '(x, y) := pos in
  fold_left (get_neighbors_step g x y) directions [].

Definition set_cell (g : Grid) (pos : Position) (cell_type : CellType) : Grid :=
  if is_valid g pos then
    let '(x, y) := pos in
    {| width := width g; height := height g;
       cells := alter (λ row, <[Z.to_nat x := cell_type]> row)
                      (Z.to_nat y) (cells g);
       start := start g; end_ := end_ g |}
  else g.

Definition get_cell (g : Grid) (pos : Position) : CellType :=
  if is_valid g pos then
    let '(x, y) := pos in
    match cell_at g x y with Some c => c | None => OBSTACLE end
  else OBSTACLE.

(** ** Cost model *)

(** Conversion of a Python [int] to [float], as [math.sqrt] does to its
    argument: round to nearest, ties to even.  (Python raises
    [OverflowError] from 2^1024 on, where this gives infinity; coordinates
    of a grid held in memory stay far below.) *)
Definition float_of_int (n : Z) : float :=
  SF2Prim (binary_normalize prec emax n 0 false).

Definition heuristic (pos1 pos2 : Position) : float :=
  let '(x1, y1) := pos1 in
  let '(x2, y2) := pos2 in
  PrimFloat.sqrt (float_of_int ((x2 - x1) ^ 2 + (y2 - y1) ^ 2)).

Definition get_movement_cost (pos1 pos2 : Position) : float :=
  let '(x1, y1) := pos1 in
  let '(x2, y2) := pos2 in
  if Z.abs (x2 - x1) + Z.abs (y2 - y1) =? 2
  then PrimFloat.sqrt (float_of_int 2)
  else 1%float.

(** ** Search state *)

(** Heap items are the tuples [(f_score, counter, node)]. *)
Abbreviation Entry := (float * Z * Node)%type.

(** [a < b] on those tuples, as [heapq] evaluates it: the first component
    on which the two differ decides. *)
Definition Entry_lt (a b : Entry) : bool :=
  let '(f1, c1, n1) := a in
  let '(f2, c2, n2) := b in
  if negb (PrimFloat.eqb f1 f2) then PrimFloat.ltb f1 f2
  else if negb (c1 =? c2) then c1 <? c2
  else Node_lt n1 n2.

(** [heapq] is used through its contract only: [heappush] adds an item and
    [heappop] removes and returns the smallest one.  The queue is kept as
    the list of its items in insertion order. *)
Definition heappush (heap : list Entry) (item : Entry) : list Entry :=
  heap ++ [item].

Fixpoint heappop (heap : list Entry) : option (Entry * list Entry) :=
  match heap with
  | [] => None
  | x :: heap' =>
      match heappop heap' with
      | None => Some (x, [])
      | Some (m, rest) =>
          if Entry_lt m x then Some (m, x :: rest) else Some (x, heap')
      end
  end.

(** The values handed to the observer. *)
Inductive PyArg : Type :=
  | ASet (s : gset Position)
  | ADict (m : gmap Position Node)
  | ANone
  | APos (p : Position).

(** An observer is called with the argument list and may update in place
    the three collections it is handed (two sets and a dictionary, passed
    by reference); its result is their content after the call.  What is
    modelled of an observer is what it does to these collections.  The
    nodes in the table are the objects the queue holds, and an observer
    that assigns to the fields of a node is outside this model: the
    observers meant are those that leave the collections and the nodes
    alone ([read_only] below), as [update_visualization] does, which
    copies what it is handed. *)
Definition Observer : Type :=
  list PyArg → gset Position * gset Position * gmap Position Node.

(** An observer that only looks: it leaves the collections, and the nodes
    in them, as they are. *)
Definition read_only (cb : Observer) : Prop :=
  ∀ o c m p, cb [ASet o; ASet c; ANone; ADict m; APos p] = (o, c, m).

Definition well_behaved (cb : option Observer) : Prop :=
  match cb with Some f => read_only f | None => True end.

(** What a run does besides computing, in program order. *)
Inductive Event : Type :=
  | EvPush (item : Entry)          (* heapq.heappush *)
  | EvPop (item : Entry)           (* heapq.heappop *)
  | EvVisit (p : Position)         (* closed_set.add: p is expanded *)
  | EvCall (args : list PyArg)     (* visualize_callback(...) *)
  | EvNeighbors (p : Position).    (* grid.get_neighbors(p) *)

(** The objects [find_path] works on: the caller's grid and statistics
    record, its own locals, the number of clock readings taken so far and
    the events so far. *)
Record State : Type := Build_State {
  st_grid : Grid;
  open_set : list Entry;
  counter : Z;
  g_scores : gmap Position float;
  closed_set : gset Position;
  node_map : gmap Position Node;
  open_positions : gset Position;
  stats : option AlgorithmStats;
  ticks : nat;
  trace : list Event
}.

(** ** Path reconstruction *)

Fixpoint path_to_root (node : Node) : list Position :=
  position node ::
  match parent node with
  | Some p => path_to_root p
  | None => []
  end.

(** [_reconstruct_path]: positions from the node back to the root, then
    [path[::-1]]. *)
Definition _reconstruct_path (node : Node) : list Position :=
  rev (path_to_root node).

(** ** The search loop *)

Inductive Step : Type :=
  | Continue (s : State)
  | Return (path : option (list Position)) (s : State).

(** [if stats: stats.iterations += 1; ...] at the head of the loop body;
    [n] is [len(open_set)] before the pop. *)
Definition stats_iteration (n : Z) (st : AlgorithmStats) : AlgorithmStats :=
  {| nodes_explored := nodes_explored st;
     nodes_in_open := n;
     max_open_size := Z.max (max_open_size st) n;
     path_length := path_length st;
     path_cost := path_cost st;
     execution_time := execution_time st;
     iterations := iterations st + 1 |}.

(** [if stats: stats.nodes_explored += 1] *)
Definition stats_explored (st : AlgorithmStats) : AlgorithmStats :=
  {| nodes_explored := nodes_explored st + 1;
     nodes_in_open := nodes_in_open st;
     max_open_size := max_open_size st;
     path_length := path_length st;
     path_cost := path_cost st;
     execution_time := execution_time st;
     iterations := iterations st |}.

(** The three assignments made when the goal is reached. *)
Definition stats_found (len : Z) (cost elapsed : float)
    (st : AlgorithmStats) : AlgorithmStats :=
  {| nodes_explored := nodes_explored st;
     nodes_in_open := nodes_in_open st;
     max_open_size := max_open_size st;
     path_length := len;
     path_cost := cost;
     execution_time := elapsed;
     iterations := iterations st |}.

(** [stats.execution_time = ...] after the loop. *)
Definition stats_elapsed (elapsed : float)
    (st : AlgorithmStats) : AlgorithmStats :=
  {| nodes_explored := nodes_explored st;
     nodes_in_open := nodes_in_open st;
     max_open_size := max_open_size st;
     path_length := path_length st;
     path_cost := path_cost st;
     execution_time := elapsed;
     iterations := iterations st |}.

Section Search.

(** [clock n] is the value of the [n]-th call of [time.time()] in the
    run, counted from 0. *)
Variable clock : nat → float.
Variable end_pos : Position.
Variable visualize_callback : option Observer.

Definition start_time : float := clock 0%nat.

(** The update made for a neighbour reached by a better path: its best
    g-score is recorded and a new node is pushed. *)
Definition push_neighbor (current : Node) (s : State)
    (neighbor_pos : Position) (tentative_g : float) : State :=
  let h := heuristic neighbor_pos end_pos in
  let f := (tentative_g + h)%float in
  let neighbor_node :=
    Build_Node f neighbor_pos tentative_g h (Some current)
               (clock (ticks s)) in
  let item := (f, counter s, neighbor_node) in
  {| st_grid := st_grid s;
     open_set := heappush (open_set s) item;
     counter := counter s + 1;
     g_scores := <[neighbor_pos := tentative_g]> (g_scores s);
     closed_set := closed_set s;
     node_map := <[neighbor_pos := neighbor_node]> (node_map s);
     open_positions := open_positions s ∪ {[neighbor_pos]};
     stats := stats s;
     ticks := S (ticks s);
     trace := trace s ++ [EvPush item] |}.

(** [neighbor_pos in g_scores and tentative_g >= g_scores[neighbor_pos]] *)
Definition not_better (s : State) (neighbor_pos : Position)
    (tentative_g : float) : bool :=
  match g_scores s !! neighbor_pos with
  | Some g => PrimFloat.leb g tentative_g
  | None => false
  end.

(** Body of [for neighbor_pos in grid.get_neighbors(current.position)]. *)
Definition explore_neighbor (current : Node) (s : State)
    (neighbor_pos : Position) : State :=
  if decide (neighbor_pos ∈ closed_set s) then s
  else
    let movement_cost := get_movement_cost (position current) neighbor_pos in
    let tentative_g := (g_score current + movement_cost)%float in
    if not_better s neighbor_pos tentative_g then s
    else push_neighbor current s neighbor_pos tentative_g.

(** The statements after the loop. *)
Definition no_path_found (s : State) : State :=
  match stats s with
  | Some st =>
      {| st_grid := st_grid s; open_set := open_set s;
         counter := counter s; g_scores := g_scores s;
         closed_set := closed_set s; node_map := node_map s;
         open_positions := open_positions s;
         stats := Some (stats_elapsed (clock (ticks s) - start_time)%float st);
         ticks := S (ticks s); trace := trace s |}
  | None => s
  end.

(** The call of the observer, when there is one: it receives the two
    position sets, [None], the node table and the current position. *)
Definition notify (pos : Position) (s : State) : State :=
  match visualize_callback with
  | Some cb =>
      let args := [ASet (open_positions s); ASet (closed_set s); ANone;
                   ADict (node_map s); APos pos] in
      let '(o, c, m) := cb args in
      {| st_grid := st_grid s; open_set := open_set s;
         counter := counter s; g_scores := g_scores s;
         closed_set := c; node_map := m; open_positions := o;
         stats := stats s; ticks := ticks s;
         trace := trace s ++ [EvCall args] |}
  | None => s
  end.

(** [if current.position == end: ...; return path] *)
Definition goal_reached (current : Node) (s : State) : Step :=
  let path := _reconstruct_path current in
  match stats s with
  | Some st =>
      Return (Some path)
        {| st_grid := st_grid s; open_set := open_set s;
           counter := counter s; g_scores := g_scores s;
           closed_set := closed_set s; node_map := node_map s;
           open_positions := open_positions s;
           stats := Some (stats_found (Z.of_nat (length path))
                            (g_score current)
                            (clock (ticks s) - start_time)%float st);
           ticks := S (ticks s); trace := trace s |}
  | None => Return (Some path) s
  end.

(** The statistics after [if stats: ...] at the head of the loop body. *)
Definition stats_at_pop (s : State) : option AlgorithmStats :=
  stats_iteration (Z.of_nat (length (open_set s))) <$> stats s.

(** The state after a pop whose position was already processed. *)
Definition skip_item (s : State) (item : Entry) (rest : list Entry) : State :=
  {| st_grid := st_grid s; open_set := rest; counter := counter s;
     g_scores := g_scores s; closed_set := closed_set s;
     node_map := node_map s; open_positions := open_positions s;
     stats := stats_at_pop s; ticks := ticks s;
     trace := trace s ++ [EvPop item] |}.

(** The state after a pop whose position is new: it is marked as visited,
    dropped from the open positions and counted. *)
Definition visit_item (s : State) (item : Entry) (rest : list Entry) : State :=
  let current := item.2 in
  {| st_grid := st_grid s; open_set := rest; counter := counter s;
     g_scores := g_scores s;
     closed_set := closed_set s ∪ {[position current]};
     node_map := node_map s;
     open_positions := open_positions s ∖ {[position current]};
     stats := stats_explored <$> stats_at_pop s; ticks := ticks s;
     trace := trace s ++ [EvPop item; EvVisit (position current)] |}.

(** [for neighbor_pos in grid.get_neighbors(current.position): ...] *)
Definition explore_neighbors (current : Node) (s : State) : State :=
  fold_left (explore_neighbor current)
    (get_neighbors (st_grid s) (position current))
    {| st_grid := st_grid s; open_set := open_set s;
       counter := counter s; g_scores := g_scores s;
       closed_set := closed_set s; node_map := node_map s;
       open_positions := open_positions s; stats := stats s;
       ticks := ticks s;
       trace := trace s ++ [EvNeighbors (position current)] |}.

(** From the loop test to the end of the loop body. *)
Definition loop_iteration (s : State) : Step :=
  match heappop (open_set s) with
  | None => Return None (no_path_found s)          (* [while open_set] fails *)
  | Some (item, rest) =>
      let current := item.2 in
      if decide (position current ∈ closed_set s) then
        Continue (skip_item s item rest)
      else
        let s' := notify (position current) (visit_item s item rest) in
        if decide (position current = end_pos) then goal_reached current s'
        else Continue (explore_neighbors current s')
  end.

(** At most [fuel] rounds of the loop. *)
Fixpoint iterate (fuel : nat) (s : State) : Step :=
  match fuel with
  | O => Continue s
  | S fuel' =>
      match loop_iteration s with
      | Continue s' => iterate fuel' s'
      | Return path s' => Return path s'
      end
  end.

(** The state on entering the function, before any local exists: one
    clock reading has been taken for [start_time]. *)
Definition entry_state (grid : Grid) (st : option AlgorithmStats) : State :=
  {| st_grid := grid; open_set := []; counter := 0; g_scores := ∅;
     closed_set := ∅; node_map := ∅; open_positions := ∅;
     stats := st; ticks := 1; trace := [] |}.

(** The state on reaching [while open_set] for the first time. *)
Definition initial_state (grid : Grid) (start_pos : Position)
    (st : option AlgorithmStats) : State :=
  let h_start := heuristic start_pos end_pos in
  let start_node :=
    Build_Node h_start start_pos 0%float h_start None (clock 1%nat) in
  let item := (f_score start_node, 0, start_node) in
  {| st_grid := grid;
     open_set := heappush [] item;
     counter := 0 + 1;
     g_scores := {[ start_pos := 0%float ]};
     closed_set := ∅;
     node_map := {[ start_pos := start_node ]};
     open_positions := {[ start_pos ]};
     stats := st; ticks := 2;
     trace := [EvPush item] |}.

(** [AStar.find_path], run for at most [fuel] rounds of its loop; [None]
    when the rounds did not suffice.  The result pairs the returned value
    with the final state of the objects involved. *)
Definition find_path_fuel (fuel : nat) (grid : Grid) (start_pos : Position)
    (st : option AlgorithmStats)
    : option (option (list Position) * State) :=
  if negb (is_walkable grid start_pos) || negb (is_walkable grid end_pos)
  then Some (None, entry_state grid st)
  else
    match iterate fuel (initial_state grid start_pos st) with
    | Return path s => Some (path, s)
    | Continue _ => None
    end.

End Search.

Definition step_state (r : Step) : State :=
  match r with Continue s => s | Return _ s => s end.

(** The state reached after [n] rounds of the loop, or the final state when
    the call has returned by then. *)
Definition state_after (clock : nat → float) (g : Grid)
    (start_pos end_pos : Position) (cb : option Observer)
    (st : option AlgorithmStats) (n : nat) : State :=
  step_state (iterate clock end_pos cb n
                (initial_state clock end_pos g start_pos st)).

(** [AStar.find_path] with the arguments in the order of the source.  The
    number of rounds allowed is given by the caller. *)
Definition find_path (clock : nat → float) (fuel : nat) (grid : Grid)
    (start_pos end_pos : Position) (visualize_callback : option Observer)
    (st : option AlgorithmStats) : option (option (list Position) * State) :=
  find_path_fuel clock end_pos visualize_callback fuel grid start_pos st.

(** * Notions used to state the properties *)

(** ** The neighbour rule in the words of the specification *)

Definition cardinal_directions : list (Z * Z) :=
  [ (0, -1); (0, 1); (-1, 0); (1, 0) ].

Definition diagonal_directions : list (Z * Z) :=
  [ (-1, -1); (-1, 1); (1, -1); (1, 1) ].

Definition is_diagonal (d : Z * Z) : bool :=
  negb (d.1 =? 0) && negb (d.2 =? 0).

(** A step in direction [d] is offered when the target is walkable and, for
    a diagonal step, at least one of the two orthogonal cells is. *)
Definition step_allowed (g : Grid) (x y : Z) (d : Z * Z) : bool :=
  is_walkable g (x + d.1, y + d.2) &&
  (if is_diagonal d
   then is_walkable g (x + d.1, y) || is_walkable g (x, y + d.2)
   else true).

Definition neighbors_spec (g : Grid) (pos : Position) : list Position :=
  List.map (λ d : Z * Z, (pos.1 + d.1, pos.2 + d.2))
    (List.filter (step_allowed g pos.1 pos.2)
       (cardinal_directions ++ diagonal_directions)).

(** ** Cells and paths of a grid *)

Definition all_positions (g : Grid) : list Position :=
  y ← seqZ 0 (height g); x ← seqZ 0 (width g); [(x, y)].

Definition walkable_cells (g : Grid) : list Position :=
  List.filter (is_walkable g) (all_positions g).

(** The number of walkable cells. *)
Definition walkable_count (g : Grid) : nat := length (walkable_cells g).

(** Every two consecutive positions are a move [get_neighbors] offers. *)
Fixpoint is_path (g : Grid) (path : list Position) : bool :=
  match path with
  | p :: rest =>
      match rest with
      | q :: _ => bool_decide (q ∈ get_neighbors g p) && is_path g rest
      | [] => true
      end
  | [] => true
  end.

Definition connects (g : Grid) (a b : Position) (path : list Position) : Prop :=
  head path = Some a ∧ last path = Some b ∧ is_path g path = true.

(** Rounds of the loop that always suffice (see [search_terminates]). *)
Definition search_fuel (g : Grid) : nat := 8 * walkable_count g + 2.

(** ** Reading a trace *)

Definition calls (tr : list Event) : list (list PyArg) :=
  omap (λ ev, match ev with EvCall args => Some args | _ => None end) tr.

Definition visits (tr : list Event) : list Position :=
  omap (λ ev, match ev with EvVisit p => Some p | _ => None end) tr.

Definition pushes (tr : list Event) : list Entry :=
  omap (λ ev, match ev with EvPush e => Some e | _ => None end) tr.

Definition pops (tr : list Event) : list Entry :=
  omap (λ ev, match ev with EvPop e => Some e | _ => None end) tr.

Definition expansions (tr : list Event) : list Position :=
  omap (λ ev, match ev with EvNeighbors p => Some p | _ => None end) tr.

(** ** Inputs used in the examples *)

(** A statistics record left over from an earlier run that explored five
    nodes. *)
Definition stats_used : AlgorithmStats :=
  {| nodes_explored := 5; nodes_in_open := 0; max_open_size := 3;
     path_length := 2; path_cost := 1%float; execution_time := 0%float;
     iterations := 5 |}.

Definition clock0 (n : nat) : float := 0%float.

(** A clock that advances by one second per reading. *)
Definition clock1 (n : nat) : float := float_of_int (Z.of_nat n).

(** An observer that only looks, and one that marks [p] as visited in the
    set it is handed. *)
Definition observer_idle : Observer :=
  λ args,
    match args with
    | [ASet o; ASet c; ANone; ADict m; APos _] => (o, c, m)
    | _ => (∅, ∅, ∅)
    end.

Definition observer_marking (p : Position) : Observer :=
  λ args,
    match args with
    | [ASet o; ASet c; ANone; ADict m; APos _] => (o, c ∪ {[p]}, m)
    | _ => (∅, ∅, ∅)
    end.

Definition grid_1x1 : Grid := Grid_init 1 1.
Definition grid_2x1 : Grid := Grid_init 2 1.
Definition grid_2x2 : Grid := Grid_init 2 2.
Definition grid_3x3 : Grid := Grid_init 3 3.

(** A 2 by 2 grid whose two cells next to the diagonal from (0,0) to (1,1)
    are obstacles. *)
Definition grid_corner : Grid :=
  set_cell (set_cell (Grid_init 2 2) (1, 0) OBSTACLE) (0, 1) OBSTACLE.

(** A 3 by 1 corridor cut by an obstacle in the middle. *)
Definition grid_cut : Grid := set_cell (Grid_init 3 1) (1, 0) OBSTACLE.

(** ** Invariants of the loop *)

(** A node stands for a real way of getting to its position: the chain of
    its ancestors is a path of the grid from the start. *)
Definition node_ok (g : Grid) (start_pos : Position) (n : Node) : Prop :=
  is_walkable g (position n) = true ∧
  connects g start_pos (position n) (_reconstruct_path n).

Record search_inv (g : Grid) (start_pos : Position) (s : State) : Prop := {
  inv_grid : st_grid s = g;
  inv_open : ∀ item : Entry, item ∈ open_set s → node_ok g start_pos item.2;
  inv_closed : ∀ p, p ∈ closed_set s → is_walkable g p = true
}.

(** A bound on the rounds still to come: every round removes an item, and
    only a round that visits a new cell adds any, eight at most. *)
Definition rounds_left (g : Grid) (s : State) : nat :=
  length (open_set s) + 8 * (walkable_count g - size (closed_set s)).

(** The count of explored nodes follows the visited set. *)
Definition stats_inv (st0 : AlgorithmStats) (s : State) : Prop :=
  ∃ st, stats s = Some st ∧
        nodes_explored st =
        nodes_explored st0 + Z.of_nat (size (closed_set s)).

Definition closed_walkable (g : Grid) (s : State) : Prop :=
  ∀ p, p ∈ closed_set s → is_walkable g p = true.

(** ** Calls of the observer *)

(** The argument list of the call made when [p] is expanded: the open
    positions, the visited positions, [None], the node table and [p]. *)
Definition call_shape (args : list PyArg) (p : Position) : Prop :=
  ∃ o c m, args = [ASet o; ASet c; ANone; ADict m; APos p].

(** The argument list as the specification words it: four arguments. *)
Definition call_shape_spec (args : list PyArg) (p : Position) : Prop :=
  ∃ o c m, args = [ASet o; ASet c; ADict m; APos p].

(** Two states with the same calls and the same visits in their traces. *)
Definition same_calls (s s' : State) : Prop :=
  calls (trace s') = calls (trace s) ∧ visits (trace s') = visits (trace s).

(** ** Runs compared *)

(** A node with its clock readings put to 0, and those of its ancestors. *)
Fixpoint erase_node (n : Node) : Node :=
  Build_Node (f_score n) (position n) (g_score n) (h_score n)
    match parent n with
    | Some p => Some (erase_node p)
    | None => None
    end
    0%float.

Definition erase_entry (item : Entry) : Entry :=
  (item.1.1, item.1.2, erase_node item.2).

(** A statistics record with its elapsed time put to 0. *)
Definition erase_time (st : AlgorithmStats) : AlgorithmStats :=
  stats_elapsed 0%float st.

(** Two statistics records, or two absences, that agree on every field
    other than the elapsed time. *)
Definition stats_agree (a b : option AlgorithmStats) : Prop :=
  erase_time <$> a = erase_time <$> b.

(** Two states that differ at most in clock readings, in the trace and in
    what is kept for the observer alone. *)
Record sim (s s' : State) : Prop := {
  sim_grid : st_grid s = st_grid s';
  sim_open_set : erase_entry <$> open_set s = erase_entry <$> open_set s';
  sim_counter : counter s = counter s';
  sim_g_scores : g_scores s = g_scores s';
  sim_closed_set : closed_set s = closed_set s';
  sim_stats : stats_agree (stats s) (stats s')
}.

Definition sim_step (r r' : Step) : Prop :=
  match r, r' with
  | Continue s, Continue s' => sim s s'
  | Return p s, Return p' s' => p = p' ∧ sim s s'
  | _, _ => False
  end.

(** ** Scores as ordered values *)

(** The binary64 values a score can take: a zero, a positive finite number
    or plus infinity; not a NaN, nothing negative. *)
Definition good (x : spec_float) : Prop :=
  match x with
  | S754_zero _ => True
  | S754_infinity s => s = false
  | S754_nan => False
  | S754_finite s _ _ => s = false
  end.

Definition fgood (x : float) : Prop := good (Prim2SF x).

(** Such values are ordered as the triples (class, exponent, mantissa). *)
Definition float_key (x : spec_float) : Z * Z * Z :=
  match x with
  | S754_zero _ => (0, 0, 0)
  | S754_finite _ m e => (1, e, Zpos m)
  | S754_infinity _ => (2, 0, 0)
  | S754_nan => (3, 0, 0)
  end.

Definition key_lt (a b : Z * Z * Z) : Prop :=
  a.1.1 < b.1.1 ∨
  (a.1.1 = b.1.1 ∧ (a.1.2 < b.1.2 ∨ (a.1.2 = b.1.2 ∧ a.2 < b.2))).



Definition counter_lt (a b : Entry) : Prop := a.1.2 < b.1.2.


(** The frontier holds items that were pushed, in the order of their
    pushes; the counter of an item is the number of pushes before it; all
    scores are ordered values. *)
Record frontier_inv (s : State) : Prop := {
  fr_good : ∀ item : Entry, item ∈ open_set s →
              fgood item.1.1 ∧ fgood (g_score item.2);
  fr_sorted : StronglySorted counter_lt (open_set s);
  fr_index : ∀ (k : nat) (item : Entry),
               pushes (trace s) !! k = Some item → item.1.2 = Z.of_nat k;
  fr_counter : counter s = Z.of_nat (length (pushes (trace s)));
  fr_pushed : ∀ item : Entry, item ∈ open_set s → item ∈ pushes (trace s)
}.

(** * The rest of the module *)

(** [create_maze_pattern]: three vertical walls with a gap every fourth
    row, then two horizontal walls with a gap every fifth column.  The
    ranges are read from the grid at each round of the outer loop. *)
Definition maze_column (g : Grid) (x : Z) : Grid :=
  fold_left
    (λ g y, if negb (y mod 4 =? 0) then set_cell g (x, y) OBSTACLE else g)
    (seqZ 0 (height g)) g.

Definition maze_row (g : Grid) (y : Z) : Grid :=
  fold_left
    (λ g x, if negb (x mod 5 =? 0) then set_cell g (x, y) OBSTACLE else g)
    (seqZ 0 (width g)) g.

Definition create_maze_pattern (g : Grid) : Grid :=
  fold_left maze_row [6; 12] (fold_left maze_column [8; 16; 24] g).

(** The cells [create_maze_pattern] turns into obstacles. *)
Definition maze_wall (pos : Position) : bool :=
  let '(x, y) := pos in
  (bool_decide (x ∈ [8; 16; 24]) && negb (y mod 4 =? 0)) ||
  (bool_decide (y ∈ [6; 12]) && negb (x mod 5 =? 0)).

(** ** Cost of a path *)

(** The sum of the movement costs along a path, added up from the start as
    the search adds them. *)
Fixpoint cost_from (acc : float) (p : Position) (rest : list Position) : float :=
  match rest with
  | [] => acc
  | q :: rest' => cost_from (acc + get_movement_cost p q)%float q rest'
  end.

Definition path_cost_of (path : list Position) : float :=
  match path with
  | [] => 0%float
  | p :: rest => cost_from 0%float p rest
  end.

(** ** More invariants of the loop *)

(** [q] is visited or stands in the frontier. *)
Definition covered (s : State) (q : Position) : Prop :=
  q ∈ closed_set s ∨ ∃ item : Entry, item ∈ open_set s ∧ position item.2 = q.

(** Nothing reachable is lost: the start is covered, every neighbour of a
    visited position is covered, every position with a recorded g-score is
    covered, and the end is not visited yet. *)
Record cover_inv (g : Grid) (start_pos end_pos : Position) (s : State)
    : Prop := {
  cv_start : covered s start_pos;
  cv_end : end_pos ∉ closed_set s;
  cv_closed : ∀ p q, p ∈ closed_set s → q ∈ get_neighbors g p → covered s q;
  cv_scores : ∀ q, is_Some (g_scores s !! q) → covered s q
}.

(** The chain of ancestors of a node goes through visited positions only
    and never twice through the same position; its g-score is the cost of
    that chain. *)
Definition node_simple (C : gset Position) (n : Node) : Prop :=
  NoDup (path_to_root n) ∧ ∀ p, p ∈ tail (path_to_root n) → p ∈ C.

Definition node_cost_ok (n : Node) : Prop :=
  g_score n = path_cost_of (_reconstruct_path n).

Definition chain_inv (s : State) : Prop :=
  ∀ item : Entry, item ∈ open_set s → node_simple (closed_set s) item.2.

Definition cost_inv (s : State) : Prop :=
  ∀ item : Entry, item ∈ open_set s → node_cost_ok item.2.

(** The counters of the statistics record follow the trace, and the visits
    of the trace are the visited set, each position once. *)
Record count_inv (st0 : AlgorithmStats) (s : State) : Prop := {
  ct_stats : ∃ st, stats s = Some st ∧
               iterations st = iterations st0 + Z.of_nat (length (pops (trace s))) ∧
               nodes_explored st
                 = nodes_explored st0 + Z.of_nat (length (visits (trace s)))
}.

Record visit_inv (s : State) : Prop := {
  vi_nodup : NoDup (visits (trace s));
  vi_closed : ∀ p, p ∈ visits (trace s) ↔ p ∈ closed_set s
}.

(** A call of the observer made for [p]: [p] is in the visited set handed
    over and not in the open set handed over. *)
Definition call_consistent (args : list PyArg) : Prop :=
  ∃ o c m p, args = [ASet o; ASet c; ANone; ADict m; APos p] ∧
             p ∈ c ∧ p ∉ o.

(** The node table and the table of best g-scores tell the same: every
    recorded position has one node, at that position, with that g-score, the
    heuristic of that position and an f-score that is their sum (for the
    start node, which has no parent, the f-score is the heuristic and the
    g-score is 0). *)
Definition node_entry_ok (end_pos p : Position) (gs : option float)
    (n : Node) : Prop :=
  position n = p ∧ gs = Some (g_score n) ∧
  h_score n = heuristic p end_pos ∧
  match parent n with
  | Some _ => f_score n = (g_score n + h_score n)%float
  | None => f_score n = h_score n ∧ g_score n = 0%float
  end.

Definition table_inv (end_pos : Position) (s : State) : Prop :=
  ∀ p, match node_map s !! p with
       | Some n => node_entry_ok end_pos p (g_scores s !! p) n
       | None => g_scores s !! p = None
       end.

(** The open positions are the positions of the frontier that are not
    visited yet. *)
Definition open_positions_inv (s : State) : Prop :=
  ∀ p, p ∈ open_positions s ↔
       ((p ∉ closed_set s) ∧
        ∃ item : Entry, item ∈ open_set s ∧ position item.2 = p).

(** One clock reading is taken on entry and one for each node created: the
    node pushed as number [k] carries reading [k + 1]. *)
Record clock_inv (clock : nat → float) (s : State) : Prop := {
  ck_ticks : ticks s = S (length (pushes (trace s)));
  ck_stamp : ∀ (k : nat) (item : Entry),
               pushes (trace s) !! k = Some item →
               timestamp item.2 = clock (S k)
}.

(** * Properties *)

(** ** Grid *)

Lemma wf_grid_init w h : wf_grid (Grid_init w h).
Proof.
  split; simpl.
  - by rewrite length_replicate.
  - apply Forall_replicate. by rewrite length_replicate.
Qed.

Lemma wf_grid_set_cell g pos c : wf_grid g → wf_grid (set_cell g pos c).
Proof.
  intros [Hh Hw]. unfold set_cell. destruct (is_valid g pos); [|done].
  destruct pos as [x y]. split; simpl.
  - by rewrite length_alter.
  - apply Forall_alter; [done|]. intros row _ Hrow. by rewrite length_insert.
Qed.

Lemma is_walkable_valid g p : is_walkable g p = true → is_valid g p = true.
Proof. unfold is_walkable. by destruct (is_valid g p). Qed.

Lemma get_neighbors_step_eq g x y acc d :
  get_neighbors_step g x y acc d =
  acc ++ (if step_allowed g x y d then [(x + d.1, y + d.2)] else []).
Proof.
  destruct d as [dx dy]. unfold get_neighbors_step, step_allowed, is_diagonal.
  simpl. destruct (is_walkable g (x + dx, y + dy)); simpl;
    [|by rewrite app_nil_r].
  destruct (negb (dx =? 0) && negb (dy =? 0)); simpl; [|done].
  destruct (is_walkable g (x + dx, y) || is_walkable g (x, y + dy)); simpl;
    [done|by rewrite app_nil_r].
Qed.

Lemma get_neighbors_fold g x y ds acc :
  fold_left (get_neighbors_step g x y) ds acc =
  acc ++ List.map (λ d : Z * Z, (x + d.1, y + d.2))
           (List.filter (step_allowed g x y) ds).
Proof.
  revert acc. induction ds as [|d ds IH]; intros acc; simpl.
  - by rewrite app_nil_r.
  - rewrite IH, get_neighbors_step_eq.
    destruct (step_allowed g x y d); simpl.
    + by rewrite <- app_assoc.
    + by rewrite app_nil_r.
Qed.

Lemma get_neighbors_eq_spec g pos : get_neighbors g pos = neighbors_spec g pos.
Proof.
  destruct pos as [x y]. unfold get_neighbors, neighbors_spec.
  by rewrite get_neighbors_fold.
Qed.

Lemma elem_of_get_neighbors g x y q :
  q ∈ get_neighbors g (x, y) ↔
  ∃ d, d ∈ directions ∧ step_allowed g x y d = true ∧ q = (x + d.1, y + d.2).
Proof.
  rewrite get_neighbors_eq_spec. unfold neighbors_spec. cbn [fst snd].
  change (cardinal_directions ++ diagonal_directions) with directions.
  rewrite list_elem_of_In, in_map_iff. split.
  - intros (d & <- & Hd). apply filter_In in Hd as [Hd Hs].
    exists d. by rewrite list_elem_of_In.
  - intros (d & Hd & Hs & ->). exists d. split; [done|].
    apply filter_In. by rewrite <- list_elem_of_In.
Qed.

Lemma get_neighbors_walkable g p q :
  q ∈ get_neighbors g p → is_walkable g q = true.
Proof.
  destruct p as [x y]. rewrite elem_of_get_neighbors.
  intros (d & _ & Hs & ->). unfold step_allowed in Hs.
  by apply andb_true_iff in Hs as [? _].
Qed.

Lemma get_neighbors_length g p : (length (get_neighbors g p) ≤ 8)%nat.
Proof.
  rewrite get_neighbors_eq_spec. unfold neighbors_spec.
  rewrite length_map.
  etrans; [apply List.filter_length_le|]. simpl. lia.
Qed.

(** C3.  [get_neighbors] returns the adjacent positions that pass the rule
    of the specification, the four cardinal ones first and the four
    diagonal ones after them, each group in the order of the source; and a
    diagonal target both of whose orthogonal cells are blocked is not
    returned, walkable or not. *)
Theorem get_neighbors_exact (g : Grid) (x y : Z) :
  wf_grid g →
  get_neighbors g (x, y) = neighbors_spec g (x, y) ∧
  ∀ dx dy, dx ≠ 0 → dy ≠ 0 →
    is_walkable g (x + dx, y) = false →
    is_walkable g (x, y + dy) = false →
    (x + dx, y + dy) ∉ get_neighbors g (x, y).
Proof.
  intros _. split; [apply get_neighbors_eq_spec|].
  intros dx dy Hdx Hdy Hx Hy. rewrite elem_of_get_neighbors.
  intros ([dx' dy'] & _ & Hs & Heq). simpl in *.
  assert (dx' = dx) as -> by (injection Heq; lia).
  assert (dy' = dy) as -> by (injection Heq; lia).
  unfold step_allowed, is_diagonal in Hs. simpl in Hs.
  rewrite Hx, Hy in Hs.
  apply Z.eqb_neq in Hdx, Hdy. rewrite Hdx, Hdy in Hs. simpl in Hs.
  by rewrite andb_false_r in Hs.
Qed.

Lemma get_neighbors_exact_witness :
  wf_grid grid_corner ∧
  get_neighbors grid_corner (0, 0) = [] ∧
  is_walkable grid_corner (1, 1) = true.
Proof.
  split; [repeat apply wf_grid_set_cell; apply wf_grid_init|].
  destruct (get_neighbors_exact grid_corner 0 0) as [Heq Hcut].
  { repeat apply wf_grid_set_cell; apply wf_grid_init. }
  split; [rewrite Heq; reflexivity | reflexivity].
Defined.

(** ** The loop, one round at a time *)

Lemma heappop_nil heap : heappop heap = None ↔ heap = [].
Proof.
  destruct heap as [|x heap]; simpl; [done|].
  split; [|done]. destruct (heappop heap) as [[m rest]|]; [|done].
  by destruct (Entry_lt m x).
Qed.

(** [heappop] returns one of the items and leaves the others, in their
    order. *)
Lemma heappop_perm heap item rest :
  heappop heap = Some (item, rest) → heap ≡ₚ item :: rest.
Proof.
  revert item rest. induction heap as [|x heap IH]; intros item rest; [done|].
  simpl. destruct (heappop heap) as [[m r]|] eqn:Hpop.
  - destruct (Entry_lt m x); intros [= <- <-]; [|done].
    rewrite (IH m r eq_refl). apply perm_swap.
  - apply heappop_nil in Hpop as ->. by intros [= <- <-].
Qed.

Lemma heappop_length heap item rest :
  heappop heap = Some (item, rest) → length heap = S (length rest).
Proof. intros H. by rewrite (heappop_perm _ _ _ H). Qed.

Lemma heappop_elem_of heap item rest :
  heappop heap = Some (item, rest) → item ∈ heap ∧ rest ⊆ heap.
Proof.
  intros H. pose proof (heappop_perm _ _ _ H) as Hp. split.
  - rewrite Hp. by left.
  - intros e He. rewrite Hp. by right.
Qed.

Section Rounds.

Context (clock : nat → float) (end_pos : Position)
        (cb : option Observer).

Local Abbreviation explore_neighbor := (explore_neighbor clock end_pos).
Local Abbreviation notify := (notify cb).
Local Abbreviation goal_reached := (goal_reached clock).
Local Abbreviation no_path_found := (no_path_found clock).
Local Abbreviation loop_iteration := (loop_iteration clock end_pos cb).
Local Abbreviation iterate := (iterate clock end_pos cb).

(** A property kept by every round holds as long as the loop runs. *)
Lemma iterate_continue (P : State → Prop) :
  (∀ s s', P s → loop_iteration s = Continue s' → P s') →
  ∀ fuel s s', P s → iterate fuel s = Continue s' → P s'.
Proof.
  intros Hstep. induction fuel as [|fuel IH]; intros s s' HP; simpl.
  - by intros [= <-].
  - destruct (loop_iteration s) as [s1|p s1] eqn:Hround; [|done].
    apply IH. by eapply Hstep.
Qed.

(** What holds on every return from a round holds on return from the
    loop. *)
Lemma iterate_return (P : State → Prop)
    (Q : option (list Position) → State → Prop) :
  (∀ s s', P s → loop_iteration s = Continue s' → P s') →
  (∀ s p s', P s → loop_iteration s = Return p s' → Q p s') →
  ∀ fuel s p s', P s → iterate fuel s = Return p s' → Q p s'.
Proof.
  intros Hstep Hret. induction fuel as [|fuel IH]; intros s p s' HP; simpl.
  - done.
  - destruct (loop_iteration s) as [s1|p1 s1] eqn:Hround.
    + apply IH. by eapply Hstep.
    + intros [= <- <-]. by eapply Hret.
Qed.

(** The loop splits at any round. *)
Lemma iterate_add n m s :
  iterate (n + m) s =
  match iterate n s with
  | Continue s' => iterate m s'
  | Return p s' => Return p s'
  end.
Proof.
  revert s. induction n as [|n IH]; intros s; simpl; [done|].
  destruct (loop_iteration s); [apply IH|done].
Qed.

(** *** The grid is only read *)

Lemma explore_neighbor_grid current s q :
  st_grid (explore_neighbor current s q) = st_grid s.
Proof.
  unfold explore_neighbor. destruct (decide _); [done|].
  by destruct (not_better _ _ _).
Qed.

Lemma explore_neighbor_fold_grid current l s :
  st_grid (fold_left (explore_neighbor current) l s) = st_grid s.
Proof.
  revert s. induction l as [|q l IH]; intros s; simpl; [done|].
  by rewrite IH, explore_neighbor_grid.
Qed.

Lemma notify_grid p s : st_grid (notify p s) = st_grid s.
Proof. unfold notify. destruct cb; [|done]. by destruct (o _) as [[??]?]. Qed.

Lemma goal_reached_grid current s :
  st_grid (step_state (goal_reached current s)) = st_grid s.
Proof. unfold goal_reached. by destruct (stats s). Qed.

Lemma no_path_found_grid s : st_grid (no_path_found s) = st_grid s.
Proof. unfold no_path_found. by destruct (stats s). Qed.

Lemma loop_iteration_grid s :
  st_grid (step_state (loop_iteration s)) = st_grid s.
Proof.
  unfold loop_iteration.
  destruct (heappop (open_set s)) as [[item rest]|]; simpl.
  - destruct (decide (_ ∈ _)); [done|].
    destruct (decide (_ = _)).
    + by rewrite goal_reached_grid, notify_grid.
    + simpl. unfold explore_neighbors.
      by rewrite explore_neighbor_fold_grid, notify_grid.
  - apply no_path_found_grid.
Qed.

Lemma iterate_grid fuel s :
  st_grid (step_state (iterate fuel s)) = st_grid s.
Proof.
  revert s. induction fuel as [|fuel IH]; intros s; simpl; [done|].
  pose proof (loop_iteration_grid s) as Hg.
  destruct (loop_iteration s) as [s1|p s1]; simpl in *; [|done].
  by rewrite IH.
Qed.

End Rounds.

(** C10.  The grid a run ends with, and the grid at every round on the way,
    is the grid the call was given: same width and height, same cells, same
    start and end designations, whether a path or nothing is returned. *)
Theorem find_path_grid_unchanged (clock : nat → float) (fuel : nat)
    (g : Grid) (start_pos end_pos : Position) (cb : option Observer)
    (st : option AlgorithmStats) (r : option (list Position)) (s : State) :
  wf_grid g →
  find_path clock fuel g start_pos end_pos cb st = Some (r, s) →
  st_grid s = g ∧
  ∀ n, st_grid (step_state
         (iterate clock end_pos cb n (initial_state clock end_pos g start_pos st)))
       = g.
Proof.
  intros _ Hrun. split.
  - unfold find_path, find_path_fuel in Hrun.
    destruct (negb _ || negb _).
    + by injection Hrun as <- <-.
    + pose proof (iterate_grid clock end_pos cb fuel
                    (initial_state clock end_pos g start_pos st)) as Hg.
      destruct (iterate _ _ _ _ _) as [s1|p s1]; [done|].
      injection Hrun as <- <-. exact Hg.
  - intros n. by rewrite iterate_grid.
Qed.

Lemma find_path_grid_unchanged_witness :
  ∃ r s,
    find_path clock0 10 grid_cut (0, 0) (2, 0)
      (Some observer_idle) (Some AlgorithmStats_init) = Some (r, s) ∧
    st_grid s = grid_cut.
Proof.
  eexists _, _. split; [vm_compute; reflexivity|].
  eapply (find_path_grid_unchanged clock0 10 grid_cut (0, 0) (2, 0)
            (Some observer_idle) (Some AlgorithmStats_init)).
  - repeat apply wf_grid_set_cell; apply wf_grid_init.
  - vm_compute; reflexivity.
Defined.

(** ** Calls that do not search *)

(** C6.  When the start or the end is not walkable (out of bounds
    included), the call returns [None] at once, whatever the number of
    rounds allowed: nothing was pushed to or popped from the frontier, no
    position was visited, the observer was not called, and the statistics
    record is exactly as supplied. *)
Theorem find_path_not_walkable (clock : nat → float) (fuel : nat)
    (g : Grid) (start_pos end_pos : Position) (cb : option Observer)
    (st : option AlgorithmStats) :
  wf_grid g →
  is_walkable g start_pos = false ∨ is_walkable g end_pos = false →
  ∃ s, find_path clock fuel g start_pos end_pos cb st = Some (None, s) ∧
       stats s = st ∧ trace s = [] ∧ open_set s = [] ∧ closed_set s = ∅.
Proof.
  intros _ Hw. exists (entry_state g st).
  unfold find_path, find_path_fuel.
  destruct Hw as [-> | ->]; simpl; by rewrite ?orb_true_r.
Qed.

Lemma find_path_not_walkable_witness :
  ∃ s, find_path clock1 0 grid_cut (1, 0) (7, 7) (Some observer_idle)
         (Some AlgorithmStats_init) = Some (None, s) ∧
       stats s = Some AlgorithmStats_init ∧ trace s = [] ∧
       open_set s = [] ∧ closed_set s = ∅.
Proof.
  apply (find_path_not_walkable clock1 0 grid_cut (1, 0) (7, 7)).
  - repeat apply wf_grid_set_cell; apply wf_grid_init.
  - left. reflexivity.
Defined.

(** C5.  With the end equal to a walkable start [p], the first round
    returns the one-element path [[p]]: the only item ever pushed is the
    start node, [get_neighbors] is never called, and a supplied statistics
    record gets path cost 0 (the g-score of the start node), path length 1
    and one more explored node. *)
Theorem find_path_start_is_end (clock : nat → float) (fuel : nat)
    (g : Grid) (p : Position) (cb : option Observer)
    (st : option AlgorithmStats) :
  wf_grid g →
  is_walkable g p = true →
  ∃ s, find_path clock (S fuel) g p p cb st = Some (Some [p], s) ∧
       expansions (trace s) = [] ∧
       length (pushes (trace s)) = 1%nat ∧
       visits (trace s) = [p] ∧
       match st with
       | Some st0 =>
           ∃ st1, stats s = Some st1 ∧
                  path_cost st1 = 0%float ∧ path_length st1 = 1 ∧
                  nodes_explored st1 = nodes_explored st0 + 1
       | None => stats s = None
       end.
Proof.
  intros _ Hw. unfold find_path, find_path_fuel. rewrite Hw. simpl.
  unfold loop_iteration. simpl.
  destruct (decide (p ∈ (∅ : gset Position))) as [Hin|_]; [set_solver|].
  unfold notify; simpl.
  destruct cb as [f|]; simpl.
  - destruct (f _) as [[o c] m]; simpl.
    destruct (decide (p = p)); [|done].
    unfold goal_reached; simpl. destruct st as [st0|]; simpl.
    + eexists. split; [reflexivity|]. simpl. repeat split. eauto.
    + eexists. split; [reflexivity|]. by simpl.
  - destruct (decide (p = p)); [|done].
    unfold goal_reached; simpl. destruct st as [st0|]; simpl.
    + eexists. split; [reflexivity|]. simpl. repeat split. eauto.
    + eexists. split; [reflexivity|]. by simpl.
Qed.

Lemma find_path_start_is_end_witness :
  ∃ s, find_path clock1 1 grid_3x3 (1, 1) (1, 1) (Some observer_idle)
         (Some AlgorithmStats_init) = Some (Some [(1, 1)], s) ∧
       expansions (trace s) = [] ∧
       length (pushes (trace s)) = 1%nat ∧
       visits (trace s) = [(1, 1)] ∧
       ∃ st1, stats s = Some st1 ∧
              path_cost st1 = 0%float ∧ path_length st1 = 1 ∧
              nodes_explored st1 = nodes_explored AlgorithmStats_init + 1.
Proof.
  apply (find_path_start_is_end clock1 0 grid_3x3 (1, 1)
           (Some observer_idle) (Some AlgorithmStats_init)).
  - apply wf_grid_init.
  - reflexivity.
Defined.

(** ** Paths *)

Lemma is_path_snoc g path q :
  is_path g (path ++ [q]) =
  is_path g path &&
  match last path with
  | Some b => bool_decide (q ∈ get_neighbors g b)
  | None => true
  end.
Proof.
  induction path as [|p [|p' path] IH].
  - done.
  - simpl. by rewrite andb_true_r.
  - change (is_path g ((p :: p' :: path) ++ [q]))
      with (bool_decide (p' ∈ get_neighbors g p) &&
            is_path g ((p' :: path) ++ [q])).
    rewrite IH. change (is_path g (p :: p' :: path))
      with (bool_decide (p' ∈ get_neighbors g p) && is_path g (p' :: path)).
    change (last (p :: p' :: path)) with (last (p' :: path)).
    by rewrite andb_assoc.
Qed.

Lemma connects_refl g a : connects g a a [a].
Proof. done. Qed.

Lemma connects_snoc g a b q path :
  connects g a b path → q ∈ get_neighbors g b →
  connects g a q (path ++ [q]).
Proof.
  intros (Hh & Hl & Hp) Hq. repeat split.
  - destruct path; [done|]. done.
  - apply last_snoc.
  - rewrite is_path_snoc, Hp, Hl. simpl. by apply bool_decide_eq_true.
Qed.

Lemma reconstruct_child f q gq h current ts :
  _reconstruct_path (Build_Node f q gq h (Some current) ts) =
  _reconstruct_path current ++ [q].
Proof. unfold _reconstruct_path. simpl. done. Qed.

(** ** Counting cells *)

Lemma size_list_to_set_le (l : list Position) :
  (size (list_to_set l : gset Position) ≤ length l)%nat.
Proof.
  induction l as [|x l IH].
  - rewrite list_to_set_nil, size_empty. simpl. lia.
  - rewrite list_to_set_cons, size_union_alt, size_singleton. simpl.
    pose proof (subseteq_size ((list_to_set l : gset Position) ∖ {[x]})
                  (list_to_set l) (subseteq_difference_l _ _ _ (reflexivity _))).
    lia.
Qed.

Lemma elem_of_all_positions g p : is_valid g p = true → p ∈ all_positions g.
Proof.
  destruct p as [x y]. unfold is_valid, all_positions. intros H.
  apply andb_true_iff in H as [H Hy2]. apply andb_true_iff in H as [H Hy1].
  apply andb_true_iff in H as [Hx1 Hx2].
  apply list_elem_of_bind. exists y. split.
  - apply list_elem_of_bind. exists x. split; [by left|].
    apply elem_of_seqZ. lia.
  - apply elem_of_seqZ. lia.
Qed.

Lemma elem_of_walkable_cells g p :
  is_walkable g p = true → p ∈ walkable_cells g.
Proof.
  intros H. unfold walkable_cells. apply list_elem_of_In, filter_In.
  split; [|done]. apply list_elem_of_In, elem_of_all_positions.
  by apply is_walkable_valid.
Qed.

(** A set of walkable positions has at most [walkable_count] members. *)
Lemma size_walkable (g : Grid) (C : gset Position) :
  (∀ p, p ∈ C → is_walkable g p = true) → (size C ≤ walkable_count g)%nat.
Proof.
  intros H. unfold walkable_count.
  etrans; [|apply size_list_to_set_le].
  apply subseteq_size. intros p Hp. apply elem_of_list_to_set.
  by apply elem_of_walkable_cells, H.
Qed.

(** ** What a round keeps *)

Section Invariants.

Context (clock : nat → float) (end_pos : Position)
        (cb : option Observer) (g : Grid) (start_pos : Position).

Local Abbreviation explore_neighbor := (explore_neighbor clock end_pos).
Local Abbreviation explore_neighbors := (explore_neighbors clock end_pos).
Local Abbreviation notify := (notify cb).
Local Abbreviation goal_reached := (goal_reached clock).
Local Abbreviation no_path_found := (no_path_found clock).
Local Abbreviation loop_iteration := (loop_iteration clock end_pos cb).
Local Abbreviation iterate := (iterate clock end_pos cb).
Local Abbreviation node_ok := (node_ok g start_pos).
Local Abbreviation search_inv := (search_inv g start_pos).

(** *** The observer *)

Lemma notify_open_set p s : open_set (notify p s) = open_set s.
Proof. unfold notify. destruct cb; [|done]. by destruct (o _) as [[??]?]. Qed.

Lemma notify_stats p s : stats (notify p s) = stats s.
Proof. unfold notify. destruct cb; [|done]. by destruct (o _) as [[??]?]. Qed.

Lemma notify_g_scores p s : g_scores (notify p s) = g_scores s.
Proof. unfold notify. destruct cb; [|done]. by destruct (o _) as [[??]?]. Qed.

Lemma notify_counter p s : counter (notify p s) = counter s.
Proof. unfold notify. destruct cb; [|done]. by destruct (o _) as [[??]?]. Qed.

Lemma notify_closed_set p s :
  well_behaved cb → closed_set (notify p s) = closed_set s.
Proof.
  unfold notify, well_behaved. destruct cb as [f|]; [|done].
  intros Hf. by rewrite Hf.
Qed.

(** *** The neighbour loop *)

Lemma explore_neighbor_closed_set current s q :
  closed_set (explore_neighbor current s q) = closed_set s.
Proof.
  unfold explore_neighbor. destruct (decide _); [done|].
  by destruct (not_better _ _ _).
Qed.

Lemma explore_neighbor_stats current s q :
  stats (explore_neighbor current s q) = stats s.
Proof.
  unfold explore_neighbor. destruct (decide _); [done|].
  by destruct (not_better _ _ _).
Qed.

Lemma explore_neighbor_length current s q :
  (length (open_set (explore_neighbor current s q))
   ≤ S (length (open_set s)))%nat.
Proof.
  unfold explore_neighbor. destruct (decide _); [lia|].
  destruct (not_better _ _ _); simpl; [lia|].
  unfold heappush. rewrite length_app. simpl. lia.
Qed.

Lemma explore_neighbor_node_ok current s q :
  node_ok current → q ∈ get_neighbors g (position current) →
  (∀ item : Entry, item ∈ open_set s → node_ok item.2) →
  ∀ item : Entry, item ∈ open_set (explore_neighbor current s q) →
                  node_ok item.2.
Proof.
  intros [Hw Hc] Hq Hs item. unfold explore_neighbor.
  destruct (decide _); [apply Hs|].
  destruct (not_better _ _ _); [apply Hs|]. simpl. unfold heappush.
  rewrite elem_of_app, list_elem_of_singleton. intros [Hi | ->]; [by apply Hs|].
  split; simpl.
  - by eapply get_neighbors_walkable.
  - rewrite reconstruct_child. by eapply connects_snoc.
Qed.

Lemma explore_fold_closed_set current l s :
  closed_set (fold_left (explore_neighbor current) l s) = closed_set s.
Proof.
  revert s. induction l as [|q l IH]; intros s; simpl; [done|].
  by rewrite IH, explore_neighbor_closed_set.
Qed.

Lemma explore_fold_stats current l s :
  stats (fold_left (explore_neighbor current) l s) = stats s.
Proof.
  revert s. induction l as [|q l IH]; intros s; simpl; [done|].
  by rewrite IH, explore_neighbor_stats.
Qed.

Lemma explore_fold_length current l s :
  (length (open_set (fold_left (explore_neighbor current) l s))
   ≤ length l + length (open_set s))%nat.
Proof.
  revert s. induction l as [|q l IH]; intros s; simpl; [lia|].
  etrans; [apply IH|]. pose proof (explore_neighbor_length current s q). lia.
Qed.

Lemma explore_fold_node_ok current l s :
  node_ok current → l ⊆ get_neighbors g (position current) →
  (∀ item : Entry, item ∈ open_set s → node_ok item.2) →
  ∀ item : Entry,
    item ∈ open_set (fold_left (explore_neighbor current) l s) →
    node_ok item.2.
Proof.
  intros Hcur. revert s. induction l as [|q l IH]; intros s Hl Hs; simpl;
    [done|].
  apply IH; [set_solver|].
  apply explore_neighbor_node_ok; [done| |done]. apply Hl. by left.
Qed.

Lemma explore_neighbors_grid current s :
  st_grid (explore_neighbors current s) = st_grid s.
Proof. unfold explore_neighbors. by rewrite explore_neighbor_fold_grid. Qed.

Lemma explore_neighbors_closed_set current s :
  closed_set (explore_neighbors current s) = closed_set s.
Proof. unfold explore_neighbors. by rewrite explore_fold_closed_set. Qed.

Lemma explore_neighbors_stats current s :
  stats (explore_neighbors current s) = stats s.
Proof. unfold explore_neighbors. by rewrite explore_fold_stats. Qed.

Lemma explore_neighbors_length current s :
  (length (open_set (explore_neighbors current s))
   ≤ 8 + length (open_set s))%nat.
Proof.
  unfold explore_neighbors. etrans; [apply explore_fold_length|]. simpl.
  pose proof (get_neighbors_length (st_grid s) (position current)). lia.
Qed.

Lemma explore_neighbors_node_ok current s :
  st_grid s = g → node_ok current →
  (∀ item : Entry, item ∈ open_set s → node_ok item.2) →
  ∀ item : Entry, item ∈ open_set (explore_neighbors current s) →
                  node_ok item.2.
Proof.
  intros Hg Hcur Hs. unfold explore_neighbors.
  apply explore_fold_node_ok; [done| |done]. by rewrite Hg.
Qed.

(** *** One round *)

Lemma initial_state_inv st :
  is_walkable g start_pos = true →
  search_inv (initial_state clock end_pos g start_pos st).
Proof.
  intros Hw. split; simpl.
  - done.
  - intros item. unfold heappush. simpl.
    rewrite list_elem_of_singleton. intros ->. split; [done|]. simpl.
    apply connects_refl.
  - intros p. set_solver.
Qed.

Hypothesis Hcb : well_behaved cb.

Lemma loop_iteration_inv s s' :
  search_inv s → loop_iteration s = Continue s' →
  search_inv s' ∧ (rounds_left g s' < rounds_left g s)%nat.
Proof.
  intros [Hg Ho Hc]. unfold loop_iteration.
  destruct (heappop (open_set s)) as [[item rest]|] eqn:Hpop; [|done].
  pose proof (heappop_elem_of _ _ _ Hpop) as [Hitem Hrest].
  pose proof (heappop_length _ _ _ Hpop) as Hlen.
  pose proof (Ho item Hitem) as Hcur.
  destruct (decide (_ ∈ _)) as [Hin|Hin].
  - intros [= <-]. split.
    + split; simpl; [done| |done]. intros i Hi. apply Ho. by apply Hrest.
    + unfold rounds_left. simpl. lia.
  - destruct (decide (_ = _)) as [Heq|Hne].
    + unfold goal_reached. by destruct (stats _).
    + intros [= <-].
      assert (Hc' : ∀ p, p ∈ closed_set s ∪ {[position item.2]} →
                         is_walkable g p = true).
      { intros p [Hp | ->%elem_of_singleton]%elem_of_union; [by apply Hc|].
        apply Hcur. }
      split.
      * split.
        -- by rewrite explore_neighbors_grid, notify_grid.
        -- apply explore_neighbors_node_ok; [|done|].
           ++ by rewrite notify_grid.
           ++ rewrite notify_open_set. simpl.
              intros i Hi. apply Ho. by apply Hrest.
        -- rewrite explore_neighbors_closed_set, notify_closed_set by done.
           done.
      * unfold rounds_left.
        rewrite explore_neighbors_closed_set, notify_closed_set by done.
        pose proof (explore_neighbors_length item.2
          (notify (position item.2) (visit_item s item rest))) as Hl.
        rewrite notify_open_set in Hl. simpl in Hl. simpl closed_set.
        pose proof (size_walkable g _ Hc') as Hsz.
        rewrite size_union in Hsz by set_solver.
        rewrite size_union by set_solver.
        rewrite size_singleton in *. lia.
Qed.

(** The loop returns before [rounds_left] rounds are over. *)
Lemma iterate_returns fuel s :
  search_inv s → (rounds_left g s < fuel)%nat →
  ∃ p s', iterate fuel s = Return p s'.
Proof.
  revert s. induction fuel as [|fuel IH]; intros s Hinv Hfuel; [lia|].
  simpl. destruct (loop_iteration s) as [s1|p s1] eqn:Hround; [|by eauto].
  apply loop_iteration_inv in Hround as [Hinv1 Hlt]; [|done].
  apply IH; [done|lia].
Qed.

Lemma iterate_inv fuel s s' :
  search_inv s → iterate fuel s = Continue s' → search_inv s'.
Proof.
  apply (iterate_continue clock end_pos cb search_inv).
  intros s1 s2 H1 H2. by apply (loop_iteration_inv s1 s2).
Qed.

(** A returned path is the chain of ancestors of an item of the
    frontier whose position is the end. *)
Lemma loop_iteration_found s path s' :
  loop_iteration s = Return (Some path) s' →
  ∃ item : Entry, item ∈ open_set s ∧ position item.2 = end_pos ∧
                  path = _reconstruct_path item.2.
Proof.
  unfold loop_iteration.
  destruct (heappop (open_set s)) as [[item rest]|] eqn:Hpop.
  - pose proof (heappop_elem_of _ _ _ Hpop) as [Hitem _].
    destruct (decide (_ ∈ _)); [done|].
    destruct (decide (_ = _)) as [Heq|]; [|done].
    unfold goal_reached. destruct (stats _); intros [= <- <-]; eauto.
  - done.
Qed.

Lemma iterate_found fuel s path s' :
  search_inv s → iterate fuel s = Return (Some path) s' →
  connects g start_pos end_pos path.
Proof.
  intros Hinv Hrun.
  apply (iterate_return clock end_pos cb search_inv
           (λ p _, ∀ path, p = Some path → connects g start_pos end_pos path))
    with (fuel := fuel) (s := s) (p := Some path) (s' := s'); try done.
  - intros s1 s2 H1 H2. by apply (loop_iteration_inv s1 s2).
  - intros s1 p s2 [_ Ho _] Hr path' ->.
    apply loop_iteration_found in Hr as (item & Hitem & <- & ->).
    by apply Ho.
Qed.

End Invariants.

Lemma rounds_left_initial clock end_pos g start_pos st :
  (rounds_left g (initial_state clock end_pos g start_pos st)
   < search_fuel g)%nat.
Proof.
  unfold rounds_left, search_fuel, initial_state. cbn [closed_set open_set].
  rewrite size_empty. simpl. lia.
Qed.

(** Enough rounds always end the search, when the observer only looks. *)
Lemma search_terminates clock fuel g start_pos end_pos cb st :
  well_behaved cb → (search_fuel g ≤ fuel)%nat →
  ∃ r s, find_path clock fuel g start_pos end_pos cb st = Some (r, s).
Proof.
  intros Hcb Hfuel. unfold find_path, find_path_fuel.
  destruct (is_walkable g start_pos) eqn:Hs; simpl; [|by eauto].
  destruct (is_walkable g end_pos) eqn:He; simpl; [|by eauto].
  destruct (iterate_returns clock end_pos cb g start_pos Hcb fuel
              (initial_state clock end_pos g start_pos st)) as (p & s' & ->).
  - by apply initial_state_inv.
  - pose proof (rounds_left_initial clock end_pos g start_pos st). lia.
  - eauto.
Qed.

(** A path that is returned is a path of the grid from the start to the
    end. *)
Lemma find_path_sound clock fuel g start_pos end_pos cb st path s :
  well_behaved cb →
  find_path clock fuel g start_pos end_pos cb st = Some (Some path, s) →
  connects g start_pos end_pos path.
Proof.
  intros Hcb. unfold find_path, find_path_fuel.
  destruct (is_walkable g start_pos) eqn:Hs; simpl; [|done].
  destruct (is_walkable g end_pos) eqn:He; simpl; [|done].
  destruct (iterate _ _ _ _ _) as [s1|p s1] eqn:Hrun; [done|].
  intros [= -> ->].
  eapply iterate_found; [done| |done]. by apply initial_state_inv.
Qed.

(** ** Unreachable goals *)

(** C2.  When the start and the end are walkable and no path of the grid
    leads from one to the other, the loop stops within [search_fuel g]
    rounds and the call returns [None]. *)
Theorem find_path_unreachable (clock : nat → float) (fuel : nat)
    (g : Grid) (start_pos end_pos : Position) (cb : option Observer)
    (st : option AlgorithmStats) :
  wf_grid g → well_behaved cb →
  is_walkable g start_pos = true → is_walkable g end_pos = true →
  (∀ path, ¬ connects g start_pos end_pos path) →
  (search_fuel g ≤ fuel)%nat →
  ∃ s, find_path clock fuel g start_pos end_pos cb st = Some (None, s).
Proof.
  intros _ Hcb Hs He Hno Hfuel.
  destruct (search_terminates clock fuel g start_pos end_pos cb st Hcb Hfuel)
    as (r & s & Hrun).
  destruct r as [path|]; [|by eauto].
  exfalso. apply (Hno path). by eapply find_path_sound.
Qed.

Lemma observer_idle_read_only : read_only observer_idle.
Proof. by intros o c m p. Qed.

Lemma grid_cut_no_path path : ¬ connects grid_cut (0, 0) (2, 0) path.
Proof.
  intros (Hh & Hl & Hp). destruct path as [|p [|q path]]; [done| |].
  - simpl in Hh, Hl. congruence.
  - injection Hh as ->.
    change (is_path grid_cut ((0, 0) :: q :: path))
      with (bool_decide (q ∈ get_neighbors grid_cut (0, 0)) &&
            is_path grid_cut (q :: path)) in Hp.
    apply andb_true_iff in Hp as [Hq _]. apply bool_decide_eq_true in Hq.
    change (get_neighbors grid_cut (0, 0)) with (@nil Position) in Hq.
    by apply elem_of_nil in Hq.
Qed.

Lemma find_path_unreachable_witness :
  ∃ s, find_path clock1 (search_fuel grid_cut) grid_cut (0, 0) (2, 0)
         (Some observer_idle) (Some AlgorithmStats_init) = Some (None, s).
Proof.
  apply (find_path_unreachable clock1 (search_fuel grid_cut) grid_cut
           (0, 0) (2, 0) (Some observer_idle) (Some AlgorithmStats_init)).
  - repeat apply wf_grid_set_cell; apply wf_grid_init.
  - exact observer_idle_read_only.
  - reflexivity.
  - reflexivity.
  - exact grid_cut_no_path.
  - lia.
Defined.

(** ** Statistics *)

Section Statistics.

Context (clock : nat → float) (end_pos : Position)
        (cb : option Observer) (g : Grid) (start_pos : Position)
        (st0 : AlgorithmStats).

Local Abbreviation round := (loop_iteration clock end_pos cb).
Local Abbreviation rounds := (iterate clock end_pos cb).

(** [max_open_size] never goes down in a round, whatever the observer
    does. *)
Lemma loop_iteration_max_open s st :
  stats s = Some st →
  ∃ st', stats (step_state (round s)) = Some st' ∧
         max_open_size st ≤ max_open_size st'.
Proof.
  intros Hst. unfold loop_iteration.
  destruct (heappop (open_set s)) as [[item rest]|].
  - destruct (decide (_ ∈ _)).
    + simpl. unfold stats_at_pop. rewrite Hst. simpl.
      eexists. split; [done|]. simpl. lia.
    + destruct (decide (_ = _)).
      * unfold goal_reached. rewrite notify_stats. simpl.
        unfold stats_at_pop. rewrite Hst. simpl.
        eexists. split; [done|]. simpl. lia.
      * simpl. rewrite explore_neighbors_stats, notify_stats. simpl.
        unfold stats_at_pop. rewrite Hst. simpl.
        eexists. split; [done|]. simpl. lia.
  - simpl. unfold no_path_found. rewrite Hst. simpl.
    eexists. split; [done|]. simpl. lia.
Qed.

Hypothesis Hcb : well_behaved cb.

Lemma loop_iteration_stats s :
  search_inv g start_pos s → stats_inv st0 s →
  stats_inv st0 (step_state (round s)) ∧
  closed_walkable g (step_state (round s)).
Proof.
  intros [Hg Ho Hc] (st & Hst & Hn). unfold loop_iteration.
  destruct (heappop (open_set s)) as [[item rest]|] eqn:Hpop.
  - pose proof (heappop_elem_of _ _ _ Hpop) as [Hitem _].
    destruct (Ho item Hitem) as [Hcur _].
    assert (Hc' : ∀ p, p ∈ closed_set s ∪ {[position item.2]} →
                       is_walkable g p = true).
    { intros p [Hp | ->%elem_of_singleton]%elem_of_union; [by apply Hc|].
      done. }
    destruct (decide (_ ∈ _)) as [Hin|Hin].
    + simpl. split; [|done]. unfold stats_inv. simpl.
      unfold stats_at_pop. rewrite Hst. simpl. eauto.
    + assert (Hsize : Z.of_nat (size (closed_set s ∪ {[position item.2]}))
                      = Z.of_nat (size (closed_set s)) + 1).
      { rewrite size_union, size_singleton by set_solver. lia. }
      destruct (decide (_ = _)).
      * unfold goal_reached. rewrite notify_stats. simpl.
        unfold stats_at_pop. rewrite Hst. simpl.
        unfold stats_inv, closed_walkable. simpl.
        rewrite notify_closed_set by done. simpl. split; [|done].
        eexists. split; [done|]. simpl. lia.
      * simpl. unfold stats_inv, closed_walkable.
        rewrite explore_neighbors_stats, explore_neighbors_closed_set.
        rewrite notify_stats, notify_closed_set by done. simpl.
        unfold stats_at_pop. rewrite Hst. simpl. split; [|done].
        eexists. split; [done|]. simpl. lia.
  - simpl. unfold no_path_found, stats_inv, closed_walkable.
    rewrite Hst. simpl. split; [|done]. eauto.
Qed.

Lemma iterate_stats n s :
  search_inv g start_pos s → stats_inv st0 s →
  stats_inv st0 (step_state (rounds n s)) ∧
  closed_walkable g (step_state (rounds n s)).
Proof.
  revert s. induction n as [|n IH]; intros s Hinv Hst; simpl.
  - split; [done|]. by destruct Hinv.
  - pose proof (loop_iteration_stats s Hinv Hst) as Hround.
    destruct (round s) as [s1|p s1] eqn:Hr; simpl in *; [|done].
    apply IH; [|by destruct Hround].
    by apply (loop_iteration_inv clock end_pos cb g start_pos Hcb s s1).
Qed.

(** With the count at 0 on entry, it never exceeds the number of walkable
    cells. *)
Lemma stats_inv_bound s :
  nodes_explored st0 = 0 → stats_inv st0 s → closed_walkable g s →
  ∃ st, stats s = Some st ∧
        0 ≤ nodes_explored st ≤ Z.of_nat (walkable_count g).
Proof.
  intros H0 (st & Hst & Hn) Hc. exists st. split; [done|].
  pose proof (size_walkable g _ Hc). lia.
Qed.

End Statistics.

Lemma iterate_succ clock end_pos cb n s :
  step_state (iterate clock end_pos cb (S n) s) =
  match iterate clock end_pos cb n s with
  | Continue s' => step_state (loop_iteration clock end_pos cb s')
  | Return _ s' => s'
  end.
Proof.
  replace (S n) with (n + 1)%nat by lia. rewrite iterate_add.
  destruct (iterate clock end_pos cb n s) as [s'|p s']; [|done].
  simpl. by destruct (loop_iteration clock end_pos cb s').
Qed.

(** C9.  In a run that is given a statistics record whose explored-node
    count is 0 (a new or reset record), after every number of rounds the
    count is at most the number of walkable cells of the grid, and
    [max_open_size] is at least what it was one round earlier and at the
    call. *)
Theorem stats_monotonic (clock : nat → float) (g : Grid)
    (start_pos end_pos : Position) (cb : option Observer)
    (st0 : AlgorithmStats) (n : nat) :
  wf_grid g → well_behaved cb →
  is_walkable g start_pos = true → is_walkable g end_pos = true →
  nodes_explored st0 = 0 →
  ∃ st st',
    stats (state_after clock g start_pos end_pos cb (Some st0) n) = Some st ∧
    stats (state_after clock g start_pos end_pos cb (Some st0) (S n))
      = Some st' ∧
    0 ≤ nodes_explored st ≤ Z.of_nat (walkable_count g) ∧
    max_open_size st0 ≤ max_open_size st ∧
    max_open_size st ≤ max_open_size st'.
Proof.
  intros _ Hcb Hs _ H0. unfold state_after.
  set (init := initial_state clock end_pos g start_pos (Some st0)).
  assert (Hinv : search_inv g start_pos init) by by apply initial_state_inv.
  assert (Hst : stats_inv st0 init).
  { exists st0. split; [done|]. unfold init, initial_state.
    cbn [closed_set]. rewrite size_empty. lia. }
  assert (Hmono : ∀ k, ∃ st,
            stats (step_state (iterate clock end_pos cb k init)) = Some st ∧
            max_open_size st0 ≤ max_open_size st ∧
            ∃ st', stats (step_state (iterate clock end_pos cb (S k) init))
                   = Some st' ∧ max_open_size st ≤ max_open_size st').
  { induction k as [|k (st & Hk & Hle & st' & Hk' & Hle')].
    - exists st0. split; [done|]. split; [lia|].
      rewrite iterate_succ. simpl.
      by apply (loop_iteration_max_open clock end_pos cb init st0).
    - exists st'. split; [done|]. split; [lia|].
      rewrite iterate_succ.
      destruct (iterate clock end_pos cb (S k) init) as [s1|p s1] eqn:Hr.
      + simpl in Hk'.
        by apply (loop_iteration_max_open clock end_pos cb s1 st').
      + exists st'. split; [|lia]. simpl in Hk'. done. }
  destruct (Hmono n) as (st & Hn & Hle & st' & Hn' & Hle').
  exists st, st'. repeat split; try done.
  - destruct (iterate_stats clock end_pos cb g start_pos st0 Hcb n init
                Hinv Hst) as [Hsi Hcw].
    destruct (stats_inv_bound g st0 _ H0 Hsi Hcw) as (st1 & Hst1 & Hb).
    rewrite Hn in Hst1. injection Hst1 as <-. lia.
  - destruct (iterate_stats clock end_pos cb g start_pos st0 Hcb n init
                Hinv Hst) as [Hsi Hcw].
    destruct (stats_inv_bound g st0 _ H0 Hsi Hcw) as (st1 & Hst1 & Hb).
    rewrite Hn in Hst1. injection Hst1 as <-. lia.
Qed.

Lemma stats_monotonic_witness :
  ∃ st st',
    stats (state_after clock1 grid_3x3 (0, 0) (2, 2) (Some observer_idle)
             (Some AlgorithmStats_init) 2) = Some st ∧
    stats (state_after clock1 grid_3x3 (0, 0) (2, 2) (Some observer_idle)
             (Some AlgorithmStats_init) 3) = Some st' ∧
    0 ≤ nodes_explored st ≤ Z.of_nat (walkable_count grid_3x3) ∧
    max_open_size AlgorithmStats_init ≤ max_open_size st ∧
    max_open_size st ≤ max_open_size st'.
Proof.
  apply (stats_monotonic clock1 grid_3x3 (0, 0) (2, 2) (Some observer_idle)
           AlgorithmStats_init 2).
  - apply wf_grid_init.
  - exact observer_idle_read_only.
  - reflexivity.
  - reflexivity.
  - reflexivity.
Defined.

(** ** Calls of the observer *)

Lemma calls_app tr tr' : calls (tr ++ tr') = calls tr ++ calls tr'.
Proof. apply omap_app. Qed.

Lemma visits_app tr tr' : visits (tr ++ tr') = visits tr ++ visits tr'.
Proof. apply omap_app. Qed.

Section Calls.

Context (clock : nat → float) (end_pos : Position) (cb : option Observer).

Local Abbreviation round := (loop_iteration clock end_pos cb).
Local Abbreviation rounds := (iterate clock end_pos cb).

Lemma same_calls_trans s1 s2 s3 :
  same_calls s1 s2 → same_calls s2 s3 → same_calls s1 s3.
Proof. intros [H1 H2] [H3 H4]. split; congruence. Qed.

Lemma explore_neighbor_calls current s q :
  same_calls s (explore_neighbor clock end_pos current s q).
Proof.
  unfold explore_neighbor. destruct (decide _); [done|].
  destruct (not_better _ _ _); [done|]. unfold same_calls. simpl.
  rewrite calls_app, visits_app. simpl. by rewrite !app_nil_r.
Qed.

Lemma explore_fold_calls current l s :
  same_calls s (fold_left (explore_neighbor clock end_pos current) l s).
Proof.
  revert s. induction l as [|q l IH]; intros s; simpl; [done|].
  eapply same_calls_trans; [apply explore_neighbor_calls|apply IH].
Qed.

Lemma explore_neighbors_calls current s :
  same_calls s (explore_neighbors clock end_pos current s).
Proof.
  unfold explore_neighbors.
  eapply same_calls_trans; [|apply explore_fold_calls].
  unfold same_calls. simpl. rewrite calls_app, visits_app. simpl.
  by rewrite !app_nil_r.
Qed.

Lemma goal_reached_calls current s :
  same_calls s (step_state (goal_reached clock current s)).
Proof. unfold goal_reached. by destruct (stats s). Qed.

Lemma no_path_found_calls s : same_calls s (no_path_found clock s).
Proof. unfold no_path_found. by destruct (stats s). Qed.

(** The call made for [p], if any, comes with the sets and the table of
    the moment. *)
Lemma notify_trace p s :
  trace (notify cb p s) =
  trace s ++
  match cb with
  | Some _ => [EvCall [ASet (open_positions s); ASet (closed_set s); ANone;
                       ADict (node_map s); APos p]]
  | None => []
  end.
Proof.
  unfold notify. destruct cb as [f|]; [|by rewrite app_nil_r].
  by destruct (f _) as [[??]?].
Qed.

(** A round that pops an item already processed makes no call. *)
Lemma round_stale_calls s item rest :
  heappop (open_set s) = Some (item, rest) →
  position item.2 ∈ closed_set s →
  trace (step_state (round s)) = trace s ++ [EvPop item].
Proof.
  intros Hpop Hin. unfold loop_iteration. rewrite Hpop.
  by destruct (decide _).
Qed.

(** A round that pops an item not yet processed makes one call when there
    is an observer: the open positions without the position popped, the
    visited positions with it, [None], the node table, the position. *)
Lemma round_fresh_calls s item rest :
  heappop (open_set s) = Some (item, rest) →
  position item.2 ∉ closed_set s →
  calls (trace (step_state (round s)))
  = calls (trace s) ++
    match cb with
    | Some _ => [[ASet (open_positions s ∖ {[position item.2]});
                  ASet (closed_set s ∪ {[position item.2]}); ANone;
                  ADict (node_map s); APos (position item.2)]]
    | None => []
    end.
Proof.
  intros Hpop Hin. unfold loop_iteration. rewrite Hpop.
  destruct (decide _) as [|_]; [done|].
  assert (Hn : calls (trace (notify cb (position item.2)
                               (visit_item s item rest)))
               = calls (trace s) ++
                 match cb with
                 | Some _ => [[ASet (open_positions s ∖ {[position item.2]});
                               ASet (closed_set s ∪ {[position item.2]});
                               ANone; ADict (node_map s);
                               APos (position item.2)]]
                 | None => []
                 end).
  { rewrite notify_trace, calls_app. cbn [trace visit_item].
    rewrite calls_app. cbn [calls omap list_omap app].
    rewrite app_nil_r. by destruct cb. }
  destruct (decide (_ = _)).
  - destruct (goal_reached_calls item.2
                (notify cb (position item.2) (visit_item s item rest)))
      as [-> _]. exact Hn.
  - cbn [step_state].
    destruct (explore_neighbors_calls item.2
                (notify cb (position item.2) (visit_item s item rest)))
      as [-> _]. exact Hn.
Qed.

Lemma round_calls s :
  is_Some cb →
  Forall2 call_shape (calls (trace s)) (visits (trace s)) →
  Forall2 call_shape (calls (trace (step_state (round s))))
                     (visits (trace (step_state (round s)))).
Proof.
  intros [f Hf] H. unfold loop_iteration.
  destruct (heappop (open_set s)) as [[item rest]|].
  - destruct (decide (_ ∈ _)).
    + simpl. rewrite calls_app, visits_app. simpl. by rewrite !app_nil_r.
    + assert (Forall2 call_shape
                (calls (trace (notify cb (position item.2)
                                 (visit_item s item rest))))
                (visits (trace (notify cb (position item.2)
                                  (visit_item s item rest))))) as Hn.
      { rewrite notify_trace, Hf. simpl.
        rewrite !calls_app, !visits_app. simpl. rewrite !app_nil_r.
        apply Forall2_app; [done|]. constructor; [|constructor].
        by eexists _, _, _. }
      destruct (decide (_ = _)).
      * by destruct (goal_reached_calls item.2
                       (notify cb (position item.2) (visit_item s item rest)))
          as [-> ->].
      * simpl.
        by destruct (explore_neighbors_calls item.2
                       (notify cb (position item.2) (visit_item s item rest)))
          as [-> ->].
  - simpl. by destruct (no_path_found_calls s) as [-> ->].
Qed.

Lemma rounds_calls n s :
  is_Some cb →
  Forall2 call_shape (calls (trace s)) (visits (trace s)) →
  Forall2 call_shape (calls (trace (step_state (rounds n s))))
                     (visits (trace (step_state (rounds n s)))).
Proof.
  intros Hcb. revert s. induction n as [|n IH]; intros s H; simpl; [done|].
  pose proof (round_calls s Hcb H) as Hr.
  destruct (round s) as [s1|p s1]; simpl in *; [by apply IH|done].
Qed.

End Calls.

(** C7, as the code has it.  With an observer supplied, the calls made in a
    run are, in order, one for each position visited, each with five
    arguments; this holds after every number of rounds and at the return.
    A round that pops an already processed item adds nothing but the pop
    to the trace.  A round that pops an item not yet processed makes
    exactly one call, whose arguments are, in this order: the set of open
    positions (the position popped already discarded), the set of visited
    positions (the position popped already added), [None], the node table,
    and the position popped. *)
Theorem observer_calls (clock : nat → float) (g : Grid)
    (start_pos end_pos : Position) (f : Observer)
    (st : option AlgorithmStats) :
  wf_grid g →
  (∀ n, let tr := trace (state_after clock g start_pos end_pos (Some f) st n)
        in Forall2 call_shape (calls tr) (visits tr)) ∧
  (∀ fuel r s,
     find_path clock fuel g start_pos end_pos (Some f) st = Some (r, s) →
     Forall2 call_shape (calls (trace s)) (visits (trace s))) ∧
  (∀ s item rest,
     heappop (open_set s) = Some (item, rest) →
     position item.2 ∈ closed_set s →
     trace (step_state (loop_iteration clock end_pos (Some f) s))
     = trace s ++ [EvPop item]) ∧
  (∀ s item rest,
     heappop (open_set s) = Some (item, rest) →
     position item.2 ∉ closed_set s →
     calls (trace (step_state (loop_iteration clock end_pos (Some f) s)))
     = calls (trace s) ++
       [[ASet (open_positions s ∖ {[position item.2]});
         ASet (closed_set s ∪ {[position item.2]}); ANone;
         ADict (node_map s); APos (position item.2)]]).
Proof.
  intros _.
  assert (Hn : ∀ n, Forall2 call_shape
            (calls (trace (state_after clock g start_pos end_pos (Some f) st n)))
            (visits (trace (state_after clock g start_pos end_pos (Some f) st n)))).
  { intros n. unfold state_after. apply rounds_calls; [by eexists|].
    simpl. constructor. }
  split; [exact Hn|]. split.
  - intros fuel r s. unfold find_path, find_path_fuel.
    destruct (negb _ || negb _).
    + intros [= <- <-]. simpl. constructor.
    + specialize (Hn fuel). unfold state_after in Hn.
      destruct (iterate _ _ _ _ _) as [s1|p s1]; [done|].
      by intros [= <- <-].
  - split.
    + intros s item rest. apply round_stale_calls.
    + intros s item rest Hpop Hin.
      by rewrite (round_fresh_calls clock end_pos (Some f) s item rest).
Qed.

Lemma observer_calls_witness :
  wf_grid grid_2x2 ∧
  (∀ n, Forall2 call_shape
          (calls (trace (state_after clock1 grid_2x2 (0, 0) (1, 1)
                           (Some observer_idle) None n)))
          (visits (trace (state_after clock1 grid_2x2 (0, 0) (1, 1)
                            (Some observer_idle) None n)))) ∧
  calls (trace (state_after clock1 grid_2x2 (0, 0) (1, 1)
                  (Some observer_idle) None 1))
  = [[ASet ∅; ASet {[(0, 0)]}; ANone;
      ADict {[(0, 0) := Build_Node (heuristic (0, 0) (1, 1)) (0, 0) 0
                          (heuristic (0, 0) (1, 1)) None (clock1 1%nat)]};
      APos (0, 0)]].
Proof.
  split; [apply wf_grid_init|].
  destruct (observer_calls clock1 grid_2x2 (0, 0) (1, 1) observer_idle None
              (wf_grid_init 2 2)) as (H1 & _ & _ & H4).
  split; [exact H1|].
  assert (Hpop : ∃ item rest,
             heappop (open_set (initial_state clock1 (1, 1) grid_2x2 (0, 0)
                                  None)) = Some (item, rest) ∧
             position item.2 = (0, 0)).
  { eexists _, _. vm_compute. split; reflexivity. }
  destruct Hpop as (item & rest & Hpop & Hpos).
  unfold state_after. cbn [iterate].
  assert (Hfresh : position item.2
                   ∉ closed_set (initial_state clock1 (1, 1) grid_2x2 (0, 0)
                                   None)).
  { cbn [closed_set initial_state]. apply not_elem_of_empty. }
  pose proof (H4 _ item rest Hpop Hfresh) as Hc. rewrite Hpos in Hc.
  destruct (loop_iteration clock1 (1, 1) (Some observer_idle)
              (initial_state clock1 (1, 1) grid_2x2 (0, 0) None))
    as [s1|p s1]; cbn [step_state iterate] in *; rewrite Hc;
    vm_compute; reflexivity.
Defined.

(** C7 as worded, with four arguments, fails on the smallest run: on the
    one-cell grid with start and end on that cell the one call made has
    five arguments, the third being [None]. *)
Lemma observer_calls_four_arguments_counterexample :
  ¬ (∀ r s,
       find_path clock0 1 grid_1x1 (0, 0) (0, 0) (Some observer_idle) None
       = Some (r, s) →
       Forall2 call_shape_spec (calls (trace s)) (visits (trace s))).
Proof.
  intros H.
  specialize (H _ _ eq_refl).
  apply Forall2_Forall_l with (Q := λ args, length args = 4%nat) in H.
  - vm_compute in H. inversion H as [|? ? Hlen _]. discriminate Hlen.
  - apply Forall_forall. intros p _ args (o & c & m & ->). done.
Qed.

(** ** Two runs on the same input *)

Lemma erase_node_position n : position (erase_node n) = position n.
Proof. by destruct n. Qed.

Lemma erase_node_f_score n : f_score (erase_node n) = f_score n.
Proof. by destruct n. Qed.

Lemma erase_node_g_score n : g_score (erase_node n) = g_score n.
Proof. by destruct n. Qed.

Lemma erase_node_path_to_root n :
  path_to_root (erase_node n) = path_to_root n.
Proof.
  revert n. fix IH 1. intros [f p gs h [par|] ts]; simpl; [|done].
  by rewrite IH.
Qed.

Lemma erase_node_eq_position n n' :
  erase_node n = erase_node n' → position n = position n'.
Proof. intros H. by rewrite <- (erase_node_position n), H, erase_node_position. Qed.

Lemma erase_node_eq_g_score n n' :
  erase_node n = erase_node n' → g_score n = g_score n'.
Proof. intros H. by rewrite <- (erase_node_g_score n), H, erase_node_g_score. Qed.

Lemma erase_node_eq_path n n' :
  erase_node n = erase_node n' → _reconstruct_path n = _reconstruct_path n'.
Proof.
  intros H. unfold _reconstruct_path.
  by rewrite <- (erase_node_path_to_root n), H, erase_node_path_to_root.
Qed.

Lemma Entry_lt_erase a b :
  Entry_lt (erase_entry a) (erase_entry b) = Entry_lt a b.
Proof.
  destruct a as [[f1 c1] n1], b as [[f2 c2] n2]. unfold erase_entry. simpl.
  unfold Node_lt. by rewrite !erase_node_f_score.
Qed.

Lemma heappop_erase (heap : list Entry) :
  heappop (erase_entry <$> heap) =
  (λ ir : Entry * list Entry, (erase_entry ir.1, erase_entry <$> ir.2))
    <$> heappop heap.
Proof.
  induction heap as [|x heap IH]; [done|].
  rewrite fmap_cons. cbn [heappop]. rewrite IH.
  destruct (heappop heap) as [[m rest]|]; cbn [fmap option_fmap option_map fst snd];
    [|done].
  rewrite Entry_lt_erase. by destruct (Entry_lt m x).
Qed.

(** Popping from two queues that agree gives items and rests that agree. *)
Lemma heappop_sim (heap heap' : list Entry) :
  erase_entry <$> heap = erase_entry <$> heap' →
  match heappop heap, heappop heap' with
  | Some (item, rest), Some (item', rest') =>
      erase_entry item = erase_entry item' ∧
      erase_entry <$> rest = erase_entry <$> rest'
  | None, None => True
  | _, _ => False
  end.
Proof.
  intros H. pose proof (heappop_erase heap) as H1.
  pose proof (heappop_erase heap') as H2. rewrite H in H1. rewrite H1 in H2.
  destruct (heappop heap) as [[item rest]|], (heappop heap') as [[item' rest']|];
    cbn [fmap option_fmap option_map fst snd] in H2; try done.
  injection H2 as H3 H4 H5 H6. split; [|done].
  unfold erase_entry. by rewrite H3, H4, H5.
Qed.

Lemma stats_agree_fmap (f : AlgorithmStats → AlgorithmStats) a b :
  (∀ x y, erase_time x = erase_time y → erase_time (f x) = erase_time (f y)) →
  stats_agree a b → stats_agree (f <$> a) (f <$> b).
Proof.
  intros Hf. unfold stats_agree.
  destruct a as [x|], b as [y|]; cbn [fmap option_fmap option_map]; try done.
  intros H. f_equal. apply Hf. congruence.
Qed.

Lemma erase_time_iteration n x y :
  erase_time x = erase_time y →
  erase_time (stats_iteration n x) = erase_time (stats_iteration n y).
Proof. destruct x, y. unfold erase_time, stats_elapsed. simpl. congruence. Qed.

Lemma erase_time_explored x y :
  erase_time x = erase_time y →
  erase_time (stats_explored x) = erase_time (stats_explored y).
Proof. destruct x, y. unfold erase_time, stats_elapsed. simpl. congruence. Qed.

Lemma erase_time_found len cost t t' x y :
  erase_time x = erase_time y →
  erase_time (stats_found len cost t x) = erase_time (stats_found len cost t' y).
Proof. destruct x, y. unfold erase_time, stats_elapsed. simpl. congruence. Qed.

Lemma erase_time_elapsed t t' x y :
  erase_time x = erase_time y →
  erase_time (stats_elapsed t x) = erase_time (stats_elapsed t' y).
Proof. destruct x, y. unfold erase_time, stats_elapsed. simpl. congruence. Qed.

Section Simulation.

Context (clock clock' : nat → float) (end_pos : Position)
        (cb cb' : option Observer).

Hypothesis Hcb : well_behaved cb.
Hypothesis Hcb' : well_behaved cb'.

Lemma notify_sim p s s' :
  sim s s' → sim (notify cb p s) (notify cb' p s').
Proof.
  intros [Hg Ho Hc Hgs Hcl Hst]. split.
  - by rewrite !notify_grid.
  - by rewrite !notify_open_set.
  - by rewrite !notify_counter.
  - by rewrite !notify_g_scores.
  - by rewrite !notify_closed_set.
  - by rewrite !notify_stats.
Qed.

Lemma explore_neighbor_sim current current' s s' q :
  erase_node current = erase_node current' → sim s s' →
  sim (explore_neighbor clock end_pos current s q)
      (explore_neighbor clock' end_pos current' s' q).
Proof.
  intros Hcur [Hg Ho Hc Hgs Hcl Hst]. unfold explore_neighbor.
  rewrite <- Hcl. destruct (decide _); [done|].
  rewrite <- (erase_node_eq_position _ _ Hcur),
          <- (erase_node_eq_g_score _ _ Hcur).
  unfold not_better. rewrite <- Hgs.
  destruct (match g_scores s !! q with Some _ => _ | None => _ end); [done|].
  split; simpl; try done.
  - unfold heappush. rewrite !fmap_app, Ho. simpl. do 2 f_equal.
    unfold erase_entry. simpl. by rewrite Hc, Hcur.
  - by rewrite Hc.
  - by rewrite Hgs.
Qed.

Lemma explore_fold_sim current current' l s s' :
  erase_node current = erase_node current' → sim s s' →
  sim (fold_left (explore_neighbor clock end_pos current) l s)
      (fold_left (explore_neighbor clock' end_pos current') l s').
Proof.
  intros Hcur. revert s s'. induction l as [|q l IH]; intros s s' H; simpl;
    [done|].
  apply IH. by apply explore_neighbor_sim.
Qed.

Lemma explore_neighbors_sim current current' s s' :
  erase_node current = erase_node current' → sim s s' →
  sim (explore_neighbors clock end_pos current s)
      (explore_neighbors clock' end_pos current' s').
Proof.
  intros Hcur H. unfold explore_neighbors.
  rewrite <- (erase_node_eq_position _ _ Hcur), <- (sim_grid _ _ H).
  apply explore_fold_sim; [done|]. by destruct H.
Qed.

Lemma goal_reached_sim current current' s s' :
  erase_node current = erase_node current' → sim s s' →
  sim_step (goal_reached clock current s) (goal_reached clock' current' s').
Proof.
  intros Hcur H. pose proof H as [Hg Ho Hc Hgs Hcl Hst].
  unfold goal_reached.
  rewrite <- (erase_node_eq_path _ _ Hcur),
          <- (erase_node_eq_g_score _ _ Hcur).
  unfold stats_agree in Hst.
  destruct (stats s) as [x|] eqn:Hx, (stats s') as [y|] eqn:Hy;
    cbn [fmap option_fmap option_map] in Hst; try done.
  split; [done|]. split; cbn [st_grid open_set counter g_scores closed_set
                                stats]; try done.
  all: unfold stats_agree; cbn [fmap option_fmap option_map]; f_equal;
    apply erase_time_found; congruence.
Qed.

Lemma no_path_found_sim s s' :
  sim s s' → sim (no_path_found clock s) (no_path_found clock' s').
Proof.
  intros H. pose proof H as [Hg Ho Hc Hgs Hcl Hst].
  unfold no_path_found. unfold stats_agree in Hst.
  destruct (stats s) as [x|] eqn:Hx, (stats s') as [y|] eqn:Hy;
    cbn [fmap option_fmap option_map] in Hst; try done.
  all: split; cbn [st_grid open_set counter g_scores closed_set stats];
    try done.
  all: unfold stats_agree; cbn [fmap option_fmap option_map]; f_equal;
    apply erase_time_elapsed; congruence.
Qed.

Lemma stats_at_pop_sim s s' :
  sim s s' → stats_agree (stats_at_pop s) (stats_at_pop s').
Proof.
  intros [Hg Ho Hc Hgs Hcl Hst]. unfold stats_at_pop.
  assert (length (open_set s) = length (open_set s')) as ->.
  { by rewrite <- (length_fmap erase_entry (open_set s)), Ho, length_fmap. }
  apply stats_agree_fmap; [|done]. intros x y. apply erase_time_iteration.
Qed.

(** One round on each side keeps the two runs together. *)
Lemma visit_item_sim s s' item item' rest rest' :
  sim s s' → erase_node item.2 = erase_node item'.2 →
  erase_entry <$> rest = erase_entry <$> rest' →
  sim (visit_item s item rest) (visit_item s' item' rest').
Proof.
  intros H Hcur Hrest. pose proof H as [Hg Ho Hc Hgs Hcl Hst].
  split; cbn [visit_item st_grid open_set counter g_scores closed_set stats];
    try done.
  - by rewrite Hcl, (erase_node_eq_position _ _ Hcur).
  - apply stats_agree_fmap; [|by apply stats_at_pop_sim].
    intros x y. apply erase_time_explored.
Qed.

Lemma skip_item_sim s s' item item' rest rest' :
  sim s s' → erase_entry <$> rest = erase_entry <$> rest' →
  sim (skip_item s item rest) (skip_item s' item' rest').
Proof.
  intros H Hrest. pose proof H as [Hg Ho Hc Hgs Hcl Hst].
  split; cbn [skip_item st_grid open_set counter g_scores closed_set stats];
    try done.
  by apply stats_at_pop_sim.
Qed.

(** One round on each side keeps the two runs together. *)
Lemma loop_iteration_sim s s' :
  sim s s' →
  sim_step (loop_iteration clock end_pos cb s)
           (loop_iteration clock' end_pos cb' s').
Proof.
  intros H. pose proof H as [Hg Ho Hc Hgs Hcl Hst]. unfold loop_iteration.
  pose proof (heappop_sim _ _ Ho) as Hpop.
  destruct (heappop (open_set s)) as [[item rest]|],
           (heappop (open_set s')) as [[item' rest']|]; try done.
  - destruct Hpop as [Hitem Hrest].
    assert (Hcur : erase_node item.2 = erase_node item'.2).
    { unfold erase_entry in Hitem. by injection Hitem. }
    pose proof (visit_item_sim _ _ _ _ _ _ H Hcur Hrest) as Hv.
    pose proof (skip_item_sim _ _ item item' _ _ H Hrest) as Hk.
    rewrite <- (erase_node_eq_position _ _ Hcur), <- Hcl.
    destruct (decide (_ ∈ _)); [exact Hk|].
    destruct (decide (_ = _)).
    + apply goal_reached_sim; [done|]. by apply notify_sim.
    + apply explore_neighbors_sim; [done|]. by apply notify_sim.
  - split; [done|]. by apply no_path_found_sim.
Qed.

Lemma iterate_sim fuel s s' :
  sim s s' →
  sim_step (iterate clock end_pos cb fuel s)
           (iterate clock' end_pos cb' fuel s').
Proof.
  revert s s'. induction fuel as [|fuel IH]; intros s s' H; simpl; [done|].
  pose proof (loop_iteration_sim s s' H) as Hr.
  destruct (loop_iteration clock end_pos cb s) as [s1|p s1],
           (loop_iteration clock' end_pos cb' s') as [s1'|p' s1'];
    simpl in Hr; try done.
  by apply IH.
Qed.

Lemma initial_state_sim g start_pos st :
  sim (initial_state clock end_pos g start_pos st)
      (initial_state clock' end_pos g start_pos st).
Proof. by split. Qed.

(** Two calls on the same grid, positions and statistics, whatever their
    clocks and their observers (as long as these only look), return the
    same and leave statistics that agree. *)
Lemma find_path_sim fuel g start_pos st :
  match find_path clock fuel g start_pos end_pos cb st,
        find_path clock' fuel g start_pos end_pos cb' st with
  | Some (r, s), Some (r', s') => r = r' ∧ stats_agree (stats s) (stats s')
  | None, None => True
  | _, _ => False
  end.
Proof.
  unfold find_path, find_path_fuel.
  destruct (negb _ || negb _); [done|].
  pose proof (iterate_sim fuel _ _ (initial_state_sim g start_pos st)) as H.
  destruct (iterate clock _ _ _ _) as [s|p s],
           (iterate clock' _ _ _ _) as [s'|p' s']; simpl in H; try done.
  destruct H as [-> H]. split; [done|]. by destruct H.
Qed.

End Simulation.

(** C8.  The call without observer and the call with an observer (one that
    only looks, as the specification has it) both return, with the same
    value, and the statistics records they leave agree on every field
    other than the elapsed time; the two calls may read different
    clocks. *)
Theorem observer_does_not_interfere (clock clock' : nat → float) (fuel : nat)
    (g : Grid) (start_pos end_pos : Position) (f : Observer)
    (st : option AlgorithmStats) :
  wf_grid g → read_only f → (search_fuel g ≤ fuel)%nat →
  ∃ r s s',
    find_path clock fuel g start_pos end_pos None st = Some (r, s) ∧
    find_path clock' fuel g start_pos end_pos (Some f) st = Some (r, s') ∧
    stats_agree (stats s) (stats s').
Proof.
  intros _ Hf Hfuel.
  destruct (search_terminates clock fuel g start_pos end_pos None st I Hfuel)
    as (r & s & Hrun).
  pose proof (find_path_sim clock clock' end_pos None (Some f) I Hf
                fuel g start_pos st) as Hsim.
  rewrite Hrun in Hsim.
  destruct (find_path clock' fuel g start_pos end_pos (Some f) st)
    as [[r' s']|]; [|done].
  destruct Hsim as [<- Hst]. by exists r, s, s'.
Qed.

Lemma observer_does_not_interfere_witness :
  ∃ r s s',
    find_path clock0 (search_fuel grid_2x1) grid_2x1 (0, 0) (1, 0) None
      (Some AlgorithmStats_init) = Some (r, s) ∧
    find_path clock1 (search_fuel grid_2x1) grid_2x1 (0, 0) (1, 0)
      (Some observer_idle) (Some AlgorithmStats_init) = Some (r, s') ∧
    stats_agree (stats s) (stats s').
Proof.
  apply (observer_does_not_interfere clock0 clock1 (search_fuel grid_2x1)
           grid_2x1 (0, 0) (1, 0) observer_idle (Some AlgorithmStats_init)).
  - apply wf_grid_init.
  - exact observer_idle_read_only.
  - lia.
Defined.

(** The hypothesis on the observer is needed: on the grid of two cells
    side by side, an observer that adds the end to the visited set it is
    handed turns the path from (0,0) to (1,0) into no path. *)
Lemma read_only_needed :
  ¬ (∀ r r' s s',
       find_path clock0 5 grid_2x1 (0, 0) (1, 0) None None = Some (r, s) →
       find_path clock0 5 grid_2x1 (0, 0) (1, 0)
         (Some (observer_marking (1, 0))) None = Some (r', s') →
       r = r').
Proof.
  intros H. specialize (H _ _ _ _ eq_refl eq_refl). discriminate H.
Qed.

(** The bound on [nodes_explored] is a bound for a new or reset record, as
    [_run_algorithm] supplies: the counter is added to, never set, so a
    record that already counts five explored nodes counts six after a run
    on the one-cell grid. *)
Lemma fresh_record_needed :
  ¬ (∀ st,
       stats (state_after clock0 grid_1x1 (0, 0) (0, 0) None
                (Some stats_used) 1) = Some st →
       nodes_explored st ≤ Z.of_nat (walkable_count grid_1x1)).
Proof.
  intros H. specialize (H _ eq_refl). vm_compute in H. by apply H.
Qed.

(** ** Scores are ordered values *)

Ltac key_solve :=
  let H := fresh "H" in
  intros H;
  first [ discriminate H | reflexivity | lia | exfalso; lia
        | injection H; intros; first [lia | exfalso; lia]
        | f_equal; lia ].

Ltac key_case :=
  eexists; split; [reflexivity|]; unfold key_lt; simpl;
  split; (split; key_solve).

Lemma SFcompare_good x y :
  good x → good y →
  ∃ c, SFcompare x y = Some c ∧
       (c = Lt ↔ key_lt (float_key x) (float_key y)) ∧
       (c = Eq ↔ float_key x = float_key y).
Proof.
  destruct x as [sx|sx| |sx mx ex], y as [sy|sy| |sy my ey];
    cbn [good]; try done; intros Hx Hy; subst;
    cbn [SFcompare float_key].
  1-8: key_case.
  destruct (Z.compare_spec ex ey) as [He|He|He].
  - subst. rewrite Pos.compare_cont_spec. cbn [Pos.switch_Eq].
    destruct (Pos.compare_spec mx my) as [Hm|Hm|Hm]; subst; key_case.
  - key_case.
  - key_case.
Qed.

Lemma SFltb_good x y :
  good x → good y → SFltb x y = true ↔ key_lt (float_key x) (float_key y).
Proof.
  intros Hx Hy. destruct (SFcompare_good x y Hx Hy) as (c & Hc & Hlt & _).
  unfold SFltb. rewrite Hc, <- Hlt. by destruct c.
Qed.

Lemma SFeqb_good x y :
  good x → good y → SFeqb x y = true ↔ float_key x = float_key y.
Proof.
  intros Hx Hy. destruct (SFcompare_good x y Hx Hy) as (c & Hc & _ & Heq).
  unfold SFeqb. rewrite Hc, <- Heq. by destruct c.
Qed.


(** Rounding never turns a non-negative mantissa into a negative one. *)
Lemma shr_1_nonneg mrs : 0 ≤ shr_m mrs → 0 ≤ shr_m (shr_1 mrs).
Proof. destruct mrs as [[|[p|p|]|[p|p|]] r s]; simpl; lia. Qed.

Lemma iter_pos_nonneg p mrs :
  0 ≤ shr_m mrs → 0 ≤ shr_m (SpecFloat.iter_pos shr_1 p mrs).
Proof.
  revert mrs. induction p as [p IH|p IH|]; intros mrs H; simpl.
  - apply IH, IH. by apply shr_1_nonneg.
  - by apply IH, IH.
  - by apply shr_1_nonneg.
Qed.

Lemma shr_nonneg mrs e n : 0 ≤ shr_m mrs → 0 ≤ shr_m (shr mrs e n).1.
Proof.
  intros H. destruct n; simpl; try done. by apply iter_pos_nonneg.
Qed.

Lemma shr_record_of_loc_m m l : shr_m (shr_record_of_loc m l) = m.
Proof. by destruct l as [|[]]. Qed.

Lemma shr_fexp_nonneg pr em m e l :
  0 ≤ m → 0 ≤ shr_m (shr_fexp pr em m e l).1.
Proof.
  intros H. unfold shr_fexp. apply shr_nonneg.
  by rewrite shr_record_of_loc_m.
Qed.

Lemma round_nearest_even_nonneg m l : 0 ≤ m → 0 ≤ round_nearest_even m l.
Proof.
  intros H. destruct l as [|[]]; simpl; try lia. destruct (Z.even m); lia.
Qed.

Lemma binary_round_aux_good pr em mx ex lx :
  0 ≤ mx → good (binary_round_aux pr em false mx ex lx).
Proof.
  intros H. unfold binary_round_aux.
  pose proof (shr_fexp_nonneg pr em mx ex lx H) as H1.
  destruct (shr_fexp pr em mx ex lx) as [mrs1 e1] eqn:E1. simpl in H1.
  pose proof (shr_fexp_nonneg pr em
    (round_nearest_even (shr_m mrs1) (loc_of_shr_record mrs1)) e1 loc_Exact
    (round_nearest_even_nonneg _ _ H1)) as H2.
  destruct (shr_fexp pr em _ e1 loc_Exact) as [mrs2 e2]. simpl in H2.
  destruct (shr_m mrs2) as [|m|m]; [done| |lia].
  by destruct (e2 <=? em - pr).
Qed.

Lemma binary_round_good pr em m e : good (binary_round pr em false m e).
Proof.
  unfold binary_round. destruct (shl_align _ _ _) as [mz ez].
  by apply binary_round_aux_good.
Qed.

Lemma binary_normalize_good pr em m e :
  0 ≤ m → good (binary_normalize pr em m e false).
Proof.
  intros H. destruct m as [|m|m]; [done|apply binary_round_good|lia].
Qed.

Lemma SFadd_good pr em x y :
  good x → good y → good (SFadd pr em x y).
Proof.
  destruct x as [sx|sx| |sx mx ex], y as [sy|sy| |sy my ey];
    cbn [good]; try done; intros Hx Hy; subst; cbn [SFadd good]; try done.
  - by destruct sx, sy.
  - cbn [cond_Zopp]. apply binary_normalize_good. lia.
Qed.

Lemma SFsqrt_good pr em x : good x → good (SFsqrt pr em x).
Proof.
  destruct x as [sx|sx| |sx mx ex]; cbn [good]; try done; intros ->;
    cbn [SFsqrt good]; try done.
  destruct (SFsqrt_core_binary pr em (Z.pos mx) ex) as [[mz ez] lz] eqn:E.
  apply binary_round_aux_good.
  unfold SFsqrt_core_binary in E.
  match type of E with
  | context [Z.sqrtrem ?a] =>
      pose proof (Z.sqrtrem_sqrt a) as Hs; destruct (Z.sqrtrem a) as [q r]
  end.
  injection E as <- <- <-. simpl in Hs. subst q. apply Z.sqrt_nonneg.
Qed.

Lemma SFldexp_good pr em x e : good x → good (SFldexp pr em x e).
Proof.
  destruct x as [sx|sx| |sx mx ex]; cbn [good]; try done; intros ->.
  cbn [SFldexp]. apply binary_round_good.
Qed.

Lemma add_good x y : fgood x → fgood y → fgood (x + y).
Proof. unfold fgood. rewrite FloatAxioms.add_spec. apply SFadd_good. Qed.

Lemma sqrt_good x : fgood x → fgood (PrimFloat.sqrt x).
Proof. unfold fgood. rewrite FloatAxioms.sqrt_spec. apply SFsqrt_good. Qed.

Lemma SF2Prim_good x : good x → fgood (SF2Prim x).
Proof.
  unfold fgood. destruct x as [sx|sx| |sx mx ex]; cbn [good]; try done.
  - intros _. by destruct sx.
  - by intros ->.
  - intros ->. cbn [SF2Prim]. rewrite Z_ldexp_spec. apply SFldexp_good.
    rewrite FloatAxioms.of_uint63_spec. apply binary_normalize_good.
    apply Uint63.to_Z_bounded.
Qed.

Lemma fgood_zero : fgood 0%float.
Proof. by vm_compute. Qed.

Lemma fgood_one : fgood 1%float.
Proof. by vm_compute. Qed.

Lemma float_of_int_good n : 0 ≤ n → fgood (float_of_int n).
Proof.
  intros H. unfold float_of_int. by apply SF2Prim_good, binary_normalize_good.
Qed.

Lemma heuristic_good p q : fgood (heuristic p q).
Proof.
  destruct p as [x1 y1], q as [x2 y2]. unfold heuristic.
  apply sqrt_good, float_of_int_good. rewrite !Z.pow_2_r.
  pose proof (Z.square_nonneg (x2 - x1)).
  pose proof (Z.square_nonneg (y2 - y1)). lia.
Qed.

Lemma get_movement_cost_good p q : fgood (get_movement_cost p q).
Proof.
  destruct p as [x1 y1], q as [x2 y2]. unfold get_movement_cost.
  destruct (_ =? 2).
  - by apply sqrt_good, float_of_int_good.
  - apply fgood_one.
Qed.

(** ** The order of the queue *)

Lemma key_lt_irrefl a : ¬ key_lt a a.
Proof. destruct a as [[a1 a2] a3]. unfold key_lt. simpl. lia. Qed.

Lemma key_lt_trans a b c : key_lt a b → key_lt b c → key_lt a c.
Proof.
  destruct a as [[a1 a2] a3], b as [[b1 b2] b3], c as [[c1 c2] c3].
  unfold key_lt. simpl. lia.
Qed.

Lemma key_trichotomy a b : key_lt a b ∨ a = b ∨ key_lt b a.
Proof.
  destruct a as [[a1 a2] a3], b as [[b1 b2] b3]. unfold key_lt. simpl.
  destruct (Z.compare_spec a1 b1), (Z.compare_spec a2 b2),
    (Z.compare_spec a3 b3); subst;
    first [ left; lia | right; right; lia | right; left; reflexivity ].
Qed.

Lemma ltb_good x y :
  fgood x → fgood y →
  PrimFloat.ltb x y = true ↔ key_lt (float_key (Prim2SF x)) (float_key (Prim2SF y)).
Proof. intros. rewrite FloatAxioms.ltb_spec. by apply SFltb_good. Qed.

Lemma eqb_good x y :
  fgood x → fgood y →
  PrimFloat.eqb x y = true ↔ float_key (Prim2SF x) = float_key (Prim2SF y).
Proof. intros. rewrite FloatAxioms.eqb_spec. by apply SFeqb_good. Qed.






Lemma heappop_sorted (R : Entry → Entry → Prop) heap item rest :
  StronglySorted R heap → heappop heap = Some (item, rest) →
  StronglySorted R rest.
Proof.
  revert item rest. induction heap as [|x heap IH]; intros item rest Hs;
    [done|].
  apply StronglySorted_inv in Hs as [Hs Hx]. rewrite Forall_forall in Hx.
  simpl. destruct (heappop heap) as [[m r]|] eqn:Hpop.
  - pose proof (heappop_elem_of _ _ _ Hpop) as [Hm Hr].
    destruct (Entry_lt m x); intros [= <- <-]; [|done].
    constructor; [by eapply IH|].
    apply Forall_forall. intros e He. by apply Hx, Hr.
  - intros [= <- <-]. constructor.
Qed.

(** ** The frontier in a run *)

Lemma pushes_app tr tr' : pushes (tr ++ tr') = pushes tr ++ pushes tr'.
Proof. apply omap_app. Qed.

Lemma frontier_inv_ext s s' :
  open_set s' = open_set s → counter s' = counter s →
  pushes (trace s') = pushes (trace s) →
  frontier_inv s → frontier_inv s'.
Proof.
  intros Ho Hc Hp [H1 H2 H3 H4 H5].
  split; rewrite ?Ho, ?Hc, ?Hp; done.
Qed.

(** Dropping items from the frontier keeps the invariant. *)
Lemma frontier_inv_rest s s' :
  open_set s' ⊆ open_set s → StronglySorted counter_lt (open_set s') →
  counter s' = counter s → pushes (trace s') = pushes (trace s) →
  frontier_inv s → frontier_inv s'.
Proof.
  intros Ho Hs Hc Hp [H1 H2 H3 H4 H5].
  split; rewrite ?Hc, ?Hp; try done.
  - intros item Hi. by apply H1, Ho.
  - intros item Hi. by apply H5, Ho.
Qed.

Lemma frontier_inv_counter s (item : Entry) :
  frontier_inv s → item ∈ open_set s → item.1.2 < counter s.
Proof.
  intros [H1 H2 H3 H4 H5] Hi. apply H5 in Hi.
  apply list_elem_of_lookup in Hi as [k Hk].
  rewrite (H3 k item Hk), H4. apply lookup_lt_Some in Hk. lia.
Qed.

Section Frontier.

Context (clock : nat → float) (end_pos : Position) (cb : option Observer).

Lemma notify_trace_pushes p s :
  pushes (trace (notify cb p s)) = pushes (trace s).
Proof.
  rewrite notify_trace, pushes_app.
  destruct cb; simpl; by rewrite app_nil_r.
Qed.

Lemma explore_neighbor_frontier current s q :
  fgood (g_score current) → frontier_inv s →
  frontier_inv (explore_neighbor clock end_pos current s q).
Proof.
  intros Hcur Hinv. unfold explore_neighbor.
  destruct (decide _); [done|]. destruct (not_better _ _ _); [done|].
  pose proof Hinv as [H1 H2 H3 H4 H5].
  assert (Hg : fgood (g_score current + get_movement_cost (position current) q)).
  { apply add_good; [done|apply get_movement_cost_good]. }
  split; simpl.
  - intros item. unfold heappush.
    rewrite elem_of_app, list_elem_of_singleton. intros [Hi | ->].
    + by apply H1.
    + simpl. split; [|done]. apply add_good; [done|apply heuristic_good].
  - unfold heappush. apply StronglySorted_app_2; [|done|repeat constructor].
    intros a b Ha Hb. apply list_elem_of_singleton in Hb as ->.
    unfold counter_lt. simpl. by apply frontier_inv_counter.
  - intros k item. rewrite pushes_app. simpl.
    intros Hk. apply lookup_app_Some in Hk as [Hk | [Hlen Hk]].
    + by apply H3.
    + apply list_lookup_singleton_Some in Hk as [Hk <-]. simpl.
      rewrite H4. lia.
  - rewrite pushes_app, length_app. simpl. rewrite H4. lia.
  - intros item. unfold heappush. rewrite pushes_app. simpl.
    rewrite !elem_of_app, !list_elem_of_singleton.
    intros [Hi | ->]; [left; by apply H5|by right].
Qed.

Lemma explore_fold_frontier current l s :
  fgood (g_score current) → frontier_inv s →
  frontier_inv (fold_left (explore_neighbor clock end_pos current) l s).
Proof.
  intros Hcur. revert s. induction l as [|q l IH]; intros s H; simpl;
    [done|].
  by apply IH, explore_neighbor_frontier.
Qed.

Lemma explore_neighbors_frontier current s :
  fgood (g_score current) → frontier_inv s →
  frontier_inv (explore_neighbors clock end_pos current s).
Proof.
  intros Hcur H. unfold explore_neighbors.
  apply explore_fold_frontier; [done|].
  eapply frontier_inv_ext; [..|exact H]; simpl; try done.
  rewrite pushes_app. simpl. by rewrite app_nil_r.
Qed.

Lemma initial_state_frontier g start_pos st :
  frontier_inv (initial_state clock end_pos g start_pos st).
Proof.
  unfold initial_state, heappush.
  split; cbn [open_set trace counter app pushes omap list_omap].
  - intros item. rewrite list_elem_of_singleton. intros ->.
    cbn [fst snd f_score g_score].
    split; [apply heuristic_good|apply fgood_zero].
  - repeat constructor.
  - intros [|k] item; [|done]. by intros [= <-].
  - done.
  - intros item. by rewrite !list_elem_of_singleton.
Qed.

Lemma loop_iteration_frontier s s' :
  frontier_inv s → loop_iteration clock end_pos cb s = Continue s' →
  frontier_inv s'.
Proof.
  intros Hinv. unfold loop_iteration.
  destruct (heappop (open_set s)) as [[item rest]|] eqn:Hpop; [|done].
  pose proof (heappop_elem_of _ _ _ Hpop) as [Hitem Hrest].
  pose proof (heappop_sorted counter_lt _ _ _ (fr_sorted _ Hinv) Hpop)
    as Hsorted.
  destruct (decide (_ ∈ _)).
  - intros [= <-]. eapply frontier_inv_rest; [..|exact Hinv]; simpl;
      try done.
    rewrite pushes_app. simpl. by rewrite app_nil_r.
  - destruct (decide (_ = _)).
    + unfold goal_reached. by destruct (stats _).
    + intros [= <-]. apply explore_neighbors_frontier.
      * by apply (fr_good _ Hinv item).
      * eapply frontier_inv_rest; [..|exact Hinv].
        -- by rewrite notify_open_set.
        -- by rewrite notify_open_set.
        -- by rewrite notify_counter.
        -- rewrite notify_trace_pushes. simpl. rewrite pushes_app. simpl.
           by rewrite app_nil_r.
Qed.

Lemma iterate_frontier n s s' :
  frontier_inv s → iterate clock end_pos cb n s = Continue s' →
  frontier_inv s'.
Proof.
  apply (iterate_continue clock end_pos cb frontier_inv).
  apply loop_iteration_frontier.
Qed.


End Frontier.



(** * More properties of the module *)

(** ** Cells: writing and reading *)

Lemma set_cell_width g p c : width (set_cell g p c) = width g.
Proof. unfold set_cell. destruct (is_valid g p); [|done]. by destruct p. Qed.

Lemma set_cell_height g p c : height (set_cell g p c) = height g.
Proof. unfold set_cell. destruct (is_valid g p); [|done]. by destruct p. Qed.

Lemma set_cell_is_valid g p c q :
  is_valid (set_cell g p c) q = is_valid g q.
Proof.
  destruct q as [x y]. unfold is_valid.
  by rewrite set_cell_width, set_cell_height.
Qed.

Lemma is_valid_bounds g x y :
  is_valid g (x, y) = true ↔ 0 ≤ x < width g ∧ 0 ≤ y < height g.
Proof. unfold is_valid. rewrite !andb_true_iff. lia. Qed.

Lemma cell_at_valid g x y :
  wf_grid g → is_valid g (x, y) = true → is_Some (cell_at g x y).
Proof.
  intros [Hh Hw] Hv. apply is_valid_bounds in Hv. unfold cell_at.
  destruct (cells g !! Z.to_nat y) as [row|] eqn:Hrow.
  - simpl. apply lookup_lt_is_Some.
    rewrite Forall_forall in Hw. rewrite (Hw row); [lia|].
    by eapply list_elem_of_lookup_2.
  - apply lookup_ge_None in Hrow. lia.
Qed.

Lemma cell_at_set_cell_eq g x y c :
  wf_grid g → is_valid g (x, y) = true →
  cell_at (set_cell g (x, y) c) x y = Some c.
Proof.
  intros Hwf Hv. pose proof Hwf as [Hh Hw].
  pose proof (proj1 (is_valid_bounds g x y) Hv) as Hb.
  unfold set_cell. rewrite Hv. unfold cell_at. simpl.
  rewrite list_lookup_alter_eq.
  destruct (cells g !! Z.to_nat y) as [row|] eqn:Hrow; simpl.
  - apply list_lookup_insert_eq.
    rewrite Forall_forall in Hw. rewrite (Hw row); [lia|].
    by eapply list_elem_of_lookup_2.
  - apply lookup_ge_None in Hrow. lia.
Qed.

Lemma cell_at_set_cell_ne g x y c x' y' :
  is_valid g (x, y) = true → is_valid g (x', y') = true →
  (x, y) ≠ (x', y') →
  cell_at (set_cell g (x, y) c) x' y' = cell_at g x' y'.
Proof.
  intros Hv Hv' Hne.
  apply is_valid_bounds in Hv as Hb. apply is_valid_bounds in Hv' as Hb'.
  unfold set_cell. rewrite Hv. unfold cell_at. simpl.
  destruct (decide (y = y')) as [<-|Hy].
  - rewrite list_lookup_alter_eq.
    destruct (cells g !! Z.to_nat y) as [row|]; simpl; [|done].
    apply list_lookup_insert_ne. intros Heq. apply Hne. f_equal. lia.
  - rewrite list_lookup_alter_ne; [done|]. lia.
Qed.

Lemma get_cell_set_cell_eq g p c :
  wf_grid g → is_valid g p = true → get_cell (set_cell g p c) p = c.
Proof.
  intros Hwf Hv. destruct p as [x y].
  unfold get_cell. rewrite set_cell_is_valid, Hv.
  by rewrite cell_at_set_cell_eq.
Qed.

Lemma get_cell_set_cell_ne g p c q :
  is_valid g p = true → q ≠ p →
  get_cell (set_cell g p c) q = get_cell g q.
Proof.
  intros Hv Hne. destruct p as [x y], q as [x' y'].
  unfold get_cell. rewrite set_cell_is_valid.
  destruct (is_valid g (x', y')) eqn:Hv'; [|done].
  by rewrite cell_at_set_cell_ne.
Qed.

Lemma is_walkable_not_obstacle g p :
  is_walkable g p = negb (is_obstacle (get_cell g p)).
Proof.
  unfold is_walkable, get_cell. destruct p as [x y].
  destruct (is_valid g (x, y)); simpl; [|done].
  by destruct (cell_at g x y).
Qed.

(** X1. What is written to a cell of the grid is read back from it, and
    every other cell reads as before. *)
Theorem get_cell_set_cell (g : Grid) (p : Position) (c : CellType) :
  wf_grid g → is_valid g p = true →
  get_cell (set_cell g p c) p = c ∧
  ∀ q, q ≠ p → get_cell (set_cell g p c) q = get_cell g q.
Proof.
  intros Hwf Hv. split.
  - by apply get_cell_set_cell_eq.
  - intros q Hne. by apply get_cell_set_cell_ne.
Qed.

Lemma get_cell_set_cell_witness :
  get_cell (set_cell grid_3x3 (1, 2) OBSTACLE) (1, 2) = OBSTACLE ∧
  ∀ q, q ≠ (1, 2) →
    get_cell (set_cell grid_3x3 (1, 2) OBSTACLE) q = get_cell grid_3x3 q.
Proof.
  apply (get_cell_set_cell grid_3x3 (1, 2) OBSTACLE).
  - apply wf_grid_init.
  - reflexivity.
Defined.

(** X3. Writing a cell makes it walkable or not according to what is
    written, and changes the walkability of no other cell. *)
Theorem is_walkable_set_cell (g : Grid) (p : Position) (c : CellType) :
  wf_grid g → is_valid g p = true →
  is_walkable (set_cell g p c) p = negb (is_obstacle c) ∧
  ∀ q, q ≠ p → is_walkable (set_cell g p c) q = is_walkable g q.
Proof.
  intros Hwf Hv. split.
  - by rewrite is_walkable_not_obstacle, get_cell_set_cell_eq.
  - intros q Hq. by rewrite !is_walkable_not_obstacle, get_cell_set_cell_ne.
Qed.

Lemma is_walkable_set_cell_witness :
  is_walkable (set_cell grid_3x3 (1, 1) OBSTACLE) (1, 1)
    = negb (is_obstacle OBSTACLE) ∧
  ∀ q, q ≠ (1, 1) →
    is_walkable (set_cell grid_3x3 (1, 1) OBSTACLE) q = is_walkable grid_3x3 q.
Proof.
  apply (is_walkable_set_cell grid_3x3 (1, 1) OBSTACLE).
  - apply wf_grid_init.
  - reflexivity.
Defined.

(** X4. On a new grid every position inside the bounds reads [EMPTY] and is
    walkable, and every other position reads [OBSTACLE] and is not. *)
Theorem Grid_init_cells (w h : Z) (p : Position) :
  get_cell (Grid_init w h) p
    = (if is_valid (Grid_init w h) p then EMPTY else OBSTACLE) ∧
  is_walkable (Grid_init w h) p = is_valid (Grid_init w h) p.
Proof.
  assert (H : get_cell (Grid_init w h) p
              = if is_valid (Grid_init w h) p then EMPTY else OBSTACLE).
  { destruct p as [x y]. unfold get_cell.
    destruct (is_valid (Grid_init w h) (x, y)) eqn:Hv; [|done].
    apply is_valid_bounds in Hv. simpl in Hv.
    unfold cell_at. simpl.
    rewrite lookup_replicate_2 by lia. simpl.
    rewrite lookup_replicate_2 by lia. done. }
  split; [done|]. rewrite is_walkable_not_obstacle, H.
  by destruct (is_valid (Grid_init w h) p).
Qed.

(** ** Neighbours *)

Ltac compute_decide := apply (bool_decide_unpack _); vm_compute; exact I.

Lemma directions_opposite d : d ∈ directions → (- d.1, - d.2) ∈ directions.
Proof.
  intros H. unfold directions in H. rewrite !elem_of_cons in H.
  repeat (destruct H as [-> | H]); try (by apply elem_of_nil in H);
    compute_decide.
Qed.

Lemma directions_unit d :
  d ∈ directions → Z.abs d.1 ≤ 1 ∧ Z.abs d.2 ≤ 1 ∧ d ≠ (0, 0).
Proof.
  intros H. unfold directions in H. rewrite !elem_of_cons in H.
  repeat (destruct H as [-> | H]); simpl;
    try (by apply elem_of_nil in H); (split; [lia|split; [lia|done]]).
Qed.

Lemma NoDup_directions : NoDup directions.
Proof. compute_decide. Qed.

Lemma NoDup_map_inj {A B : Type} (f : A → B) (l : list A) :
  (∀ a b, f a = f b → a = b) → NoDup l → NoDup (List.map f l).
Proof.
  intros Hf. induction 1 as [|a l Ha Hl IH]; simpl; constructor; [|done].
  rewrite list_elem_of_In, in_map_iff. intros (b & Hb & Hin).
  apply Hf in Hb as ->. by apply Ha, list_elem_of_In.
Qed.

(** X5. What [get_neighbors] returns next to a position: walkable cells at
    distance one in each coordinate, the position itself never, no cell
    twice, eight at most. *)
Theorem get_neighbors_adjacent (g : Grid) (x y : Z) :
  (∀ q, q ∈ get_neighbors g (x, y) →
        is_walkable g q = true ∧ q ≠ (x, y) ∧
        Z.abs (q.1 - x) ≤ 1 ∧ Z.abs (q.2 - y) ≤ 1) ∧
  NoDup (get_neighbors g (x, y)) ∧
  (length (get_neighbors g (x, y)) ≤ 8)%nat.
Proof.
  split; [|split].
  - intros q Hq. split; [by eapply get_neighbors_walkable|].
    apply elem_of_get_neighbors in Hq as (d & Hd & _ & ->).
    apply directions_unit in Hd as (H1 & H2 & H3). simpl.
    destruct d as [dx dy]. simpl in *.
    split; [|lia]. intros [= Hx Hy]. apply H3. f_equal; lia.
  - rewrite get_neighbors_eq_spec. unfold neighbors_spec. cbn [fst snd].
    change (cardinal_directions ++ diagonal_directions) with directions.
    apply NoDup_map_inj.
    + intros [a b] [a' b'] [= H1 H2]. f_equal; lia.
    + apply NoDup_ListNoDup, List.NoDup_filter, NoDup_ListNoDup, NoDup_directions.
  - apply get_neighbors_length.
Qed.

Lemma get_neighbors_back (g : Grid) (p q : Position) :
  is_walkable g p = true → q ∈ get_neighbors g p → p ∈ get_neighbors g q.
Proof.
  destruct p as [x y]. intros Hp Hq.
  apply elem_of_get_neighbors in Hq as ([dx dy] & Hd & Hs & ->).
  simpl in *. apply elem_of_get_neighbors.
  exists (- dx, - dy). split; [by apply (directions_opposite (dx, dy))|].
  simpl. split; [|f_equal; lia].
  unfold step_allowed, is_diagonal in *. simpl in *.
  replace (x + dx + - dx) with x by lia.
  replace (y + dy + - dy) with y by lia.
  rewrite Hp. simpl.
  apply andb_true_iff in Hs as [_ Hs].
  replace (- dx =? 0) with (dx =? 0) by (destruct (Z.eqb_spec dx 0), (Z.eqb_spec (- dx) 0); lia).
  replace (- dy =? 0) with (dy =? 0) by (destruct (Z.eqb_spec dy 0), (Z.eqb_spec (- dy) 0); lia).
  destruct (negb (dx =? 0) && negb (dy =? 0)); [|done].
  by rewrite orb_comm.
Qed.

(** X6. A move can be taken back: between two walkable positions, one is
    among the neighbours of the other exactly when the other is among its
    own. *)
Theorem get_neighbors_symmetric (g : Grid) (p q : Position) :
  is_walkable g p = true → is_walkable g q = true →
  q ∈ get_neighbors g p ↔ p ∈ get_neighbors g q.
Proof. intros Hp Hq. split; by apply get_neighbors_back. Qed.

Lemma get_neighbors_symmetric_witness :
  (1, 1) ∈ get_neighbors grid_3x3 (0, 0) ↔
  (0, 0) ∈ get_neighbors grid_3x3 (1, 1).
Proof.
  apply (get_neighbors_symmetric grid_3x3 (0, 0) (1, 1)); reflexivity.
Defined.

(** ** Costs *)

(** X7. For each neighbour that [get_neighbors] offers, the movement cost is
    1 when one coordinate is kept and the square root of 2 (as a binary64
    value) when both change. *)
Theorem movement_cost_of_neighbors (g : Grid) (x y : Z) (q : Position) :
  q ∈ get_neighbors g (x, y) →
  get_movement_cost (x, y) q
  = (if bool_decide (q.1 ≠ x ∧ q.2 ≠ y)
     then PrimFloat.sqrt (float_of_int 2) else 1%float).
Proof.
  intros Hq. apply elem_of_get_neighbors in Hq as ([dx dy] & Hd & _ & ->).
  unfold directions in Hd. rewrite !elem_of_cons in Hd.
  unfold get_movement_cost. cbn [fst snd].
  repeat (destruct Hd as [[= -> ->] | Hd]);
    try (by apply elem_of_nil in Hd).
  all: match goal with
       | |- context [Z.abs ?a + Z.abs ?b =? 2] =>
           destruct (Z.eqb_spec (Z.abs a + Z.abs b) 2) as [He|He]
       end.
  all: case_bool_decide as Hb; try done; exfalso; lia.
Qed.

Lemma movement_cost_of_neighbors_witness :
  get_movement_cost (1, 1) (2, 2) = PrimFloat.sqrt (float_of_int 2) ∧
  get_movement_cost (1, 1) (1, 2) = 1%float.
Proof.
  split.
  - rewrite (movement_cost_of_neighbors grid_3x3 1 1 (2, 2)); [reflexivity|].
    compute_decide.
  - rewrite (movement_cost_of_neighbors grid_3x3 1 1 (1, 2)); [reflexivity|].
    compute_decide.
Defined.

(** X8. Movement cost and heuristic do not depend on the direction of
    travel, and the heuristic from a position to itself is 0. *)
Theorem costs_symmetric (a b : Position) :
  heuristic a b = heuristic b a ∧
  get_movement_cost a b = get_movement_cost b a ∧
  heuristic a a = 0%float.
Proof.
  destruct a as [x1 y1], b as [x2 y2]. unfold heuristic, get_movement_cost.
  split; [|split].
  - do 2 f_equal. rewrite !Z.pow_2_r. ring.
  - replace (Z.abs (x1 - x2)) with (Z.abs (x2 - x1)) by lia.
    by replace (Z.abs (y1 - y2)) with (Z.abs (y2 - y1)) by lia.
  - rewrite !Z.sub_diag. reflexivity.
Qed.

(** ** The maze pattern *)

Lemma set_cell_start g p c : start (set_cell g p c) = start g.
Proof. unfold set_cell. destruct (is_valid g p); [|done]. by destruct p. Qed.

Lemma set_cell_end g p c : end_ (set_cell g p c) = end_ g.
Proof. unfold set_cell. destruct (is_valid g p); [|done]. by destruct p. Qed.

Lemma get_cell_invalid g p : is_valid g p = false → get_cell g p = OBSTACLE.
Proof. intros H. unfold get_cell. by rewrite H. Qed.

(** Reading after a write of [OBSTACLE], in one formula. *)
Lemma get_cell_set_obstacle g q p :
  wf_grid g →
  get_cell (set_cell g q OBSTACLE) p
  = if bool_decide (q = p) then OBSTACLE else get_cell g p.
Proof.
  intros Hwf. case_bool_decide as Hqp.
  - subst q. destruct (is_valid g p) eqn:Hv.
    + by apply get_cell_set_cell_eq.
    + apply get_cell_invalid. by rewrite set_cell_is_valid.
  - destruct (is_valid g q) eqn:Hv.
    + apply get_cell_set_cell_ne; [done|congruence].
    + unfold set_cell. by rewrite Hv.
Qed.

(** A loop that writes [OBSTACLE] at the positions a condition selects. *)
Lemma fold_set_obstacle {A : Type} (pos : A → Position) (cond : A → bool)
    (l : list A) (g : Grid) :
  wf_grid g →
  let g' := fold_left
              (λ g a, if cond a then set_cell g (pos a) OBSTACLE else g) l g in
  wf_grid g' ∧ width g' = width g ∧ height g' = height g ∧
  start g' = start g ∧ end_ g' = end_ g ∧
  ∀ p, get_cell g' p
       = if existsb (λ a, cond a && bool_decide (pos a = p)) l
         then OBSTACLE else get_cell g p.
Proof.
  revert g. induction l as [|a l IH]; intros g Hwf; simpl.
  - done.
  - set (g1 := if cond a then set_cell g (pos a) OBSTACLE else g).
    assert (Hwf1 : wf_grid g1).
    { unfold g1. destruct (cond a); [by apply wf_grid_set_cell|done]. }
    destruct (IH g1 Hwf1) as (H1 & H2 & H3 & H4 & H5 & H6).
    assert (Hg1 : width g1 = width g ∧ height g1 = height g ∧
                  start g1 = start g ∧ end_ g1 = end_ g).
    { unfold g1. destruct (cond a); [|done].
      by rewrite set_cell_width, set_cell_height, set_cell_start, set_cell_end. }
    destruct Hg1 as (W & H & S & E).
    split; [done|]. split; [congruence|]. split; [congruence|].
    split; [congruence|]. split; [congruence|].
    intros p. rewrite H6. unfold g1.
    destruct (existsb _ l); [by rewrite orb_true_r|]. rewrite orb_false_r.
    destruct (cond a); simpl; [|done].
    by apply get_cell_set_obstacle.
Qed.

Lemma existsb_seqZ_pos (pos : Z → Position) (cond : Z → bool)
    (n : Z) (p : Position) (v : Z) (ok : bool) :
  (∀ a, pos a = p ↔ a = v ∧ ok = true) →
  existsb (λ a, cond a && bool_decide (pos a = p)) (seqZ 0 n)
  = ok && cond v && (0 <=? v) && (v <? n).
Proof.
  intros Hpos.
  apply eq_true_iff_eq. rewrite existsb_exists, !andb_true_iff.
  rewrite Z.leb_le, Z.ltb_lt. split.
  - intros (a & Ha & Hc). apply andb_true_iff in Hc as [Hc He].
    apply bool_decide_eq_true, Hpos in He as [-> Hok].
    apply list_elem_of_In, elem_of_seqZ in Ha. repeat split; [done|done|lia|lia].
  - intros [[[Hok Hc] H0] Hn]. exists v. split.
    + apply list_elem_of_In, elem_of_seqZ. lia.
    + rewrite Hc. simpl. apply bool_decide_eq_true, Hpos. done.
Qed.

Lemma maze_column_cells g x :
  wf_grid g →
  wf_grid (maze_column g x) ∧ width (maze_column g x) = width g ∧
  height (maze_column g x) = height g ∧
  start (maze_column g x) = start g ∧ end_ (maze_column g x) = end_ g ∧
  ∀ p, get_cell (maze_column g x) p
       = if is_valid g p && (p.1 =? x) && negb (p.2 mod 4 =? 0)
         then OBSTACLE else get_cell g p.
Proof.
  intros Hwf. unfold maze_column.
  destruct (fold_set_obstacle (λ y, (x, y)) (λ y, negb (y mod 4 =? 0))
              (seqZ 0 (height g)) g Hwf) as (H1 & H2 & H3 & H4 & H5 & H6).
  repeat (split; [done|]). intros [px py]. rewrite H6. cbn [fst snd].
  rewrite (existsb_seqZ_pos _ _ _ _ py (px =? x)).
  - destruct (is_valid g (px, py)) eqn:Hv.
    + apply is_valid_bounds in Hv.
      replace (0 <=? py) with true by (symmetry; apply Z.leb_le; lia).
      replace (py <? height g) with true by (symmetry; apply Z.ltb_lt; lia).
      by rewrite !andb_true_r.
    + rewrite (get_cell_invalid g _ Hv). simpl. by destruct (_ && _).
  - intros a. rewrite Z.eqb_eq. split; [intros [= -> ->]; done|].
    intros [-> ->]. done.
Qed.

Lemma maze_row_cells g y :
  wf_grid g →
  wf_grid (maze_row g y) ∧ width (maze_row g y) = width g ∧
  height (maze_row g y) = height g ∧
  start (maze_row g y) = start g ∧ end_ (maze_row g y) = end_ g ∧
  ∀ p, get_cell (maze_row g y) p
       = if is_valid g p && (p.2 =? y) && negb (p.1 mod 5 =? 0)
         then OBSTACLE else get_cell g p.
Proof.
  intros Hwf. unfold maze_row.
  destruct (fold_set_obstacle (λ x, (x, y)) (λ x, negb (x mod 5 =? 0))
              (seqZ 0 (width g)) g Hwf) as (H1 & H2 & H3 & H4 & H5 & H6).
  repeat (split; [done|]). intros [px py]. rewrite H6. cbn [fst snd].
  rewrite (existsb_seqZ_pos _ _ _ _ px (py =? y)).
  - destruct (is_valid g (px, py)) eqn:Hv.
    + apply is_valid_bounds in Hv.
      replace (0 <=? px) with true by (symmetry; apply Z.leb_le; lia).
      replace (px <? width g) with true by (symmetry; apply Z.ltb_lt; lia).
      by rewrite !andb_true_r.
    + rewrite (get_cell_invalid g _ Hv). simpl. by destruct (_ && _).
  - intros a. rewrite Z.eqb_eq. split; [intros [= -> ->]; done|].
    intros [-> ->]. done.
Qed.

Lemma bool_decide_elem_of_2 (x a b : Z) :
  bool_decide (x ∈ [a; b]) = (x =? a) || (x =? b).
Proof.
  apply eq_true_iff_eq. rewrite bool_decide_eq_true, !orb_true_iff, !Z.eqb_eq.
  rewrite !elem_of_cons, elem_of_nil. tauto.
Qed.

Lemma bool_decide_elem_of_3 (x a b c : Z) :
  bool_decide (x ∈ [a; b; c]) = (x =? a) || (x =? b) || (x =? c).
Proof.
  apply eq_true_iff_eq. rewrite bool_decide_eq_true, !orb_true_iff, !Z.eqb_eq.
  rewrite !elem_of_cons, elem_of_nil. tauto.
Qed.

Lemma is_valid_same_size g g' p :
  width g' = width g → height g' = height g → is_valid g' p = is_valid g p.
Proof. intros W H. destruct p. unfold is_valid. by rewrite W, H. Qed.

(** X9. [create_maze_pattern] keeps the size of the grid and its start and
    end designations, turns into obstacles exactly the cells of its five
    walls that lie inside the grid and are not gaps, and leaves every other
    cell as it was. *)
Theorem create_maze_pattern_cells (g : Grid) :
  wf_grid g →
  wf_grid (create_maze_pattern g) ∧
  width (create_maze_pattern g) = width g ∧
  height (create_maze_pattern g) = height g ∧
  start (create_maze_pattern g) = start g ∧
  end_ (create_maze_pattern g) = end_ g ∧
  ∀ p, get_cell (create_maze_pattern g) p
       = if is_valid g p && maze_wall p then OBSTACLE else get_cell g p.
Proof.
  intros Hwf. unfold create_maze_pattern. cbn [fold_left].
  destruct (maze_column_cells g 8 Hwf) as (A1 & A2 & A3 & A4 & A5 & A6).
  destruct (maze_column_cells _ 16 A1) as (B1 & B2 & B3 & B4 & B5 & B6).
  destruct (maze_column_cells _ 24 B1) as (C1 & C2 & C3 & C4 & C5 & C6).
  destruct (maze_row_cells _ 6 C1) as (D1 & D2 & D3 & D4 & D5 & D6).
  destruct (maze_row_cells _ 12 D1) as (E1 & E2 & E3 & E4 & E5 & E6).
  split; [done|]. split; [congruence|]. split; [congruence|].
  split; [congruence|]. split; [congruence|].
  intros [x y]. rewrite E6, D6, C6, B6, A6.
  rewrite (is_valid_same_size g (maze_row _ 6)) by congruence.
  rewrite (is_valid_same_size g (maze_column _ 24)) by congruence.
  rewrite (is_valid_same_size g (maze_column _ 16)) by congruence.
  rewrite (is_valid_same_size g (maze_column _ 8)) by congruence.
  unfold maze_wall. cbn [fst snd].
  rewrite bool_decide_elem_of_3, bool_decide_elem_of_2.
  destruct (is_valid g (x, y)); simpl; [|done].
  destruct (x =? 8), (x =? 16), (x =? 24), (y =? 6), (y =? 12),
    (negb (y mod 4 =? 0)), (negb (x mod 5 =? 0)); done.
Qed.

Lemma create_maze_pattern_cells_witness :
  let g := create_maze_pattern (Grid_init 35 20) in
  wf_grid g ∧ width g = 35 ∧ height g = 20 ∧
  get_cell g (8, 1) = OBSTACLE ∧ get_cell g (8, 4) = EMPTY ∧
  get_cell g (24, 19) = OBSTACLE ∧ get_cell g (3, 6) = OBSTACLE ∧
  get_cell g (5, 6) = EMPTY ∧ get_cell g (16, 12) = OBSTACLE ∧
  get_cell g (2, 2) = EMPTY ∧ get_cell g (35, 6) = OBSTACLE.
Proof.
  destruct (create_maze_pattern_cells (Grid_init 35 20) (wf_grid_init 35 20))
    as (Hwf & Hw & Hh & _ & _ & Hc).
  cbn zeta. split; [exact Hwf|]. split; [exact Hw|]. split; [exact Hh|].
  rewrite !Hc. vm_compute. repeat split; reflexivity.
Defined.

(** ** The path that is returned *)

Lemma last_cons_default (l : list Position) x d d' :
  default d (last (x :: l)) = default d' (last (x :: l)).
Proof.
  revert x. induction l as [|y l IH]; intros x; [done|].
  change (last (x :: y :: l)) with (last (y :: l)). apply IH.
Qed.

Lemma cost_from_snoc acc p rest q :
  cost_from acc p (rest ++ [q])
  = (cost_from acc p rest
     + get_movement_cost (default p (last rest)) q)%float.
Proof.
  revert acc p. induction rest as [|r rest IH]; intros acc p; [done|].
  cbn [app cost_from]. rewrite IH.
  replace (default p (last (r :: rest))) with (default r (last rest));
    [done|].
  destruct rest as [|r' rest]; [done|].
  change (last (r :: r' :: rest)) with (last (r' :: rest)).
  apply last_cons_default.
Qed.

Lemma path_cost_of_snoc path b q :
  last path = Some b →
  path_cost_of (path ++ [q])
  = (path_cost_of path + get_movement_cost b q)%float.
Proof.
  destruct path as [|p rest]; [done|]. intros Hl.
  cbn [app path_cost_of]. rewrite cost_from_snoc.
  replace (default p (last rest)) with b; [done|].
  destruct rest as [|r rest]; [by injection Hl|].
  change (last (p :: r :: rest)) with (last (r :: rest)) in Hl.
  by rewrite Hl.
Qed.

Lemma reconstruct_path_last n : last (_reconstruct_path n) = Some (position n).
Proof.
  unfold _reconstruct_path. destruct n as [f p gs h par ts]. simpl.
  apply last_snoc.
Qed.

Lemma is_path_walkable g path a :
  head path = Some a → is_walkable g a = true → is_path g path = true →
  Forall (λ p, is_walkable g p = true) path.
Proof.
  revert a. induction path as [|p [|q path] IH]; intros a Hh Ha Hp.
  - constructor.
  - injection Hh as ->. by repeat constructor.
  - injection Hh as ->.
    change (is_path g (a :: q :: path))
      with (bool_decide (q ∈ get_neighbors g a) && is_path g (q :: path)) in Hp.
    apply andb_true_iff in Hp as [Hq Hp]. apply bool_decide_eq_true in Hq.
    constructor; [done|]. apply (IH q); [done| |done].
    by eapply get_neighbors_walkable.
Qed.

Section Chains.

Context (clock : nat → float) (end_pos : Position) (cb : option Observer).

Lemma node_simple_mono (C C' : gset Position) n :
  C ⊆ C' → node_simple C n → node_simple C' n.
Proof. intros HC [H1 H2]. split; [done|]. intros p Hp. by apply HC, H2. Qed.

Lemma explore_neighbor_chain current s q :
  NoDup (path_to_root current) →
  (∀ p, p ∈ path_to_root current → p ∈ closed_set s) →
  chain_inv s → chain_inv (explore_neighbor clock end_pos current s q).
Proof.
  intros Hnd Hcl Hinv. unfold explore_neighbor.
  destruct (decide _) as [|Hq]; [done|].
  destruct (not_better _ _ _); [done|].
  intros item. simpl. unfold heappush.
  rewrite elem_of_app, list_elem_of_singleton. intros [Hi | ->].
  - by apply Hinv.
  - split; simpl.
    + constructor; [|done]. intros Hin. by apply Hq, Hcl.
    + done.
Qed.

Lemma explore_fold_chain current l s :
  NoDup (path_to_root current) →
  (∀ p, p ∈ path_to_root current → p ∈ closed_set s) →
  chain_inv s →
  chain_inv (fold_left (explore_neighbor clock end_pos current) l s).
Proof.
  intros Hnd. revert s. induction l as [|q l IH]; intros s Hcl Hinv; simpl;
    [done|].
  apply IH.
  - by rewrite explore_neighbor_closed_set.
  - by apply explore_neighbor_chain.
Qed.

Lemma explore_neighbor_cost current s q :
  node_cost_ok current → cost_inv s →
  cost_inv (explore_neighbor clock end_pos current s q).
Proof.
  intros Hcur Hinv. unfold explore_neighbor.
  destruct (decide _); [done|]. destruct (not_better _ _ _); [done|].
  intros item. simpl. unfold heappush.
  rewrite elem_of_app, list_elem_of_singleton. intros [Hi | ->].
  - by apply Hinv.
  - unfold node_cost_ok. simpl. rewrite reconstruct_child.
    rewrite (path_cost_of_snoc _ (position current));
      [|apply reconstruct_path_last].
    by rewrite <- Hcur.
Qed.

Lemma explore_fold_cost current l s :
  node_cost_ok current → cost_inv s →
  cost_inv (fold_left (explore_neighbor clock end_pos current) l s).
Proof.
  intros Hcur. revert s. induction l as [|q l IH]; intros s Hinv; simpl;
    [done|].
  by apply IH, explore_neighbor_cost.
Qed.

Lemma initial_state_cost g start_pos st :
  cost_inv (initial_state clock end_pos g start_pos st).
Proof.
  intros item. unfold initial_state, heappush. cbn [open_set app].
  rewrite list_elem_of_singleton. by intros ->.
Qed.

Lemma initial_state_chain g start_pos st :
  chain_inv (initial_state clock end_pos g start_pos st).
Proof.
  intros item. unfold initial_state, heappush. cbn [open_set app].
  rewrite list_elem_of_singleton. intros ->. split; simpl.
  - repeat constructor. by intros ?%elem_of_nil.
  - by intros p ?%elem_of_nil.
Qed.

Lemma loop_iteration_cost s s' :
  cost_inv s → loop_iteration clock end_pos cb s = Continue s' → cost_inv s'.
Proof.
  intros Hinv. unfold loop_iteration.
  destruct (heappop (open_set s)) as [[item rest]|] eqn:Hpop; [|done].
  pose proof (heappop_elem_of _ _ _ Hpop) as [Hitem Hrest].
  destruct (decide (_ ∈ _)).
  - intros [= <-]. intros i Hi. apply Hinv. by apply Hrest.
  - destruct (decide (_ = _)).
    + unfold goal_reached. by destruct (stats _).
    + intros [= <-]. unfold explore_neighbors.
      apply explore_fold_cost; [by apply Hinv|].
      intros i. simpl. rewrite notify_open_set. simpl.
      intros Hi. apply Hinv. by apply Hrest.
Qed.

(** The recorded cost and length are those of the path returned. *)
Lemma loop_iteration_cost_found s path s' :
  cost_inv s → is_Some (stats s) →
  loop_iteration clock end_pos cb s = Return (Some path) s' →
  ∃ st, stats s' = Some st ∧
        path_length st = Z.of_nat (length path) ∧
        path_cost st = path_cost_of path.
Proof.
  intros Hinv [st Hst]. unfold loop_iteration.
  destruct (heappop (open_set s)) as [[item rest]|] eqn:Hpop; [|done].
  pose proof (heappop_elem_of _ _ _ Hpop) as [Hitem Hrest].
  destruct (decide (_ ∈ _)); [done|].
  destruct (decide (_ = _)); [|done].
  unfold goal_reached. rewrite notify_stats. simpl.
  unfold stats_at_pop. rewrite Hst. simpl.
  intros [= <- <-]. eexists. split; [done|]. simpl. split; [done|].
  by apply Hinv.
Qed.

Hypothesis Hcb : well_behaved cb.

Lemma loop_iteration_chain s s' :
  chain_inv s → loop_iteration clock end_pos cb s = Continue s' →
  chain_inv s'.
Proof.
  intros Hinv. unfold loop_iteration.
  destruct (heappop (open_set s)) as [[item rest]|] eqn:Hpop; [|done].
  pose proof (heappop_elem_of _ _ _ Hpop) as [Hitem Hrest].
  destruct (Hinv item Hitem) as [Hnd Hanc].
  destruct (decide (_ ∈ _)).
  - intros [= <-]. intros i Hi. apply Hinv. by apply Hrest.
  - destruct (decide (_ = _)).
    + unfold goal_reached. by destruct (stats _).
    + intros [= <-]. unfold explore_neighbors.
      apply explore_fold_chain; [done| |].
      * intros p Hp. simpl. rewrite notify_closed_set by done. simpl.
        destruct item.2 as [f pp gs h par ts] eqn:Hn. simpl in *.
        apply elem_of_cons in Hp as [-> | Hp]; [set_solver|].
        apply elem_of_union_l. by apply Hanc.
      * intros i. simpl. rewrite notify_open_set, notify_closed_set by done.
        simpl. intros Hi.
        eapply node_simple_mono; [|apply Hinv; by apply Hrest]. set_solver.
Qed.

Lemma loop_iteration_chain_found s path s' :
  chain_inv s → loop_iteration clock end_pos cb s = Return (Some path) s' →
  NoDup path.
Proof.
  intros Hinv Hr.
  apply loop_iteration_found in Hr as (item & Hitem & _ & ->).
  unfold _reconstruct_path.
  apply NoDup_ListNoDup, List.NoDup_rev, NoDup_ListNoDup. by apply Hinv.
Qed.

End Chains.

(** X10. A path that [find_path] returns leads from the start to the end by
    moves that [get_neighbors] offers, goes through walkable cells only and
    through no cell twice; so it is no longer than the number of walkable
    cells. *)
Theorem find_path_returns_simple_path (clock : nat → float) (fuel : nat)
    (g : Grid) (start_pos end_pos : Position) (cb : option Observer)
    (st : option AlgorithmStats) (path : list Position) (s : State) :
  well_behaved cb →
  find_path clock fuel g start_pos end_pos cb st = Some (Some path, s) →
  connects g start_pos end_pos path ∧
  Forall (λ p, is_walkable g p = true) path ∧
  NoDup path ∧
  (length path ≤ walkable_count g)%nat.
Proof.
  intros Hcb Hrun.
  assert (Hconn : connects g start_pos end_pos path)
    by (by eapply find_path_sound).
  unfold find_path, find_path_fuel in Hrun.
  destruct (is_walkable g start_pos) eqn:Hs; simpl in Hrun; [|done].
  destruct (is_walkable g end_pos) eqn:He; simpl in Hrun; [|done].
  destruct (iterate _ _ _ _ _) as [s1|p s1] eqn:Hit; [done|].
  injection Hrun as -> ->.
  assert (Hw : Forall (λ p, is_walkable g p = true) path).
  { destruct Hconn as (Hh & _ & Hp). by eapply is_path_walkable. }
  assert (Hnd : NoDup path).
  { apply (iterate_return clock end_pos cb chain_inv
             (λ p _, ∀ path, p = Some path → NoDup path))
      with (fuel := fuel) (s := initial_state clock end_pos g start_pos st)
           (p := Some path) (s' := s); try done.
    - intros s1 s2 H1 H2. by eapply loop_iteration_chain.
    - intros s1 p s2 H1 H2 path' ->. by eapply loop_iteration_chain_found.
    - apply initial_state_chain. }
  split; [done|]. split; [done|]. split; [done|].
  rewrite <- (size_list_to_set (C := gset Position) path) by done.
  apply size_walkable. intros p Hp. apply elem_of_list_to_set in Hp.
  rewrite Forall_forall in Hw. by apply Hw.
Qed.

Lemma find_path_returns_simple_path_witness :
  ∃ s, find_path clock1 (search_fuel grid_3x3) grid_3x3 (0, 0) (2, 2)
         (Some observer_idle) None = Some (Some [(0, 0); (1, 1); (2, 2)], s) ∧
       connects grid_3x3 (0, 0) (2, 2) [(0, 0); (1, 1); (2, 2)] ∧
       Forall (λ p, is_walkable grid_3x3 p = true) [(0, 0); (1, 1); (2, 2)] ∧
       NoDup [(0, 0); (1, 1); (2, 2)] ∧
       (length [(0, 0); (1, 1); (2, 2)] ≤ walkable_count grid_3x3)%nat.
Proof.
  eexists. split; [vm_compute; reflexivity|].
  eapply (find_path_returns_simple_path clock1 (search_fuel grid_3x3)
            grid_3x3 (0, 0) (2, 2) (Some observer_idle) None
            [(0, 0); (1, 1); (2, 2)] _ observer_idle_read_only).
  vm_compute; reflexivity.
Defined.

(** X11. When a path is returned and a statistics record was supplied, the
    record holds the number of positions of the path and, as its cost, the
    movement costs of its steps added up from the start in binary64
    arithmetic (no observer, or one that only looks). *)
Theorem find_path_records_path (clock : nat → float) (fuel : nat)
    (g : Grid) (start_pos end_pos : Position) (cb : option Observer)
    (st0 : AlgorithmStats) (path : list Position) (s : State) :
  well_behaved cb →
  find_path clock fuel g start_pos end_pos cb (Some st0)
    = Some (Some path, s) →
  ∃ st, stats s = Some st ∧
        path_length st = Z.of_nat (length path) ∧
        path_cost st = path_cost_of path.
Proof.
  intros _ Hrun. unfold find_path, find_path_fuel in Hrun.
  destruct (negb _ || negb _); [done|].
  destruct (iterate _ _ _ _ _) as [s1|p s1] eqn:Hit; [done|].
  injection Hrun as -> ->.
  apply (iterate_return clock end_pos cb
           (λ s, cost_inv s ∧ is_Some (stats s))
           (λ p s', ∀ path, p = Some path →
              ∃ st, stats s' = Some st ∧
                    path_length st = Z.of_nat (length path) ∧
                    path_cost st = path_cost_of path))
    with (fuel := fuel) (s := initial_state clock end_pos g start_pos (Some st0))
         (p := Some path) (s' := s); try done.
  - intros s1 s2 [H1 [x Hx]] H2. split; [by eapply loop_iteration_cost|].
    destruct (loop_iteration_max_open clock end_pos cb s1 x Hx) as (x' & Hx' & _).
    rewrite H2 in Hx'. by eexists.
  - intros s1 p s2 [H1 H1'] H2 path' ->.
    by eapply loop_iteration_cost_found.
  - split; [apply initial_state_cost|by eexists].
Qed.

Lemma find_path_records_path_witness :
  ∃ s st, find_path clock1 (search_fuel grid_3x3) grid_3x3 (0, 0) (2, 1)
            (Some observer_idle) (Some AlgorithmStats_init)
            = Some (Some [(0, 0); (1, 0); (2, 1)], s) ∧
          stats s = Some st ∧
          path_length st = 3 ∧
          path_cost st = path_cost_of [(0, 0); (1, 0); (2, 1)].
Proof.
  assert (H : ∃ s', find_path clock1 (search_fuel grid_3x3) grid_3x3 (0, 0)
                      (2, 1) (Some observer_idle) (Some AlgorithmStats_init)
                    = Some (Some [(0, 0); (1, 0); (2, 1)], s')).
  { eexists. vm_compute. reflexivity. }
  destruct H as [s' H].
  destruct (find_path_records_path clock1 (search_fuel grid_3x3) grid_3x3
              (0, 0) (2, 1) (Some observer_idle) AlgorithmStats_init
              [(0, 0); (1, 0); (2, 1)] s' observer_idle_read_only H)
    as (st & H1 & H2 & H3).
  exists s', st. split; [exact H|]. split; [exact H1|].
  split; [exact H2|exact H3].
Defined.

(** ** Reachable goals are found *)

Lemma last_rev (l : list Position) : last (rev l) = head l.
Proof. destruct l as [|x l]; [done|]. simpl. apply last_snoc. Qed.

Lemma head_rev (l : list Position) : head (rev l) = last l.
Proof. by rewrite <- (last_rev (rev l)), rev_involutive. Qed.

Lemma is_path_rev g path :
  Forall (λ p, is_walkable g p = true) path →
  is_path g path = true → is_path g (rev path) = true.
Proof.
  induction path as [|x [|y path] IH]; intros Hw Hp; [done|done|].
  change (is_path g (x :: y :: path))
    with (bool_decide (y ∈ get_neighbors g x) && is_path g (y :: path)) in Hp.
  apply andb_true_iff in Hp as [Hxy Hp]. apply bool_decide_eq_true in Hxy.
  apply Forall_cons in Hw as [Hx Hw].
  change (rev (x :: y :: path)) with (rev (y :: path) ++ [x]).
  rewrite is_path_snoc, (IH Hw Hp), last_rev. simpl.
  apply bool_decide_eq_true. by apply get_neighbors_back.
Qed.

Lemma connects_rev g a b path :
  is_walkable g a = true → connects g a b path → connects g b a (rev path).
Proof.
  intros Ha (Hh & Hl & Hp). split; [by rewrite head_rev|].
  split; [by rewrite last_rev|].
  apply is_path_rev; [|done]. by eapply is_path_walkable.
Qed.

Lemma connects_walkable g a b path :
  is_walkable g a = true → connects g a b path → is_walkable g b = true.
Proof.
  intros Ha (Hh & Hl & Hp).
  pose proof (is_path_walkable g path a Hh Ha Hp) as Hw.
  rewrite Forall_forall in Hw. apply Hw.
  apply last_Some_elem_of in Hl. done.
Qed.

(** A set that holds the head of a path and the neighbours of each of its
    members holds the whole path. *)
Lemma is_path_closed (g : Grid) (C : gset Position) path a :
  (∀ p q, p ∈ C → q ∈ get_neighbors g p → q ∈ C) →
  head path = Some a → a ∈ C → is_path g path = true →
  ∀ x, x ∈ path → x ∈ C.
Proof.
  intros HC. revert a. induction path as [|p [|q path] IH]; intros a Hh Ha Hp x.
  - by intros ?%elem_of_nil.
  - injection Hh as ->. by intros ->%list_elem_of_singleton.
  - injection Hh as ->.
    change (is_path g (a :: q :: path))
      with (bool_decide (q ∈ get_neighbors g a) && is_path g (q :: path)) in Hp.
    apply andb_true_iff in Hp as [Hq Hp]. apply bool_decide_eq_true in Hq.
    intros [-> | Hx]%elem_of_cons; [done|].
    apply (IH q); [done| |done|done]. by eapply HC.
Qed.

Section Cover.

Context (clock : nat → float) (end_pos : Position) (cb : option Observer)
        (g : Grid) (start_pos : Position).

Lemma explore_neighbor_covered_mono current s q q' :
  covered s q' → covered (explore_neighbor clock end_pos current s q) q'.
Proof.
  unfold explore_neighbor. destruct (decide _); [done|].
  destruct (not_better _ _ _); [done|].
  intros [H | (item & Hi & Hp)]; [by left|].
  right. exists item. split; [|done]. simpl. unfold heappush.
  apply elem_of_app. by left.
Qed.

Lemma explore_neighbor_covers current s q :
  (∀ q', is_Some (g_scores s !! q') → covered s q') →
  covered (explore_neighbor clock end_pos current s q) q.
Proof.
  intros Hs. unfold explore_neighbor. destruct (decide _); [by left|].
  unfold not_better. destruct (g_scores s !! q) as [gq|] eqn:Hq.
  - destruct (PrimFloat.leb gq _).
    + apply Hs. by rewrite Hq.
    + right. eexists. split;
        [simpl; unfold heappush; apply elem_of_app; right;
         by apply list_elem_of_singleton|done].
  - right. eexists. split;
      [simpl; unfold heappush; apply elem_of_app; right;
       by apply list_elem_of_singleton|done].
Qed.

Lemma explore_neighbor_scores current s q :
  (∀ q', is_Some (g_scores s !! q') → covered s q') →
  ∀ q', is_Some (g_scores (explore_neighbor clock end_pos current s q) !! q') →
        covered (explore_neighbor clock end_pos current s q) q'.
Proof.
  intros Hs q' Hq'.
  destruct (decide (q' = q)) as [->|Hne]; [by apply explore_neighbor_covers|].
  apply explore_neighbor_covered_mono, Hs.
  revert Hq'. unfold explore_neighbor. destruct (decide _); [done|].
  destruct (not_better _ _ _); [done|]. simpl.
  by rewrite lookup_insert_ne.
Qed.

Lemma explore_fold_cover current l s :
  (∀ q', is_Some (g_scores s !! q') → covered s q') →
  let s' := fold_left (explore_neighbor clock end_pos current) l s in
  (∀ q', covered s q' → covered s' q') ∧
  (∀ q, q ∈ l → covered s' q) ∧
  (∀ q', is_Some (g_scores s' !! q') → covered s' q').
Proof.
  revert s. induction l as [|q l IH]; intros s Hs; simpl.
  - split; [done|]. split; [|done]. by intros q ?%elem_of_nil.
  - destruct (IH (explore_neighbor clock end_pos current s q)
                (explore_neighbor_scores current s q Hs)) as (H1 & H2 & H3).
    split; [|split; [|done]].
    + intros q' Hq'. by apply H1, explore_neighbor_covered_mono.
    + intros q' [-> | Hq']%elem_of_cons; [|by apply H2].
      by apply H1, explore_neighbor_covers.
Qed.

Lemma initial_state_cover st :
  cover_inv g start_pos end_pos (initial_state clock end_pos g start_pos st).
Proof.
  assert (Hc : covered (initial_state clock end_pos g start_pos st) start_pos).
  { right. eexists. split; [simpl; by apply list_elem_of_singleton|done]. }
  split.
  - done.
  - simpl. set_solver.
  - intros p q. simpl. set_solver.
  - intros q [x Hq]. simpl in Hq.
    apply lookup_singleton_Some in Hq as [<- _]. done.
Qed.

Hypothesis Hcb : well_behaved cb.

Lemma loop_iteration_cover s s' :
  st_grid s = g → cover_inv g start_pos end_pos s →
  loop_iteration clock end_pos cb s = Continue s' →
  cover_inv g start_pos end_pos s'.
Proof.
  intros Hg [Hst Hend Hcl Hsc]. unfold loop_iteration.
  destruct (heappop (open_set s)) as [[item rest]|] eqn:Hpop; [|done].
  pose proof (heappop_perm _ _ _ Hpop) as Hperm.
  destruct (decide (_ ∈ _)) as [Hin|Hin].
  - intros [= <-].
    assert (Hmono : ∀ q, covered s q → covered (skip_item s item rest) q).
    { intros q [H | (i & Hi & Hp)]; [by left|].
      rewrite Hperm in Hi. apply elem_of_cons in Hi as [-> | Hi].
      - left. simpl. by rewrite <- Hp.
      - right. by exists i. }
    split; simpl; eauto.
  - destruct (decide (_ = _)) as [Heq|Hne].
    + unfold goal_reached. by destruct (stats _).
    + intros [= <-].
      set (s2 := notify cb (position item.2) (visit_item s item rest)).
      assert (Ho2 : open_set s2 = rest) by (unfold s2; by rewrite notify_open_set).
      assert (Hc2 : closed_set s2 = closed_set s ∪ {[position item.2]})
        by (unfold s2; by rewrite notify_closed_set).
      assert (Hg2 : g_scores s2 = g_scores s)
        by (unfold s2; by rewrite notify_g_scores).
      assert (Hgr2 : st_grid s2 = g) by (unfold s2; by rewrite notify_grid).
      assert (Hmono : ∀ q, covered s q → covered s2 q).
      { intros q [H | (i & Hi & Hp)].
        - left. rewrite Hc2. set_solver.
        - rewrite Hperm in Hi. apply elem_of_cons in Hi as [-> | Hi].
          + left. rewrite Hc2, <- Hp. set_solver.
          + right. exists i. by rewrite Ho2. }
      unfold explore_neighbors.
      set (s3 := {| st_grid := st_grid s2; open_set := open_set s2;
                    counter := counter s2; g_scores := g_scores s2;
                    closed_set := closed_set s2; node_map := node_map s2;
                    open_positions := open_positions s2; stats := stats s2;
                    ticks := ticks s2;
                    trace := trace s2 ++ [EvNeighbors (position item.2)] |}).
      assert (Hmono3 : ∀ q, covered s q → covered s3 q).
      { intros q Hq. by apply Hmono in Hq. }
      assert (Hsc3 : ∀ q, is_Some (g_scores s3 !! q) → covered s3 q).
      { intros q Hq. apply Hmono3, Hsc. simpl in Hq. by rewrite Hg2 in Hq. }
      destruct (explore_fold_cover item.2
                  (get_neighbors (st_grid s2) (position item.2)) s3 Hsc3)
        as (H1 & H2 & H3).
      split.
      * by apply H1, Hmono3.
      * rewrite explore_fold_closed_set. simpl. rewrite Hc2. set_solver.
      * intros p q. rewrite explore_fold_closed_set. simpl. rewrite Hc2.
        intros [Hp | ->%elem_of_singleton]%elem_of_union Hq.
        -- apply H1, Hmono3. by eapply Hcl.
        -- apply H2. by rewrite Hgr2.
      * done.
Qed.

(** The frontier cannot run empty while a path to the end exists. *)
Lemma loop_iteration_not_exhausted s s' path :
  cover_inv g start_pos end_pos s →
  connects g start_pos end_pos path →
  loop_iteration clock end_pos cb s = Return None s' → False.
Proof.
  intros [Hst Hend Hcl Hsc] (Hh & Hl & Hp). unfold loop_iteration.
  destruct (heappop (open_set s)) as [[item rest]|] eqn:Hpop.
  - destruct (decide (_ ∈ _)); [done|].
    destruct (decide (_ = _)); [|done].
    unfold goal_reached. by destruct (stats _).
  - intros _. apply heappop_nil in Hpop.
    assert (Hcov : ∀ q, covered s q → q ∈ closed_set s).
    { intros q [H | (i & Hi & _)]; [done|].
      rewrite Hpop in Hi. by apply elem_of_nil in Hi. }
    apply Hend.
    apply (is_path_closed g (closed_set s) path start_pos); try done.
    + intros p q Hpc Hq. apply Hcov. by eapply Hcl.
    + by apply Hcov.
    + by apply last_Some_elem_of.
Qed.

End Cover.

Lemma find_path_some_iff (clock : nat → float) (fuel : nat)
    (g : Grid) (start_pos end_pos : Position) (cb : option Observer)
    (st : option AlgorithmStats) :
  well_behaved cb → (search_fuel g ≤ fuel)%nat →
  (∃ path s,
     find_path clock fuel g start_pos end_pos cb st = Some (Some path, s)) ↔
  (is_walkable g start_pos = true ∧
   ∃ path, connects g start_pos end_pos path).
Proof.
  intros Hcb Hfuel. split.
  - intros (path & s & Hrun). split.
    + unfold find_path, find_path_fuel in Hrun.
      by destruct (is_walkable g start_pos).
    + exists path. by eapply find_path_sound.
  - intros (Hs & path0 & Hconn).
    pose proof (connects_walkable g _ _ _ Hs Hconn) as He.
    destruct (search_terminates clock fuel g start_pos end_pos cb st Hcb Hfuel)
      as (r & s & Hrun).
    destruct r as [path|]; [by eauto|]. exfalso.
    unfold find_path, find_path_fuel in Hrun. rewrite Hs, He in Hrun.
    simpl in Hrun.
    destruct (iterate _ _ _ _ _) as [s1|p s1] eqn:Hit; [done|].
    injection Hrun as -> ->.
    apply (iterate_return clock end_pos cb
             (λ s, search_inv g start_pos s ∧
                   cover_inv g start_pos end_pos s)
             (λ p _, p = None → False))
      with (fuel := fuel) (s := initial_state clock end_pos g start_pos st)
           (p := None) (s' := s); try done.
    + intros s1 s2 [H1 H2] H3. split.
      * by apply (loop_iteration_inv clock end_pos cb g start_pos Hcb s1 s2).
      * eapply loop_iteration_cover; [done|by destruct H1|done|done].
    + intros s1 p s2 [H1 H2] H3 ->.
      by eapply loop_iteration_not_exhausted.
    + split; [by apply initial_state_inv|by apply initial_state_cover].
Qed.

(** X12. [find_path] returns a path exactly when the start is walkable and
    some path of the grid leads from the start to the end (given the rounds
    it needs and an observer that only looks). *)
Theorem find_path_finds_reachable (clock : nat → float) (fuel : nat)
    (g : Grid) (start_pos end_pos : Position) (cb : option Observer)
    (st : option AlgorithmStats) :
  well_behaved cb → (search_fuel g ≤ fuel)%nat →
  (∃ path s,
     find_path clock fuel g start_pos end_pos cb st = Some (Some path, s)) ↔
  (is_walkable g start_pos = true ∧
   ∃ path, connects g start_pos end_pos path).
Proof. intros Hcb Hfuel. by apply find_path_some_iff. Qed.

Lemma grid_3x3_connected : connects grid_3x3 (0, 0) (2, 2) [(0, 0); (1, 1); (2, 2)].
Proof. split; [done|]. split; [done|]. by vm_compute. Qed.

Lemma find_path_finds_reachable_witness :
  ∃ path s,
    find_path clock1 (search_fuel grid_3x3) grid_3x3 (0, 0) (2, 2)
      (Some observer_idle) None = Some (Some path, s).
Proof.
  apply (find_path_finds_reachable clock1 (search_fuel grid_3x3) grid_3x3
           (0, 0) (2, 2) (Some observer_idle) None
           observer_idle_read_only (le_n _)).
  split; [reflexivity|]. eexists. exact grid_3x3_connected.
Defined.

(** X13. Searching from the end to the start succeeds exactly when searching
    from the start to the end does. *)
Theorem find_path_reversible (clock : nat → float) (fuel : nat)
    (g : Grid) (a b : Position) (cb : option Observer)
    (st : option AlgorithmStats) :
  well_behaved cb → (search_fuel g ≤ fuel)%nat →
  (∃ path s, find_path clock fuel g a b cb st = Some (Some path, s)) ↔
  (∃ path s, find_path clock fuel g b a cb st = Some (Some path, s)).
Proof.
  intros Hcb Hfuel.
  rewrite !(find_path_some_iff clock fuel g _ _ cb st Hcb Hfuel).
  split; intros (Hw & path & Hc).
  - split; [by eapply connects_walkable|].
    exists (rev path). by apply connects_rev.
  - split; [by eapply connects_walkable|].
    exists (rev path). by apply connects_rev.
Qed.

Lemma find_path_reversible_witness :
  (∃ path s, find_path clock1 (search_fuel grid_3x3) grid_3x3 (0, 0) (2, 2)
               None None = Some (Some path, s)) ↔
  (∃ path s, find_path clock1 (search_fuel grid_3x3) grid_3x3 (2, 2) (0, 0)
               None None = Some (Some path, s)).
Proof.
  apply (find_path_reversible clock1 (search_fuel grid_3x3) grid_3x3
           (0, 0) (2, 2) None None I (le_n _)).
Defined.

(** ** Termination for every input *)

Lemma iterate_more clock end_pos cb n m s p s' :
  iterate clock end_pos cb n s = Return p s' →
  iterate clock end_pos cb (n + m) s = Return p s'.
Proof. intros H. by rewrite iterate_add, H. Qed.

(** X14. Whatever the grid and the positions, [find_path] returns within [8
    * walkable_count g + 2] rounds of its loop, and allowing more rounds
    changes nothing in what it returns nor in the state it leaves. *)
Theorem find_path_terminates (clock : nat → float) (fuel : nat)
    (g : Grid) (start_pos end_pos : Position) (cb : option Observer)
    (st : option AlgorithmStats) :
  well_behaved cb → (search_fuel g ≤ fuel)%nat →
  ∃ r s,
    find_path clock (search_fuel g) g start_pos end_pos cb st = Some (r, s) ∧
    find_path clock fuel g start_pos end_pos cb st = Some (r, s).
Proof.
  intros Hcb Hfuel.
  destruct (search_terminates clock (search_fuel g) g start_pos end_pos cb st
              Hcb (le_n _)) as (r & s & Hrun).
  exists r, s. split; [done|].
  unfold find_path, find_path_fuel in *.
  destruct (negb _ || negb _); [done|].
  destruct (iterate clock end_pos cb (search_fuel g) _) as [s1|p s1] eqn:Hit;
    [done|].
  replace fuel with (search_fuel g + (fuel - search_fuel g))%nat by lia.
  by rewrite (iterate_more _ _ _ _ _ _ _ _ Hit).
Qed.

Lemma find_path_terminates_witness :
  ∃ r s,
    find_path clock1 (search_fuel grid_cut) grid_cut (0, 0) (2, 0)
      (Some observer_idle) None = Some (r, s) ∧
    find_path clock1 (search_fuel grid_cut + 5) grid_cut (0, 0) (2, 0)
      (Some observer_idle) None = Some (r, s).
Proof.
  apply (find_path_terminates clock1 (search_fuel grid_cut + 5) grid_cut
           (0, 0) (2, 0) (Some observer_idle) None).
  - exact observer_idle_read_only.
  - lia.
Defined.

(** ** Counters, visits and calls *)

Lemma pops_app tr tr' : pops (tr ++ tr') = pops tr ++ pops tr'.
Proof. apply omap_app. Qed.

Section Counters.

Context (clock : nat → float) (end_pos : Position) (cb : option Observer).

Lemma explore_neighbor_pops current s q :
  pops (trace (explore_neighbor clock end_pos current s q)) = pops (trace s).
Proof.
  unfold explore_neighbor. destruct (decide _); [done|].
  destruct (not_better _ _ _); [done|]. simpl.
  rewrite pops_app. simpl. by rewrite app_nil_r.
Qed.

Lemma explore_neighbors_pops current s :
  pops (trace (explore_neighbors clock end_pos current s)) = pops (trace s).
Proof.
  unfold explore_neighbors.
  match goal with
  | |- pops (trace (fold_left _ ?l ?s0)) = _ =>
      assert (H : ∀ l' s1, pops (trace (fold_left
                   (explore_neighbor clock end_pos current) l' s1))
                 = pops (trace s1));
      [|rewrite (H l s0)]
  end.
  - induction l' as [|q l' IH]; intros s1; simpl; [done|].
    by rewrite IH, explore_neighbor_pops.
  - simpl. rewrite pops_app. simpl. by rewrite app_nil_r.
Qed.

Lemma notify_pops p s : pops (trace (notify cb p s)) = pops (trace s).
Proof.
  rewrite notify_trace, pops_app. destruct cb; simpl; by rewrite app_nil_r.
Qed.

Lemma notify_visits p s : visits (trace (notify cb p s)) = visits (trace s).
Proof.
  rewrite notify_trace, visits_app. destruct cb; simpl; by rewrite app_nil_r.
Qed.

Lemma loop_iteration_count st0 s :
  count_inv st0 s → count_inv st0 (step_state (loop_iteration clock end_pos cb s)).
Proof.
  intros [(st & Hst & Hi & Hn)]. split. unfold loop_iteration.
  destruct (heappop (open_set s)) as [[item rest]|].
  - destruct (decide (_ ∈ _)).
    + simpl. unfold stats_at_pop. rewrite Hst. simpl.
      eexists. split; [done|]. simpl.
      rewrite pops_app, visits_app, !length_app. simpl. lia.
    + destruct (decide (_ = _)).
      * unfold goal_reached. rewrite notify_stats. simpl.
        unfold stats_at_pop. rewrite Hst. simpl.
        eexists. split; [done|]. simpl.
        rewrite notify_pops, notify_visits. simpl.
        rewrite pops_app, visits_app, !length_app. simpl. lia.
      * simpl. rewrite explore_neighbors_stats, notify_stats. simpl.
        unfold stats_at_pop. rewrite Hst. simpl.
        eexists. split; [done|].
        rewrite explore_neighbors_pops.
        destruct (explore_neighbors_calls clock end_pos item.2
                    (notify cb (position item.2) (visit_item s item rest)))
          as [_ ->].
        rewrite notify_pops, notify_visits. simpl.
        rewrite pops_app, visits_app, !length_app. simpl. lia.
  - simpl. unfold no_path_found. rewrite Hst. simpl.
    eexists. split; [done|]. simpl. lia.
Qed.

Lemma iterate_count st0 n s :
  count_inv st0 s → count_inv st0 (step_state (iterate clock end_pos cb n s)).
Proof.
  revert s. induction n as [|n IH]; intros s H; simpl; [done|].
  pose proof (loop_iteration_count st0 s H) as Hr.
  destruct (loop_iteration clock end_pos cb s) as [s1|p s1]; simpl in *;
    [by apply IH|done].
Qed.

(** More pops than visits are never needed: each visit follows a pop. *)
Lemma loop_iteration_pops_visits s :
  (length (visits (trace s)) ≤ length (pops (trace s)))%nat →
  (length (visits (trace (step_state (loop_iteration clock end_pos cb s))))
   ≤ length (pops (trace (step_state (loop_iteration clock end_pos cb s)))))%nat.
Proof.
  intros H. unfold loop_iteration.
  destruct (heappop (open_set s)) as [[item rest]|].
  - destruct (decide (_ ∈ _)).
    + simpl. rewrite pops_app, visits_app, !length_app. simpl. lia.
    + assert (Hn : (length (visits (trace (notify cb (position item.2)
                                             (visit_item s item rest))))
                    ≤ length (pops (trace (notify cb (position item.2)
                                             (visit_item s item rest)))))%nat).
      { rewrite notify_pops, notify_visits. simpl.
        rewrite pops_app, visits_app, !length_app. simpl. lia. }
      destruct (decide (_ = _)).
      * unfold goal_reached. by destruct (stats _).
      * simpl. rewrite explore_neighbors_pops.
        by destruct (explore_neighbors_calls clock end_pos item.2
                       (notify cb (position item.2) (visit_item s item rest)))
          as [_ ->].
  - simpl. unfold no_path_found. by destruct (stats s).
Qed.

Lemma iterate_pops_visits n s :
  (length (visits (trace s)) ≤ length (pops (trace s)))%nat →
  (length (visits (trace (step_state (iterate clock end_pos cb n s))))
   ≤ length (pops (trace (step_state (iterate clock end_pos cb n s)))))%nat.
Proof.
  revert s. induction n as [|n IH]; intros s H; simpl; [done|].
  pose proof (loop_iteration_pops_visits s H) as Hr.
  destruct (loop_iteration clock end_pos cb s) as [s1|p s1]; simpl in *;
    [by apply IH|done].
Qed.

(** Every call tells of a position that is in the visited set handed over
    and not in the open set handed over. *)
Lemma loop_iteration_consistent s :
  Forall call_consistent (calls (trace s)) →
  Forall call_consistent
    (calls (trace (step_state (loop_iteration clock end_pos cb s)))).
Proof.
  intros H. unfold loop_iteration.
  destruct (heappop (open_set s)) as [[item rest]|].
  - destruct (decide (_ ∈ _)).
    + simpl. rewrite calls_app. simpl. by rewrite app_nil_r.
    + assert (Hn : Forall call_consistent
                     (calls (trace (notify cb (position item.2)
                                      (visit_item s item rest))))).
      { rewrite notify_trace. simpl. rewrite !calls_app. simpl.
        rewrite app_nil_r. apply Forall_app. split; [done|].
        destruct cb; simpl; [|constructor].
        constructor; [|constructor].
        eexists _, _, _, _. split; [done|]. set_solver. }
      destruct (decide (_ = _)).
      * by destruct (goal_reached_calls clock item.2
                       (notify cb (position item.2) (visit_item s item rest)))
          as [-> _].
      * simpl.
        by destruct (explore_neighbors_calls clock end_pos item.2
                       (notify cb (position item.2) (visit_item s item rest)))
          as [-> _].
  - simpl. by destruct (no_path_found_calls clock s) as [-> _].
Qed.

Lemma iterate_consistent n s :
  Forall call_consistent (calls (trace s)) →
  Forall call_consistent
    (calls (trace (step_state (iterate clock end_pos cb n s)))).
Proof.
  revert s. induction n as [|n IH]; intros s H; simpl; [done|].
  pose proof (loop_iteration_consistent s H) as Hr.
  destruct (loop_iteration clock end_pos cb s) as [s1|p s1]; simpl in *;
    [by apply IH|done].
Qed.

Hypothesis Hcb : well_behaved cb.

Lemma loop_iteration_visits s :
  visit_inv s → visit_inv (step_state (loop_iteration clock end_pos cb s)).
Proof.
  intros [Hnd Hcl]. unfold loop_iteration.
  destruct (heappop (open_set s)) as [[item rest]|].
  - destruct (decide (_ ∈ _)) as [Hin|Hin].
    + split; simpl; rewrite visits_app; simpl; by rewrite app_nil_r.
    + assert (Hn : visit_inv (notify cb (position item.2)
                                (visit_item s item rest))).
      { split.
        - rewrite notify_visits. simpl. rewrite visits_app. simpl.
          apply NoDup_app. split; [done|]. split; [|apply NoDup_singleton].
          intros p Hp ->%list_elem_of_singleton. by apply Hin, Hcl.
        - intros p. rewrite notify_visits, notify_closed_set by done. simpl.
          rewrite visits_app, elem_of_app, elem_of_union, Hcl. simpl.
          by rewrite list_elem_of_singleton, elem_of_singleton. }
      destruct Hn as [Hnd' Hcl'].
      destruct (decide (_ = _)).
      * destruct (goal_reached_calls clock item.2
                    (notify cb (position item.2) (visit_item s item rest)))
          as [_ Hv].
        split; [by rewrite Hv|]. intros p. rewrite Hv, Hcl'.
        unfold goal_reached. by destruct (stats _).
      * simpl.
        destruct (explore_neighbors_calls clock end_pos item.2
                    (notify cb (position item.2) (visit_item s item rest)))
          as [_ Hv].
        split; [by rewrite Hv|]. intros p.
        by rewrite Hv, Hcl', explore_neighbors_closed_set.
  - simpl. destruct (no_path_found_calls clock s) as [_ Hv].
    split; [by rewrite Hv|]. intros p. rewrite Hv, Hcl.
    unfold no_path_found. by destruct (stats s).
Qed.

Lemma iterate_visits n s :
  visit_inv s → visit_inv (step_state (iterate clock end_pos cb n s)).
Proof.
  revert s. induction n as [|n IH]; intros s H; simpl; [done|].
  pose proof (loop_iteration_visits s H) as Hr.
  destruct (loop_iteration clock end_pos cb s) as [s1|p s1]; simpl in *;
    [by apply IH|done].
Qed.

End Counters.

Lemma find_path_final_state clock fuel g start_pos end_pos cb st r s :
  find_path clock fuel g start_pos end_pos cb st = Some (r, s) →
  s = entry_state g st ∨
  (is_walkable g start_pos = true ∧
   s = state_after clock g start_pos end_pos cb st fuel).
Proof.
  unfold find_path, find_path_fuel, state_after.
  destruct (is_walkable g start_pos); simpl; [|intros [= <- <-]; by left].
  destruct (is_walkable g end_pos); simpl; [|intros [= <- <-]; by left].
  destruct (iterate _ _ _ _ _) as [s1|p s1]; [done|].
  intros [= <- <-]. by right.
Qed.

(** X15. With a statistics record supplied, on return [iterations] has grown
    by the number of pops of the run and [nodes_explored] by the number of
    positions visited, which is never more; this holds whatever the observer
    does. *)
Theorem find_path_counts (clock : nat → float) (fuel : nat)
    (g : Grid) (start_pos end_pos : Position) (cb : option Observer)
    (st0 : AlgorithmStats) (r : option (list Position)) (s : State) :
  find_path clock fuel g start_pos end_pos cb (Some st0) = Some (r, s) →
  ∃ st, stats s = Some st ∧
        iterations st
          = iterations st0 + Z.of_nat (length (pops (trace s))) ∧
        nodes_explored st
          = nodes_explored st0 + Z.of_nat (length (visits (trace s))) ∧
        nodes_explored st - nodes_explored st0
          ≤ iterations st - iterations st0.
Proof.
  intros Hrun.
  apply find_path_final_state in Hrun as [-> | [_ ->]].
  - exists st0. simpl. split; [done|]. lia.
  - unfold state_after.
    set (init := initial_state clock end_pos g start_pos (Some st0)).
    assert (Hc : count_inv st0 init).
    { split. exists st0. simpl. split; [done|]. lia. }
    destruct (iterate_count clock end_pos cb st0 fuel init Hc)
      as [(st & Hst & Hi & Hn)].
    pose proof (iterate_pops_visits clock end_pos cb fuel init) as Hle.
    exists st. split; [done|]. split; [done|]. split; [done|].
    assert (length (visits (trace init)) ≤ length (pops (trace init)))%nat
      by (simpl; lia).
    specialize (Hle H). lia.
Qed.

Lemma find_path_counts_witness :
  ∃ r s st,
    find_path clock1 (search_fuel grid_cut) grid_cut (0, 0) (2, 0) None
      (Some stats_used) = Some (r, s) ∧
    stats s = Some st ∧
    iterations st
      = iterations stats_used + Z.of_nat (length (pops (trace s))) ∧
    nodes_explored st
      = nodes_explored stats_used + Z.of_nat (length (visits (trace s))) ∧
    nodes_explored st - nodes_explored stats_used
      ≤ iterations st - iterations stats_used.
Proof.
  assert (H : ∃ r s, find_path clock1 (search_fuel grid_cut) grid_cut (0, 0)
                       (2, 0) None (Some stats_used) = Some (r, s)).
  { eexists _, _. vm_compute. reflexivity. }
  destruct H as (r & s & H).
  destruct (find_path_counts clock1 (search_fuel grid_cut) grid_cut (0, 0)
              (2, 0) None stats_used r s) as (st & H1 & H2 & H3 & H4).
  - exact H.
  - exists r, s, st. split; [exact H|]. split; [exact H1|].
    split; [exact H2|]. split; [exact H3|exact H4].
Defined.

Lemma loop_iteration_closed_walkable clock end_pos cb g start_pos s :
  well_behaved cb → search_inv g start_pos s →
  closed_walkable g (step_state (loop_iteration clock end_pos cb s)).
Proof.
  intros Hcb [Hg Ho Hc]. unfold loop_iteration.
  destruct (heappop (open_set s)) as [[item rest]|] eqn:Hpop.
  - pose proof (heappop_elem_of _ _ _ Hpop) as [Hitem _].
    destruct (Ho item Hitem) as [Hcur _].
    assert (Hc' : ∀ p, p ∈ closed_set s ∪ {[position item.2]} →
                       is_walkable g p = true).
    { intros p [Hp | ->%elem_of_singleton]%elem_of_union; [by apply Hc|done]. }
    destruct (decide (_ ∈ _)); [done|].
    destruct (decide (_ = _)).
    + unfold goal_reached, closed_walkable.
      destruct (stats _); simpl; by rewrite notify_closed_set.
    + simpl. unfold closed_walkable.
      by rewrite explore_neighbors_closed_set, notify_closed_set.
  - simpl. unfold no_path_found, closed_walkable. by destruct (stats s).
Qed.

Lemma iterate_closed_walkable clock end_pos cb g start_pos n s :
  well_behaved cb → search_inv g start_pos s →
  closed_walkable g (step_state (iterate clock end_pos cb n s)).
Proof.
  intros Hcb. revert s. induction n as [|n IH]; intros s H; simpl.
  - by destruct H.
  - pose proof (loop_iteration_closed_walkable clock end_pos cb g start_pos s
                  Hcb H) as Hr.
    destruct (loop_iteration clock end_pos cb s) as [s1|p s1] eqn:Hround;
      simpl in *; [|done].
    apply IH.
    by apply (loop_iteration_inv clock end_pos cb g start_pos Hcb s s1).
Qed.

(** X16. No position is visited twice in a run; the positions visited are
    the members of the visited set on return, all of them walkable, so at
    most [walkable_count g] positions are ever expanded. *)
Theorem find_path_visits_once (clock : nat → float) (fuel : nat)
    (g : Grid) (start_pos end_pos : Position) (cb : option Observer)
    (st : option AlgorithmStats) (r : option (list Position)) (s : State) :
  well_behaved cb →
  find_path clock fuel g start_pos end_pos cb st = Some (r, s) →
  NoDup (visits (trace s)) ∧
  (∀ p, p ∈ visits (trace s) ↔ p ∈ closed_set s) ∧
  (∀ p, p ∈ visits (trace s) → is_walkable g p = true) ∧
  (length (visits (trace s)) ≤ walkable_count g)%nat.
Proof.
  intros Hcb Hrun.
  assert (H : visit_inv s ∧ closed_walkable g s).
  { apply find_path_final_state in Hrun as [-> | [Hs ->]].
    - split; [split; simpl|].
      + constructor.
      + intros p. set_solver.
      + intros p. simpl. set_solver.
    - unfold state_after. split.
      + apply iterate_visits; [done|]. split; simpl.
        * constructor.
        * intros p. set_solver.
      + apply (iterate_closed_walkable _ _ _ _ start_pos); [done|].
        by apply initial_state_inv. }
  destruct H as [[Hnd Hcl] Hw].
  split; [done|]. split; [done|].
  assert (Hvw : ∀ p, p ∈ visits (trace s) → is_walkable g p = true).
  { intros p Hp. by apply Hw, Hcl. }
  split; [done|].
  rewrite <- (size_list_to_set (C := gset Position) _ Hnd).
  apply size_walkable. intros p Hp. apply elem_of_list_to_set in Hp. auto.
Qed.

Lemma find_path_visits_once_witness :
  ∃ r s,
    find_path clock1 (search_fuel grid_3x3) grid_3x3 (0, 0) (2, 2)
      (Some observer_idle) None = Some (r, s) ∧
    NoDup (visits (trace s)) ∧
    (∀ p, p ∈ visits (trace s) ↔ p ∈ closed_set s) ∧
    (∀ p, p ∈ visits (trace s) → is_walkable grid_3x3 p = true) ∧
    (length (visits (trace s)) ≤ walkable_count grid_3x3)%nat.
Proof.
  assert (H : ∃ r s, find_path clock1 (search_fuel grid_3x3) grid_3x3 (0, 0)
                       (2, 2) (Some observer_idle) None = Some (r, s)).
  { eexists _, _. vm_compute. reflexivity. }
  destruct H as (r & s & H). exists r, s. split; [exact H|].
  exact (find_path_visits_once clock1 (search_fuel grid_3x3) grid_3x3 (0, 0)
           (2, 2) (Some observer_idle) None r s
           observer_idle_read_only H).
Defined.

(** X17. Every call of the observer names a position that is in the visited
    set it hands over and not in the open set it hands over. *)
Theorem observer_sees_current_visited (clock : nat → float) (fuel : nat)
    (g : Grid) (start_pos end_pos : Position) (cb : option Observer)
    (st : option AlgorithmStats) (r : option (list Position)) (s : State) :
  find_path clock fuel g start_pos end_pos cb st = Some (r, s) →
  Forall call_consistent (calls (trace s)).
Proof.
  intros Hrun.
  apply find_path_final_state in Hrun as [-> | [_ ->]].
  - constructor.
  - unfold state_after. apply iterate_consistent. simpl. constructor.
Qed.

Lemma observer_sees_current_visited_witness :
  ∃ r s,
    find_path clock1 (search_fuel grid_2x2) grid_2x2 (0, 0) (1, 1)
      (Some observer_idle) None = Some (r, s) ∧
    Forall call_consistent (calls (trace s)).
Proof.
  assert (H : ∃ r s, find_path clock1 (search_fuel grid_2x2) grid_2x2 (0, 0)
                       (1, 1) (Some observer_idle) None = Some (r, s)).
  { eexists _, _. vm_compute. reflexivity. }
  destruct H as (r & s & H). exists r, s. split; [exact H|].
  exact (observer_sees_current_visited clock1 (search_fuel grid_2x2) grid_2x2
           (0, 0) (1, 1) (Some observer_idle) None r s H).
Defined.

(** ** What is kept for the observer *)

Section Tables.

Context (clock : nat → float) (end_pos : Position) (cb : option Observer).

Lemma explore_neighbor_table current s q :
  table_inv end_pos s →
  table_inv end_pos (explore_neighbor clock end_pos current s q).
Proof.
  intros H. unfold explore_neighbor. destruct (decide _); [done|].
  destruct (not_better _ _ _); [done|].
  intros p. simpl. destruct (decide (q = p)) as [->|Hne].
  - rewrite !lookup_insert_eq. by repeat split.
  - rewrite !lookup_insert_ne by done. apply H.
Qed.

Lemma explore_fold_table current l s :
  table_inv end_pos s →
  table_inv end_pos (fold_left (explore_neighbor clock end_pos current) l s).
Proof.
  revert s. induction l as [|q l IH]; intros s H; simpl; [done|].
  by apply IH, explore_neighbor_table.
Qed.

Lemma explore_neighbor_open_positions current s q :
  open_positions_inv s →
  open_positions_inv (explore_neighbor clock end_pos current s q).
Proof.
  intros H. unfold explore_neighbor. destruct (decide _) as [|Hq]; [done|].
  destruct (not_better _ _ _); [done|].
  intros p. simpl. unfold heappush. rewrite elem_of_union, elem_of_singleton.
  rewrite (H p). split.
  - intros [[Hp (item & Hi & Hpos)] | ->].
    + split; [done|]. exists item. split; [|done]. apply elem_of_app. by left.
    + split; [done|]. eexists. split;
        [apply elem_of_app; right; by apply list_elem_of_singleton|done].
  - intros [Hp (item & Hi & Hpos)].
    apply elem_of_app in Hi as [Hi | ->%list_elem_of_singleton].
    + left. split; [done|]. by exists item.
    + right. by rewrite <- Hpos.
Qed.

Lemma explore_fold_open_positions current l s :
  open_positions_inv s →
  open_positions_inv
    (fold_left (explore_neighbor clock end_pos current) l s).
Proof.
  revert s. induction l as [|q l IH]; intros s H; simpl; [done|].
  by apply IH, explore_neighbor_open_positions.
Qed.

Lemma initial_state_table g start_pos st :
  table_inv end_pos (initial_state clock end_pos g start_pos st).
Proof.
  intros p. simpl. destruct (decide (start_pos = p)) as [->|Hne].
  - rewrite !lookup_singleton_eq. by repeat split.
  - by rewrite !lookup_singleton_ne.
Qed.

Lemma initial_state_open_positions g start_pos st :
  open_positions_inv (initial_state clock end_pos g start_pos st).
Proof.
  intros p. simpl. rewrite elem_of_singleton. split.
  - intros ->. split; [set_solver|]. eexists. split;
      [by apply list_elem_of_singleton|done].
  - intros [_ (item & ->%list_elem_of_singleton & Hp)]. by rewrite <- Hp.
Qed.

Hypothesis Hcb : well_behaved cb.

Lemma notify_node_map p s : node_map (notify cb p s) = node_map s.
Proof.
  unfold notify. destruct cb as [f|]; [|done]. by rewrite (Hcb _ _ _ _).
Qed.

Lemma notify_open_positions p s :
  open_positions (notify cb p s) = open_positions s.
Proof.
  unfold notify. destruct cb as [f|]; [|done]. by rewrite (Hcb _ _ _ _).
Qed.

Lemma loop_iteration_table s :
  table_inv end_pos s →
  table_inv end_pos (step_state (loop_iteration clock end_pos cb s)).
Proof.
  intros H. unfold loop_iteration.
  destruct (heappop (open_set s)) as [[item rest]|].
  - destruct (decide (_ ∈ _)); [done|].
    assert (Hn : table_inv end_pos
                   (notify cb (position item.2) (visit_item s item rest))).
    { intros p. rewrite notify_node_map, notify_g_scores. apply H. }
    destruct (decide (_ = _)).
    + unfold goal_reached. by destruct (stats _).
    + simpl. unfold explore_neighbors. by apply explore_fold_table.
  - simpl. unfold no_path_found. by destruct (stats s).
Qed.

Lemma loop_iteration_open_positions s :
  open_positions_inv s →
  open_positions_inv (step_state (loop_iteration clock end_pos cb s)).
Proof.
  intros H. unfold loop_iteration.
  destruct (heappop (open_set s)) as [[item rest]|] eqn:Hpop.
  - pose proof (heappop_perm _ _ _ Hpop) as Hperm.
    destruct (decide (_ ∈ _)) as [Hin|Hin].
    + intros p. simpl. rewrite (H p). split.
      * intros [Hp (i & Hi & Hpos)]. split; [done|]. exists i. split; [|done].
        rewrite Hperm in Hi. apply elem_of_cons in Hi as [-> | Hi]; [|done].
        exfalso. apply Hp. by rewrite <- Hpos.
      * intros [Hp (i & Hi & Hpos)]. split; [done|]. exists i. split; [|done].
        rewrite Hperm. by right.
    + assert (Hn : open_positions_inv
                     (notify cb (position item.2) (visit_item s item rest))).
      { intros p. rewrite notify_open_positions, notify_closed_set,
          notify_open_set by done. simpl.
        rewrite elem_of_difference, elem_of_union, !elem_of_singleton, (H p).
        split.
        - intros [[Hp (i & Hi & Hpos)] Hne]. split; [tauto|].
          exists i. split; [|done].
          rewrite Hperm in Hi. apply elem_of_cons in Hi as [-> | Hi]; [|done].
          done.
        - intros [Hp (i & Hi & Hpos)]. split; [|tauto]. split; [tauto|].
          exists i. split; [|done]. rewrite Hperm. by right. }
      destruct (decide (_ = _)).
      * unfold goal_reached. by destruct (stats _).
      * simpl. unfold explore_neighbors.
        by apply explore_fold_open_positions.
  - simpl. unfold no_path_found. by destruct (stats s).
Qed.

Lemma iterate_tables n s :
  table_inv end_pos s ∧ open_positions_inv s →
  table_inv end_pos (step_state (iterate clock end_pos cb n s)) ∧
  open_positions_inv (step_state (iterate clock end_pos cb n s)).
Proof.
  revert s. induction n as [|n IH]; intros s [H1 H2]; simpl; [done|].
  pose proof (loop_iteration_table s H1) as Hr1.
  pose proof (loop_iteration_open_positions s H2) as Hr2.
  destruct (loop_iteration clock end_pos cb s) as [s1|p s1]; simpl in *;
    [by apply IH|done].
Qed.

End Tables.

(** X18. At every round of a run with an observer that only looks, the node
    table agrees with the table of best g-scores: every recorded position
    has one node, at that position, with the recorded g-score, with the
    heuristic of that position as h-score and with f-score g + h (the start
    node has f = h and g = 0); and the open positions are the positions of
    the frontier that are not visited yet. *)
Theorem observer_tables (clock : nat → float) (g : Grid)
    (start_pos end_pos : Position) (cb : option Observer)
    (st : option AlgorithmStats) (n : nat) :
  well_behaved cb →
  table_inv end_pos (state_after clock g start_pos end_pos cb st n) ∧
  open_positions_inv (state_after clock g start_pos end_pos cb st n).
Proof.
  intros Hcb. unfold state_after. apply iterate_tables; [done|].
  split; [apply initial_state_table|apply initial_state_open_positions].
Qed.

Lemma observer_tables_witness :
  table_inv (2, 2)
    (state_after clock1 grid_3x3 (0, 0) (2, 2) (Some observer_idle) None 2) ∧
  open_positions_inv
    (state_after clock1 grid_3x3 (0, 0) (2, 2) (Some observer_idle) None 2).
Proof.
  apply (observer_tables clock1 grid_3x3 (0, 0) (2, 2) (Some observer_idle)
           None 2 observer_idle_read_only).
Defined.

(** ** The order of the queue *)

Lemma key_lt_asym a b : key_lt a b → key_lt b a → False.
Proof. intros H1 H2. exact (key_lt_irrefl a (key_lt_trans _ _ _ H1 H2)). Qed.

Lemma StronglySorted_lookup_lt {A : Type} (R : A → A → Prop) (l : list A)
    (i j : nat) (a b : A) :
  StronglySorted R l → l !! i = Some a → l !! j = Some b → (i < j)%nat →
  R a b.
Proof.
  intros Hs. revert i j. induction Hs as [|x l Hs IH Hx]; intros i j Hi Hj Hij;
    [done|].
  destruct j as [|j]; [lia|]. simpl in Hj.
  destruct i as [|i]; simpl in Hi.
  - injection Hi as ->. rewrite Forall_forall in Hx.
    apply Hx. by eapply list_elem_of_lookup_2.
  - apply (IH i j); [done|done|lia].
Qed.

Lemma Entry_lt_distinct (a b : Entry) :
  fgood a.1.1 → fgood b.1.1 → a.1.2 ≠ b.1.2 →
  Entry_lt a b
  = (if PrimFloat.eqb a.1.1 b.1.1 then a.1.2 <? b.1.2
     else PrimFloat.ltb a.1.1 b.1.1) ∧
  Entry_lt a b = negb (Entry_lt b a).
Proof.
  destruct a as [[f1 c1] n1], b as [[f2 c2] n2]. cbn [fst snd].
  intros Ha Hb Hc. unfold Entry_lt.
  assert (Hc1 : (c1 =? c2) = false) by (by apply Z.eqb_neq).
  assert (Hc2 : (c2 =? c1) = false) by (apply Z.eqb_neq; congruence).
  rewrite Hc1, Hc2. cbn [negb].
  pose proof (eqb_good f1 f2 Ha Hb) as E12.
  pose proof (eqb_good f2 f1 Hb Ha) as E21.
  pose proof (ltb_good f1 f2 Ha Hb) as L12.
  pose proof (ltb_good f2 f1 Hb Ha) as L21.
  destruct (PrimFloat.eqb f1 f2) eqn:He12;
    destruct (PrimFloat.eqb f2 f1) eqn:He21; cbn [negb].
  - split; [done|]. destruct (Z.ltb_spec c1 c2), (Z.ltb_spec c2 c1);
      simpl; try done; lia.
  - exfalso. assert (true = true) as H%E12 by done.
    symmetry in H. apply E21 in H. done.
  - exfalso. assert (true = true) as H%E21 by done.
    symmetry in H. apply E12 in H. done.
  - split; [done|].
    destruct (PrimFloat.ltb f1 f2) eqn:Hl12;
      destruct (PrimFloat.ltb f2 f1) eqn:Hl21; simpl; try done; exfalso.
    + apply (key_lt_asym (float_key (Prim2SF f1)) (float_key (Prim2SF f2)));
        [by apply L12|by apply L21].
    + destruct (key_trichotomy (float_key (Prim2SF f1))
                  (float_key (Prim2SF f2))) as [H | [H | H]].
      * apply L12 in H. done.
      * apply E12 in H. done.
      * apply L21 in H. done.
Qed.

(** X19. Two items of the queue never fall back on comparing their nodes: no
    f-score is NaN, no two items carry the same counter, so the comparison
    of the triples is decided by the f-scores, or by the counters when the
    f-scores are equal, and of two items exactly one is less than the other. *)
Theorem queue_totally_ordered (clock : nat → float) (g : Grid)
    (start_pos end_pos : Position) (cb : option Observer)
    (st : option AlgorithmStats) (n : nat) (s : State)
    (i j : nat) (a b : Entry) :
  iterate clock end_pos cb n (initial_state clock end_pos g start_pos st)
    = Continue s →
  open_set s !! i = Some a → open_set s !! j = Some b → i ≠ j →
  PrimFloat.eqb a.1.1 a.1.1 = true ∧
  a.1.2 ≠ b.1.2 ∧
  Entry_lt a b
  = (if PrimFloat.eqb a.1.1 b.1.1 then a.1.2 <? b.1.2
     else PrimFloat.ltb a.1.1 b.1.1) ∧
  Entry_lt a b = negb (Entry_lt b a).
Proof.
  intros Hrun Hi Hj Hij.
  assert (Hinv : frontier_inv s).
  { eapply iterate_frontier; [|exact Hrun]. apply initial_state_frontier. }
  destruct (fr_good _ Hinv a) as [Ha _]; [by eapply list_elem_of_lookup_2|].
  destruct (fr_good _ Hinv b) as [Hb _]; [by eapply list_elem_of_lookup_2|].
  assert (Hc : a.1.2 ≠ b.1.2).
  { destruct (decide (i < j)%nat) as [Hlt|Hge].
    - pose proof (StronglySorted_lookup_lt counter_lt _ i j a b
                    (fr_sorted _ Hinv) Hi Hj Hlt) as H.
      unfold counter_lt in H. lia.
    - assert (Hlt : (j < i)%nat) by lia.
      pose proof (StronglySorted_lookup_lt counter_lt _ j i b a
                    (fr_sorted _ Hinv) Hj Hi Hlt) as H.
      unfold counter_lt in H. lia. }
  split; [by apply eqb_good|]. split; [done|].
  by apply Entry_lt_distinct.
Qed.

Lemma queue_totally_ordered_witness :
  ∃ s a b,
    iterate clock1 (2, 2) None 1
      (initial_state clock1 (2, 2) grid_3x3 (0, 0) None) = Continue s ∧
    open_set s !! 0%nat = Some a ∧ open_set s !! 1%nat = Some b ∧
    PrimFloat.eqb a.1.1 a.1.1 = true ∧
    a.1.2 ≠ b.1.2 ∧
    Entry_lt a b
    = (if PrimFloat.eqb a.1.1 b.1.1 then a.1.2 <? b.1.2
       else PrimFloat.ltb a.1.1 b.1.1) ∧
    Entry_lt a b = negb (Entry_lt b a).
Proof.
  assert (H : ∃ s a b,
             iterate clock1 (2, 2) None 1
               (initial_state clock1 (2, 2) grid_3x3 (0, 0) None)
               = Continue s ∧
             open_set s !! 0%nat = Some a ∧ open_set s !! 1%nat = Some b).
  { eexists _, _, _. vm_compute. repeat split; reflexivity. }
  destruct H as (s & a & b & H1 & H2 & H3).
  exists s, a, b. split; [exact H1|]. split; [exact H2|]. split; [exact H3|].
  apply (queue_totally_ordered clock1 grid_3x3 (0, 0) (2, 2) None None 1 s
           0 1 a b H1 H2 H3).
  lia.
Defined.

(** ** Clock readings *)

Section Clock.

Context (clock : nat → float) (end_pos : Position) (cb : option Observer).

Lemma clock_inv_ext s s' :
  ticks s' = ticks s → pushes (trace s') = pushes (trace s) →
  clock_inv clock s → clock_inv clock s'.
Proof. intros Ht Hp [H1 H2]. split; rewrite ?Ht, ?Hp; done. Qed.

Lemma notify_ticks p s : ticks (notify cb p s) = ticks s.
Proof. unfold notify. destruct cb as [f|]; [|done]. by destruct (f _) as [[??]?]. Qed.

Lemma explore_neighbor_clock current s q :
  clock_inv clock s →
  clock_inv clock (explore_neighbor clock end_pos current s q).
Proof.
  intros [H1 H2]. unfold explore_neighbor.
  destruct (decide _); [done|]. destruct (not_better _ _ _); [done|].
  split; cbn [ticks trace push_neighbor]; rewrite pushes_app; simpl.
  - rewrite length_app. simpl. lia.
  - intros k item Hk. apply lookup_app_Some in Hk as [Hk | [Hge Hk]].
    + by apply H2.
    + apply list_lookup_singleton_Some in Hk as [Hk <-]. simpl.
      rewrite H1. f_equal. lia.
Qed.

Lemma explore_fold_clock current l s :
  clock_inv clock s →
  clock_inv clock (fold_left (explore_neighbor clock end_pos current) l s).
Proof.
  revert s. induction l as [|q l IH]; intros s H; simpl; [done|].
  by apply IH, explore_neighbor_clock.
Qed.

Lemma loop_iteration_clock s s' :
  clock_inv clock s → loop_iteration clock end_pos cb s = Continue s' →
  clock_inv clock s'.
Proof.
  intros Hinv. unfold loop_iteration.
  destruct (heappop (open_set s)) as [[item rest]|]; [|done].
  destruct (decide (_ ∈ _)).
  - intros [= <-]. eapply clock_inv_ext; [..|exact Hinv]; simpl; [done|].
    rewrite pushes_app. simpl. by rewrite app_nil_r.
  - destruct (decide (_ = _)).
    + unfold goal_reached. by destruct (stats _).
    + intros [= <-]. unfold explore_neighbors. apply explore_fold_clock.
      eapply clock_inv_ext; [..|exact Hinv]; cbn [ticks trace].
      * by rewrite notify_ticks.
      * rewrite pushes_app, notify_trace_pushes. simpl.
        rewrite pushes_app. simpl. by rewrite !app_nil_r.
Qed.

Lemma loop_iteration_stats_is_Some s :
  is_Some (stats (step_state (loop_iteration clock end_pos cb s)))
  ↔ is_Some (stats s).
Proof.
  assert (Hpop : is_Some (stats_at_pop s) ↔ is_Some (stats s))
    by (unfold stats_at_pop; apply fmap_is_Some).
  unfold loop_iteration.
  destruct (heappop (open_set s)) as [[item rest]|].
  - destruct (decide (_ ∈ _)); [done|].
    assert (Hn : is_Some (stats (notify cb (position item.2)
                                   (visit_item s item rest)))
                 ↔ is_Some (stats s)).
    { rewrite notify_stats. cbn [stats visit_item].
      by rewrite fmap_is_Some. }
    destruct (decide (_ = _)).
    + unfold goal_reached.
      destruct (stats (notify cb (position item.2) (visit_item s item rest)))
        as [x|] eqn:Hst; cbn [step_state stats].
      * rewrite <- Hn. split; by eexists.
      * by rewrite Hst.
    + cbn [step_state]. by rewrite explore_neighbors_stats.
  - unfold no_path_found. destruct (stats s) as [x|] eqn:Hst;
      cbn [step_state stats]; [|by rewrite Hst].
    split; by eexists.
Qed.

Lemma loop_iteration_clock_return s p s' :
  clock_inv clock s →
  loop_iteration clock end_pos cb s = Return p s' →
  (∀ (k : nat) (item : Entry),
     pushes (trace s') !! k = Some item →
     timestamp item.2 = clock (S k)) ∧
  match stats s' with
  | Some st =>
      ticks s' = (length (pushes (trace s')) + 2)%nat ∧
      execution_time st
        = (clock (S (length (pushes (trace s')))) - clock 0%nat)%float
  | None => ticks s' = (length (pushes (trace s')) + 1)%nat
  end.
Proof.
  intros [H1 H2]. unfold loop_iteration.
  destruct (heappop (open_set s)) as [[item rest]|].
  - destruct (decide (_ ∈ _)); [done|].
    destruct (decide (_ = _)); [|done].
    assert (Hp : pushes (trace (notify cb (position item.2)
                                  (visit_item s item rest)))
                 = pushes (trace s)).
    { rewrite notify_trace_pushes. cbn [trace visit_item].
      rewrite pushes_app. simpl. by rewrite app_nil_r. }
    assert (Ht : ticks (notify cb (position item.2) (visit_item s item rest))
                 = ticks s) by (by rewrite notify_ticks).
    unfold goal_reached. rewrite notify_stats. cbn [stats visit_item].
    unfold stats_at_pop.
    destruct (stats s) as [x|] eqn:Hst; cbn [fmap option_fmap option_map].
    + intros [= <- <-]. cbn [ticks trace stats execution_time stats_found].
      rewrite Hp, Ht, H1. split; [done|]. split; [lia|done].
    + intros [= <- <-]. rewrite notify_stats. cbn [stats visit_item].
      unfold stats_at_pop. rewrite Hst. cbn [fmap option_fmap option_map].
      rewrite Hp, Ht, H1. split; [done|]. lia.
  - unfold no_path_found. destruct (stats s) as [x|] eqn:Hst.
    + intros [= <- <-]. cbn [ticks trace stats execution_time stats_elapsed].
      rewrite H1. split; [done|]. split; [lia|done].
    + intros [= <- <-]. rewrite Hst, H1. split; [done|]. lia.
Qed.

Lemma initial_state_clock g start_pos st :
  clock_inv clock (initial_state clock end_pos g start_pos st).
Proof.
  split; [done|]. intros [|k] item; [|done]. by intros [= <-].
Qed.

End Clock.

(** X20. [find_path] reads the clock once on entry and once for each node
    it creates: the node pushed as number [k], counting from 0, is created
    with reading [k + 1] as its timestamp.  With a statistics record, and
    past the check of start and end, it reads the clock once more on
    return and the execution time recorded is that last reading minus the
    first, whether a path was found or not; without a record there is no
    further reading.  When start or end is not walkable the record, if
    any, is left as it was, the clock has been read once and [None] is
    returned. *)
Theorem find_path_clock_readings (clock : nat → float) (fuel : nat)
    (g : Grid) (start_pos end_pos : Position) (cb : option Observer)
    (st : option AlgorithmStats) (r : option (list Position)) (s : State) :
  find_path clock fuel g start_pos end_pos cb st = Some (r, s) →
  if is_walkable g start_pos && is_walkable g end_pos then
    (∀ (k : nat) (item : Entry),
       pushes (trace s) !! k = Some item →
       timestamp item.2 = clock (S k)) ∧
    (is_Some (stats s) ↔ is_Some st) ∧
    match stats s with
    | Some st' =>
        ticks s = (length (pushes (trace s)) + 2)%nat ∧
        execution_time st'
          = (clock (S (length (pushes (trace s)))) - clock 0%nat)%float
    | None => ticks s = (length (pushes (trace s)) + 1)%nat
    end
  else stats s = st ∧ ticks s = 1%nat ∧ r = None.
Proof.
  unfold find_path, find_path_fuel.
  destruct (is_walkable g start_pos); simpl;
    [|by intros [= <- <-]].
  destruct (is_walkable g end_pos); simpl;
    [|by intros [= <- <-]].
  destruct (iterate _ _ _ _ _) as [s1|p s1] eqn:Hit; [done|].
  intros [= <- <-].
  apply (iterate_return clock end_pos cb
           (λ s, clock_inv clock s ∧ (is_Some (stats s) ↔ is_Some st))
           (λ _ s',
              (∀ (k : nat) (item : Entry),
                 pushes (trace s') !! k = Some item →
                 timestamp item.2 = clock (S k)) ∧
              (is_Some (stats s') ↔ is_Some st) ∧
              match stats s' with
              | Some st' =>
                  ticks s' = (length (pushes (trace s')) + 2)%nat ∧
                  execution_time st'
                    = (clock (S (length (pushes (trace s')))) - clock 0%nat)%float
              | None => ticks s' = (length (pushes (trace s')) + 1)%nat
              end))
    with (fuel := fuel) (s := initial_state clock end_pos g start_pos st)
         (p := p) (s' := s1); try done.
  - intros s2 s3 [H1 H2] H3. split; [by eapply loop_iteration_clock|].
    rewrite <- H2, <- (loop_iteration_stats_is_Some clock end_pos cb s2).
    by rewrite H3.
  - intros s2 p2 s3 [H1 H2] H3.
    destruct (loop_iteration_clock_return clock end_pos cb s2 p2 s3 H1 H3)
      as [Ha Hb].
    split; [done|]. split; [|done].
    rewrite <- H2, <- (loop_iteration_stats_is_Some clock end_pos cb s2).
    by rewrite H3.
  - split; [apply initial_state_clock|done].
Qed.

Lemma find_path_clock_readings_witness :
  (∃ r s st,
     find_path clock1 (search_fuel grid_cut) grid_cut (0, 0) (2, 0) None
       (Some stats_used) = Some (r, s) ∧
     (∀ (k : nat) (item : Entry),
        pushes (trace s) !! k = Some item →
        timestamp item.2 = clock1 (S k)) ∧
     stats s = Some st ∧
     ticks s = (length (pushes (trace s)) + 2)%nat ∧
     execution_time st
       = (clock1 (S (length (pushes (trace s)))) - clock1 0%nat)%float) ∧
  (∃ r s,
     find_path clock1 (search_fuel grid_3x3) grid_3x3 (0, 0) (2, 2)
       (Some observer_idle) None = Some (r, s) ∧
     (∀ (k : nat) (item : Entry),
        pushes (trace s) !! k = Some item →
        timestamp item.2 = clock1 (S k)) ∧
     (1 < length (pushes (trace s)))%nat ∧
     stats s = None ∧
     ticks s = (length (pushes (trace s)) + 1)%nat).
Proof.
  split.
  - assert (H : ∃ r s st,
               find_path clock1 (search_fuel grid_cut) grid_cut (0, 0) (2, 0)
                 None (Some stats_used) = Some (r, s) ∧
               stats s = Some st).
    { eexists _, _, _. vm_compute. split; reflexivity. }
    destruct H as (r & s & st & H & Hst).
    pose proof (find_path_clock_readings clock1 (search_fuel grid_cut)
                  grid_cut (0, 0) (2, 0) None (Some stats_used) r s H)
      as Hc.
    change (is_walkable grid_cut (0, 0) && is_walkable grid_cut (2, 0))
      with true in Hc.
    cbv iota in Hc. destruct Hc as (H1 & _ & H3). rewrite Hst in H3.
    destruct H3 as [H3 H4].
    exists r, s, st. split; [exact H|]. split; [exact H1|].
    split; [exact Hst|]. split; [exact H3|exact H4].
  - assert (H : ∃ r s,
               find_path clock1 (search_fuel grid_3x3) grid_3x3 (0, 0) (2, 2)
                 (Some observer_idle) None = Some (r, s) ∧
               stats s = None ∧
               (1 < length (pushes (trace s)))%nat).
    { eexists _, _. vm_compute. split; [reflexivity|]. split; [reflexivity|].
      lia. }
    destruct H as (r & s & H & Hst & Hlen).
    pose proof (find_path_clock_readings clock1 (search_fuel grid_3x3)
                  grid_3x3 (0, 0) (2, 2) (Some observer_idle) None r s H)
      as Hc.
    change (is_walkable grid_3x3 (0, 0) && is_walkable grid_3x3 (2, 2))
      with true in Hc.
    cbv iota in Hc. destruct Hc as (H1 & _ & H3). rewrite Hst in H3.
    exists r, s. split; [exact H|]. split; [exact H1|].
    split; [exact Hlen|]. split; [exact Hst|exact H3].
Defined.

(** ** Neighbours on a grid without obstacles *)

Lemma is_walkable_Grid_init (w h : Z) (p : Position) :
  is_walkable (Grid_init w h) p = is_valid (Grid_init w h) p.
Proof.
  destruct p as [x y]. unfold is_walkable.
  destruct (is_valid (Grid_init w h) (x, y)) eqn:Hv; [|done].
  apply is_valid_bounds in Hv. simpl in Hv.
  unfold cell_at. cbn [negb cells Grid_init].
  rewrite lookup_replicate_2 by lia. simpl.
  by rewrite lookup_replicate_2 by lia.
Qed.

Lemma map_filter_comm {A B : Type} (f : A → B) (P : A → bool)
    (Q : B → bool) (l : list A) :
  (∀ a, a ∈ l → P a = Q (f a)) →
  List.map f (List.filter P l) = List.filter Q (List.map f l).
Proof.
  induction l as [|a l IH]; intros H; [done|]. simpl.
  rewrite <- (H a) by (by left).
  rewrite <- IH by (intros b Hb; apply H; by right).
  by destruct (P a).
Qed.

Lemma step_allowed_Grid_init (w h x y : Z) (d : Z * Z) :
  is_valid (Grid_init w h) (x, y) = true → d ∈ directions →
  step_allowed (Grid_init w h) x y d
  = is_valid (Grid_init w h) (x + d.1, y + d.2).
Proof.
  intros Hv Hd. apply is_valid_bounds in Hv. cbn [width height Grid_init] in Hv.
  unfold step_allowed. rewrite !is_walkable_Grid_init.
  unfold is_valid. cbn [width height Grid_init].
  unfold directions in Hd. rewrite !elem_of_cons in Hd.
  repeat (destruct Hd as [-> | Hd]); try (by apply elem_of_nil in Hd);
    cbn [is_diagonal fst snd Z.eqb negb andb];
    repeat match goal with
           | |- context [?a <=? ?b] =>
               destruct (Z.leb_spec a b); try (exfalso; lia)
           | |- context [?a <? ?b] =>
               destruct (Z.ltb_spec a b); try (exfalso; lia)
           end; reflexivity.
Qed.

(** X21. On a new grid the neighbours of a position of the grid are those of
    the eight surrounding positions that lie inside the bounds, in the order
    in which the source lists its directions. *)
Theorem get_neighbors_empty_grid (w h x y : Z) :
  is_valid (Grid_init w h) (x, y) = true →
  get_neighbors (Grid_init w h) (x, y)
  = List.filter (is_valid (Grid_init w h))
      [(x, y - 1); (x, y + 1); (x - 1, y); (x + 1, y);
       (x - 1, y - 1); (x - 1, y + 1); (x + 1, y - 1); (x + 1, y + 1)].
Proof.
  intros Hv. rewrite get_neighbors_eq_spec. unfold neighbors_spec.
  cbn [fst snd].
  change (cardinal_directions ++ diagonal_directions) with directions.
  rewrite (map_filter_comm _ _ (is_valid (Grid_init w h)))
    by (intros d Hd; by apply step_allowed_Grid_init).
  f_equal. unfold directions. cbn [List.map fst snd].
  repeat f_equal; lia.
Qed.

Lemma get_neighbors_empty_grid_witness :
  get_neighbors (Grid_init 3 3) (0, 0) = [(0, 1); (1, 0); (1, 1)].
Proof.
  rewrite (get_neighbors_empty_grid 3 3 0 0); reflexivity.
Defined.
